(** * AR-Nav (Fortify Vision): the frontend utilities and the routing core

    The development has two layers.

    - The JavaScript that is present in the repository is embedded
      directly: [AlertsPage.markAsRead] (components/AlertsPage.jsx),
      [Api.getRecommendations] (api.js) and
      [AiRouteOptimizer.getOptimizedRouteSuggestions] /
      [AiRouteOptimizer.getSafetyFocusedRoutes] (utils/aiRouteOptimizer.js).
      JavaScript numbers are IEEE 754 binary64 values, taken from the
      standard library's [SpecFloat]; [Math.random] reads an explicit
      entropy tape that is threaded through the calls.

    - The smart-routing backend behind [/api/smart-routing] is only called
      from the frontend (components/ThreatResponsiveRouting.js); its code is
      not among the sources.  The routing core (GeoIndex, SafetyScorer,
      RoutePlanner, RouteMonitor) is therefore modelled from the
      specification, in [Module Core]; the definitions that stand for an
      operation or a record of the backend say so. *)

From Stdlib Require Import ZArith QArith Qminmax Qabs Lia Lqa List Sorted.
From Stdlib Require Import Floats.SpecFloat.
From stdpp Require Import gmap strings list.

Local Open Scope Z_scope.

(* ===================================================================== *)
(** * Part I: definitions                                                 *)
(* ===================================================================== *)

(** ** JavaScript numbers: IEEE 754 binary64 *)

Module Number.

Definition prec : Z := 53.
Definition emax : Z := 1024.

Definition number : Type := spec_float.

(** [x * y] and [x + y] on Numbers, round-to-nearest-even. *)
Definition mul : number -> number -> number := SFmul prec emax.
Definition add : number -> number -> number := SFadd prec emax.

(** The Number denoted by an integer literal. *)
Definition of_Z (z : Z) : number := binary_normalize prec emax z 0 false.

(** The integer part (towards minus infinity) of (-1)^s * m * 2^e. *)
Definition floor_Z (s : bool) (m : positive) (e : Z) : Z :=
  if 0 <=? e then cond_Zopp s (Zpos m) * 2 ^ e
  else cond_Zopp s (Zpos m) / 2 ^ (- e).

(** [Math.floor]: NaN, the infinities and the zeros are returned as they
    are; a finite value is replaced by its integer part. *)
Definition Math_floor (x : number) : number :=
  match x with
  | S754_finite s m e => binary_normalize prec emax (floor_Z s m e) 0 false
  | _ => x
  end.

(** The values [Math.random] may return: a Number of positive sign,
    greater than or equal to +0 and strictly less than 1. *)
Definition is_random_value (r : number) : bool :=
  match r with
  | S754_zero false => true
  | S754_finite false m e => bounded prec emax m e && SFltb r (of_Z 1)
  | _ => false
  end.

End Number.

Import Number.

(** ** JavaScript primitive values and [===] *)

Inductive Value : Type :=
| VUndefined
| VNull
| VBool (b : bool)
| VNumber (n : number)
| VString (s : string).

(** Strict equality on primitives: same type and same value; Numbers
    compare as IEEE values (NaN differs from itself, +0 equals -0). *)
Definition strict_equal (a b : Value) : bool :=
  match a, b with
  | VUndefined, VUndefined => true
  | VNull, VNull => true
  | VBool x, VBool y => Bool.eqb x y
  | VNumber x, VNumber y => SFeqb x y
  | VString x, VString y => String.eqb x y
  | _, _ => false
  end.

(** A plain JavaScript object: a finite map from property names to values;
    reading an absent property gives [undefined]. *)
Abbreviation Object := (gmap string Value).

Definition get (o : Object) (k : string) : Value := default VUndefined (o !! k).

(** What a caller may pass for an argument that is only handed on: a
    primitive, or a plain object such as [{lat, lng}] or [{}]. *)
Inductive Any : Type :=
| Prim (v : Value)
| Obj (o : Object).

(** ** components/AlertsPage.jsx *)

Module AlertsPage.

(** The component state held by the three [useState] hooks. *)
Record State : Type := {
  alerts : list Object;
  filterType : string;
  sortBy : string
}.

(** [sampleAlerts]; the three timestamps are computed from [Date.now()]
    when the module is loaded and are taken as parameters. *)
Definition sampleAlerts (t1 t2 t3 : string) : list Object :=
  [ {[ "id" := VNumber (of_Z 1);
       "type" := VString "Safety";
       "title" := VString "Heavy Traffic Reported Ahead";
       "description" := VString "A major accident has been reported on Main St. Expect significant delays or find an alternative route.";
       "location" := VString "Main St & 1st Ave";
       "timestamp" := VString t1;
       "severity" := VString "High";
       "read" := VBool false ]};
    {[ "id" := VNumber (of_Z 2);
       "type" := VString "System";
       "title" := VString "Map Data Updated";
       "description" := VString "Offline map data for your region has been successfully updated.";
       "timestamp" := VString t2;
       "severity" := VString "Low";
       "read" := VBool true ]};
    {[ "id" := VNumber (of_Z 3);
       "type" := VString "Safety";
       "title" := VString "Weather Warning: Thunderstorms";
       "description" := VString "Severe thunderstorms are expected in your area in the next 2 hours. Consider postponing travel.";
       "location" := VString "City Center Area";
       "timestamp" := VString t3;
       "severity" := VString "Medium";
       "read" := VBool false ]} ].

Definition initialState (t1 t2 t3 : string) : State :=
  {| alerts := sampleAlerts t1 t2 t3; filterType := "All"; sortBy := "Time" |}.

(** [alert => alert.id === id ? { ...alert, read: true } : alert] *)
Definition markOne (id : Value) (alert : Object) : Object :=
  if strict_equal (get alert "id") id then <["read" := VBool true]> alert
  else alert.

(** [setAlerts(alerts.map(...))]: the other two hooks are not touched. *)
Definition markAsRead (id : Value) (st : State) : State :=
  {| alerts := markOne id <$> alerts st;
     filterType := filterType st;
     sortBy := sortBy st |}.

End AlertsPage.

(** ** The environment of the asynchronous utilities *)

(** What a [catch] clause can receive. *)
Inductive Error : Type :=
| NetworkError (message : string)   (* a rejected HTTP request *)
| TypeError.                        (* raised by the language itself *)

(** A settled promise. *)
Inductive Settled (A : Type) : Type :=
| Fulfilled (a : A)
| Rejected (e : Error).

Arguments Fulfilled {A} a.
Arguments Rejected {A} e.

(** A threat report as the frontend posts it to [/api/smart-routing/threats]. *)
Record PostedThreat : Type := {
  threatLocation : Any;    (* {lat, lng} *)
  threatType : string;
  threatSeverity : string
}.

(** The part of the world the utilities read or write: the values the next
    calls of [Math.random] return ([entropy], read at position [draws]),
    the lines written with [console.error], and the threat reports the
    routing backend has received so far. *)
Record World : Type := {
  entropy : nat -> number;
  draws : nat;
  console : list (string * Error);
  reportedThreats : list PostedThreat
}.

Definition Math_random (w : World) : number * World :=
  (entropy w (draws w),
   {| entropy := entropy w; draws := S (draws w);
      console := console w; reportedThreats := reportedThreats w |}).

Definition console_error (line : string) (e : Error) (w : World) : World :=
  {| entropy := entropy w; draws := draws w;
     console := console w ++ [(line, e)];
     reportedThreats := reportedThreats w |}.

(** [array.map(f)] for a callback with effects: the elements are visited
    from left to right and the world is threaded through. *)
Fixpoint array_map {A B : Type} (f : A -> World -> B * World)
    (l : list A) (w : World) : list B * World :=
  match l with
  | [] => ([], w)
  | x :: l' =>
      let '(y, w1) := f x w in
      let '(ys, w2) := array_map f l' w1 in
      (y :: ys, w2)
  end.

(** [array.map(f)] for a callback that has effects and may throw: the first
    exception ends the walk and leaves [map]. *)
Fixpoint array_map_try {A B : Type} (f : A -> World -> Settled B * World)
    (l : list A) (w : World) : Settled (list B) * World :=
  match l with
  | [] => (Fulfilled [], w)
  | x :: l' =>
      match f x w with
      | (Rejected e, w1) => (Rejected e, w1)
      | (Fulfilled y, w1) =>
          match array_map_try f l' w1 with
          | (Rejected e, w2) => (Rejected e, w2)
          | (Fulfilled ys, w2) => (Fulfilled (y :: ys), w2)
          end
      end
  end.

(** Two worlds in which [Math.random] is about to return the same values. *)
Definition same_draws (w w' : World) : Prop :=
  forall i : nat, entropy w (draws w + i) = entropy w' (draws w' + i).

(** The threat reports known to the backend are replaced by [ts]: one more
    report ([postThreat], the effect of a successful
    [POST /api/smart-routing/threats]), or the same reports with another
    severity. *)
Definition withThreats (ts : list PostedThreat) (w : World) : World :=
  {| entropy := entropy w; draws := draws w; console := console w;
     reportedThreats := ts |}.

Definition postThreat (t : PostedThreat) (w : World) : World :=
  withThreats (reportedThreats w ++ [t]) w.

(** ** api.js: the recommendations endpoint *)

Module Api.

(** What the callbacks read of an element of the array served by
    [/recommendations] that has properties: [rec.id], [rec.message], and
    [rec.type] as a template literal renders it ("undefined" when the
    element has no such property). *)
Record Recommendation : Type := {
  rec_id : Value;
  rec_type : string;
  rec_message : Value
}.

(** An element of the served array: [null] or [undefined], of which no
    property can be read, or a value with properties. *)
Inductive Element : Type :=
| Nullish
| Item (rec : Recommendation).

(** [response.data]: the expected array, or anything else. *)
Inductive Payload : Type :=
| DataArray (items : list Element)
| DataOther (v : Value).

(** A callback of [recommendations.map] whose first step reads a property
    of the element: on [null] or [undefined] that read throws a
    [TypeError], before anything is drawn; otherwise [f] runs. *)
Definition onItem {B : Type} (f : Recommendation -> World -> B * World)
    (item : Element) (w : World) : Settled B * World :=
  match item with
  | Nullish => (Rejected TypeError, w)
  | Item rec => let '(y, w1) := f rec w in (Fulfilled y, w1)
  end.

(** [getRecommendations]: [response] is how the [axios.get] promise
    settles; a failure is logged and thrown again. *)
Definition getRecommendations (response : Settled Payload) (w : World)
    : Settled Payload * World :=
  match response with
  | Fulfilled data => (Fulfilled data, w)
  | Rejected error =>
      (Rejected error, console_error "Error fetching recommendations:" error w)
  end.

End Api.

(** ** utils/aiRouteOptimizer.js *)

Module AiRouteOptimizer.

Import Api.

Record OptimizedRoute : Type := {
  id : Value;
  name : string;
  description : Value;
  estimatedTime : number;
  safetyScore : number;
  trafficLevel : number
}.

Record Conditions : Type := {
  weather : string;
  trafficStatus : string;
  safetyAlerts : number
}.

Record Suggestions : Type := {
  optimizedRoutes : list OptimizedRoute;
  currentConditions : Conditions
}.

Record SafetyRoute : Type := {
  s_id : Value;
  s_name : string;
  s_description : Value;
  s_safetyScore : number;
  s_estimatedTime : number
}.

(** [Math.floor(Math.random() * n) + k] *)
Definition random_below_plus (n k : Z) (w : World) : number * World :=
  let '(r, w1) := Math_random w in
  (add (Math_floor (mul r (of_Z n))) (of_Z k), w1).

(** [Math.floor(Math.random() * n)] *)
Definition random_below (n : Z) (w : World) : number * World :=
  let '(r, w1) := Math_random w in
  (Math_floor (mul r (of_Z n)), w1).

(** The callback of [recommendations.map] in
    [getOptimizedRouteSuggestions]; the properties are evaluated in the
    order they are written. *)
Definition optimizedRoute (rec : Recommendation) (w : World)
    : OptimizedRoute * World :=
  let '(time, w1) := random_below_plus 30 15 w in
  let '(score, w2) := random_below 100 w1 in
  let '(traffic, w3) := random_below 3 w2 in
  ({| id := rec_id rec;
      name := rec_type rec +:+ " Route";
      description := rec_message rec;
      estimatedTime := time;
      safetyScore := score;
      trafficLevel := traffic |}, w3).

Definition fallbackSuggestions : Suggestions :=
  {| optimizedRoutes :=
       [ {| id := VString "fallback-1";
            name := "Fallback Route 1";
            description := VString "API error - using fallback route";
            estimatedTime := of_Z 25;
            safetyScore := of_Z 85;
            trafficLevel := of_Z 1 |} ];
     currentConditions :=
       {| weather := "Unknown"; trafficStatus := "Unknown";
          safetyAlerts := of_Z 0 |} |}.

(** [getOptimizedRouteSuggestions(startLocation, endLocation, preferences)].
    [routeData] is built and never used.  Whatever is thrown inside [try]
    (the rejection of [getRecommendations], the [TypeError] of calling
    [.map] on something that is not an array, or the [TypeError] of reading
    [rec.id] of a [null] element, after the routes of the elements before
    it have been built) is logged and answered with the fallback object. *)
Definition getOptimizedRouteSuggestions
    (startLocation endLocation preferences : Any)
    (response : Settled Payload) (w : World) : Settled Suggestions * World :=
  let '(recommendations, w1) := getRecommendations response w in
  match recommendations with
  | Fulfilled (DataArray items) =>
      match array_map_try (onItem optimizedRoute) items w1 with
      | (Fulfilled routes, w2) =>
          (Fulfilled
             {| optimizedRoutes := routes;
                currentConditions :=
                  {| weather := "Sunny"; trafficStatus := "Moderate";
                     safetyAlerts := of_Z (Z.of_nat (length items)) |} |}, w2)
      | (Rejected error, w2) =>
          (Fulfilled fallbackSuggestions,
           console_error "Error in getOptimizedRouteSuggestions:" error w2)
      end
  | Fulfilled (DataOther _) =>
      (Fulfilled fallbackSuggestions,
       console_error "Error in getOptimizedRouteSuggestions:"
         TypeError w1)
  | Rejected error =>
      (Fulfilled fallbackSuggestions,
       console_error "Error in getOptimizedRouteSuggestions:" error w1)
  end.

(** The callback of [recommendations.map] in [getSafetyFocusedRoutes]. *)
Definition safetyRoute (rec : Recommendation) (w : World)
    : SafetyRoute * World :=
  let '(score, w1) := random_below_plus 30 70 w in
  let '(time, w2) := random_below_plus 20 25 w1 in
  ({| s_id := rec_id rec;
      s_name := "Safety Route: " +:+ rec_type rec;
      s_description := rec_message rec;
      s_safetyScore := score;
      s_estimatedTime := time |}, w2).

Definition fallbackSafetyRoutes : list SafetyRoute :=
  [ {| s_id := VString "safety-fallback";
       s_name := "Safety Fallback Route";
       s_description := VString "API error - using fallback safety route";
       s_safetyScore := of_Z 80;
       s_estimatedTime := of_Z 30 |} ].

(** [getSafetyFocusedRoutes(startLocation, endLocation)] *)
Definition getSafetyFocusedRoutes (startLocation endLocation : Any)
    (response : Settled Payload) (w : World)
    : Settled (list SafetyRoute) * World :=
  let '(recommendations, w1) := getRecommendations response w in
  match recommendations with
  | Fulfilled (DataArray items) =>
      match array_map_try (onItem safetyRoute) items w1 with
      | (Fulfilled routes, w2) => (Fulfilled routes, w2)
      | (Rejected error, w2) =>
          (Fulfilled fallbackSafetyRoutes,
           console_error "Error in getSafetyFocusedRoutes:" error w2)
      end
  | Fulfilled (DataOther _) =>
      (Fulfilled fallbackSafetyRoutes,
       console_error "Error in getSafetyFocusedRoutes:"
         TypeError w1)
  | Rejected error =>
      (Fulfilled fallbackSafetyRoutes,
       console_error "Error in getSafetyFocusedRoutes:" error w1)
  end.

(** The safety scores of a settled answer, in order. *)
Definition scoresOf (r : Settled Suggestions) : list number :=
  match r with
  | Fulfilled s => safetyScore <$> optimizedRoutes s
  | Rejected _ => []
  end.

Definition safetyScoresOf (r : Settled (list SafetyRoute)) : list number :=
  match r with
  | Fulfilled routes => s_safetyScore <$> routes
  | Rejected _ => []
  end.

End AiRouteOptimizer.

(** ** The routing core (specification, sections 3 and 4)

    The planner, the scorer and the monitor run in the backend behind
    [/api/smart-routing]; the frontend only calls them.  Their definitions
    below are modelled from the specification. *)

Module Core.

Local Open Scope Q_scope.

(** *** Data model (section 3) *)

(** Modelled from the spec: the Coordinate value type, in degrees; the
    backend code is missing. *)
Record Coordinate : Type := { latitude : Q; longitude : Q }.

(** Modelled from the spec: the range check behind [InvalidCoordinate]
    (latitude within -90..90, longitude within -180..180). *)
Definition validCoordinate (c : Coordinate) : bool :=
  Qle_bool (-90) (latitude c) && Qle_bool (latitude c) 90 &&
  Qle_bool (-180) (longitude c) && Qle_bool (longitude c) 180.

Inductive Category : Type := hostile_contact | hazard | obstruction | unknown.

Inductive Severity : Type := low | medium | high.

(** Modelled from the spec: the ThreatReport record of the missing backend. *)
Record ThreatReport : Type := {
  threatId : nat;
  location : Coordinate;
  category : Category;
  severity : Severity;
  reportedAt : Z;
  reporterId : string
}.

(** Modelled from the spec: the TerrainCell record of the missing backend. *)
Record TerrainCell : Type := {
  cellId : nat;
  baseTraversalCost : Q;
  visibilityExposure : Q;
  coverAvailability : Q
}.

Inductive TerrainProfile : Type := urban | rural | desert.

(** Modelled from the spec: a waypoint with its adjacency list of
    (neighbour id, base distance) pairs. *)
Record GraphNode : Type := {
  nodeId : nat;
  position : Coordinate;
  adjacency : list (nat * Q)
}.

Inductive RouteStatus : Type := active | superseded | completed | cancelled.

(** Modelled from the spec: the Route record of the missing backend. *)
Record Route : Type := {
  routeId : nat;
  path : list Coordinate;
  totalDistance : Q;
  safetyScore : Q;
  createdAt : Z;
  status : RouteStatus;
  supersedesRouteId : option nat
}.

(** Section 7, the error taxonomy. *)
Inductive ErrorKind : Type :=
| InvalidCoordinate
| UnreachableLocation
| NoPathFound
| OutOfCoverageArea
| PlanningTimeout
| UnknownRoute
| UnknownThreat.

Inductive Result (A : Type) : Type :=
| Ok (a : A)
| Err (e : ErrorKind).

Arguments Ok {A} a.
Arguments Err {A} e.

(** Modelled from the spec: the tunable constants named in sections 3 and 4
    (safety-margin radius, time to live of a report, the factor [k] of the
    safety contribution, the two terrain weights, the flap-avoidance delta,
    the snap tolerance, the fallback terrain cell, and the planning deadline
    counted in node expansions). *)
Record Config : Type := {
  margin : Q;
  ttl : Z;
  k : Q;
  visibilityWeight : Q;
  coverWeight : Q;
  delta : Q;
  snapTolerance : Q;
  defaultCell : TerrainCell;
  deadline : nat
}.

(** Modelled from the spec: the state of GeoIndex, the threat reports in
    ingestion order and the terrain samples of each profile. *)
Record GeoIndex : Type := {
  threats : list ThreatReport;
  terrain : TerrainProfile -> list (Coordinate * TerrainCell)
}.

Definition sumQ (l : list Q) : Q := fold_right Qplus 0 l.

Definition minQ (d : Q) (l : list Q) : Q := fold_right Qmin d l.

(** The consecutive pairs of a path. *)
Fixpoint segments (p : list Coordinate) : list (Coordinate * Coordinate) :=
  match p with
  | a :: (b :: _) as rest => (a, b) :: segments rest
  | _ => []
  end.

Section WithDistance.

(** The great-circle (haversine) distance between two coordinates.  It is
    transcendental, so it is a parameter of the model; the theorems state
    which of its properties they use. *)
Variable haversine : Coordinate -> Coordinate -> Q.

(** *** GeoIndex (section 4.1) *)

(** Modelled from the spec: a report is live until its time to live has
    passed; expired reports stay in the index and are skipped by queries. *)
Definition live (cfg : Config) (now : Z) (t : ThreatReport) : bool :=
  (now <? reportedAt t + ttl cfg)%Z.

(** Modelled from the spec: [GeoIndex.ingestThreat(report) -> ThreatId],
    failing with [InvalidCoordinate]; the id is assigned on ingestion. *)
Definition ingestThreat (idx : GeoIndex) (report : ThreatReport)
    : Result (nat * GeoIndex) :=
  if validCoordinate (location report) then
    let tid := length (threats idx) in
    Ok (tid,
        {| threats := threats idx ++
             [ {| threatId := tid; location := location report;
                  category := category report; severity := severity report;
                  reportedAt := reportedAt report;
                  reporterId := reporterId report |} ];
           terrain := terrain idx |})
  else Err InvalidCoordinate.

(** Modelled from the spec: [threatsNear(center, radius)], the live reports
    within [radius] of [center]. *)
Definition threatsNear (cfg : Config) (idx : GeoIndex) (now : Z)
    (center : Coordinate) (radius : Q) : list ThreatReport :=
  List.filter (fun t => live cfg now t && Qle_bool (haversine (location t) center) radius)
         (threats idx).

(** Modelled from the spec: [terrainAt(coordinate)], the cell of the nearest
    sample, failing with [OutOfCoverageArea] when the profile has no data. *)
Definition terrainAt (idx : GeoIndex) (profile : TerrainProfile)
    (c : Coordinate) : Result TerrainCell :=
  match terrain idx profile with
  | [] => Err OutOfCoverageArea
  | first :: rest =>
      Ok (snd (fold_left
                 (fun best s =>
                    if Qlt_le_dec (haversine c (fst s)) (haversine c (fst best))
                    then s else best)
                 rest first))
  end.

(** *** SafetyScorer (section 4.2) *)

Definition baseDistance (from to : Coordinate) : Q := haversine from to.

Definition severityWeight (s : Severity) : Q :=
  match s with
  | low => 1
  | medium => 3
  | high => 8
  end.

(** Modelled from the spec: the distance from a threat to a segment, taken
    through the end points of the segment, as section 4.4 measures the
    distance to "any point on the route's path" (a sequence of coordinates). *)
Definition segmentDistance (t : ThreatReport) (from to : Coordinate) : Q :=
  Qmin (haversine (location t) from) (haversine (location t) to).

(** Modelled from the spec: the live reports within the safety-margin radius
    of the segment, the threats that count for its score. *)
Definition nearbyThreats (cfg : Config) (idx : GeoIndex) (now : Z)
    (from to : Coordinate) : list ThreatReport :=
  List.filter (fun t => live cfg now t &&
                   Qle_bool (segmentDistance t from to) (margin cfg))
         (threats idx).

(** Modelled from the spec: the decayed sum over the nearby threats, each
    contributing [severityWeight(severity) * (1 - distance/margin)]. *)
Definition threatPenalty (cfg : Config) (idx : GeoIndex) (now : Z)
    (from to : Coordinate) : Q :=
  sumQ (map (fun t => severityWeight (severity t) *
                      (1 - segmentDistance t from to / margin cfg))
            (nearbyThreats cfg idx now from to)).

(** Modelled from the spec: the cell used for a coordinate, the nearest
    sample or, outside the covered area, the configured default cell
    (section 7, [OutOfCoverageArea]). *)
Definition cellAt (cfg : Config) (idx : GeoIndex) (profile : TerrainProfile)
    (c : Coordinate) : TerrainCell :=
  match terrainAt idx profile c with
  | Ok cell => cell
  | Err _ => defaultCell cfg
  end.

Definition cellPenalty (cfg : Config) (cell : TerrainCell) : Q :=
  visibilityWeight cfg * visibilityExposure cell +
  coverWeight cfg * (1 - coverAvailability cell).

(** Modelled from the spec: the weighted sum of visibility exposure and
    inverse cover availability over the cells along the segment. *)
Definition terrainPenalty (cfg : Config) (idx : GeoIndex)
    (profile : TerrainProfile) (from to : Coordinate) : Q :=
  sumQ (map (cellPenalty cfg)
            [cellAt cfg idx profile from; cellAt cfg idx profile to]).

Record SegmentScore : Type := { cost : Q; safetyContribution : Q }.

(** Modelled from the spec: [scoreSegment(from, to) -> {cost,
    safetyContribution}], a function of the current index, the terrain data
    and the time of the scoring pass. *)
Definition scoreSegment (cfg : Config) (idx : GeoIndex) (now : Z)
    (profile : TerrainProfile) (from to : Coordinate) : SegmentScore :=
  let threat := threatPenalty cfg idx now from to in
  {| cost := baseDistance from to
             * (1 + terrainPenalty cfg idx profile from to)
             * (1 + threat);
     safetyContribution := 100 - Qmin 100 (threat * k cfg) |}.

(** The contribution of one threat as the specification words it: linear
    falloff inside the margin, zero beyond it. *)
Definition threatContribution (cfg : Config) (distance : Q) (s : Severity) : Q :=
  if Qle_bool distance (margin cfg)
  then severityWeight s * (1 - distance / margin cfg)
  else 0.

(** Modelled from the spec: the safety score of a route is the minimum
    segment contribution along its path (100 when there is no segment). *)
Definition routeSafetyScore (cfg : Config) (idx : GeoIndex) (now : Z)
    (profile : TerrainProfile) (p : list Coordinate) : Q :=
  minQ 100 (map (fun s => safetyContribution
                            (scoreSegment cfg idx now profile (fst s) (snd s)))
                (segments p)).

Definition pathDistance (p : list Coordinate) : Q :=
  sumQ (map (fun s => baseDistance (fst s) (snd s)) (segments p)).

Definition pathCost (cfg : Config) (idx : GeoIndex) (now : Z)
    (profile : TerrainProfile) (p : list Coordinate) : Q :=
  sumQ (map (fun s => cost (scoreSegment cfg idx now profile (fst s) (snd s)))
            (segments p)).



Definition validConfig (cfg : Config) : bool :=
  negb (Qle_bool (margin cfg) 0) &&
  Qle_bool 0 (visibilityWeight cfg) && Qle_bool 0 (coverWeight cfg) &&
  Qle_bool 0 (k cfg).

(** *** RoutePlanner (section 4.3) *)

Definition nodeAt (g : list GraphNode) (n : nat) : option GraphNode :=
  find (fun v => nodeId v =? n)%nat g.

(** Modelled from the spec: snapping a coordinate to the graph, the nearest
    node if it is within the snap tolerance. *)
Definition snap (cfg : Config) (g : list GraphNode) (c : Coordinate)
    : option GraphNode :=
  match g with
  | [] => None
  | first :: rest =>
      let best :=
        fold_left
          (fun best v =>
             if Qlt_le_dec (haversine c (position v)) (haversine c (position best))
             then v else best)
          rest first in
      if Qle_bool (haversine c (position best)) (snapTolerance cfg)
      then Some best else None
  end.

(** Modelled from the spec: the state of the A* search of the missing
    planner, the open set, the accumulated cost and the accumulated threat
    penalty of the best known path to each node, the parent pointers, and
    the closed set. *)
Record Search : Type := {
  openSet : list nat;
  gScore : gmap nat Q;
  threatSoFar : gmap nat Q;
  parent : gmap nat nat;
  closedSet : gset nat
}.

Definition scoreOf (m : gmap nat Q) (n : nat) : Q := default 0 (m !! n).

(** Modelled from the spec: the heuristic of the A* search, the haversine
    distance from the candidate node to the goal. *)
Definition heuristic (g : list GraphNode) (goal : GraphNode) (n : nat) : Q :=
  match nodeAt g n with
  | Some v => haversine (position v) (position goal)
  | None => 0
  end.

(** Modelled from the spec: the f-score the search orders the open set by,
    the accumulated cost plus the heuristic. *)
Definition fScore (g : list GraphNode) (goal : GraphNode) (s : Search)
    (n : nat) : Q :=
  scoreOf (gScore s) n + heuristic g goal n.

(** Modelled from the spec: the order of expansion, lower f first, on equal
    f the lower accumulated threat penalty, then the lower node id. *)
Definition preferred (g : list GraphNode) (goal : GraphNode) (s : Search)
    (a b : nat) : bool :=
  match fScore g goal s a ?= fScore g goal s b with
  | Lt => true
  | Gt => false
  | Eq =>
      match scoreOf (threatSoFar s) a ?= scoreOf (threatSoFar s) b with
      | Lt => true
      | Gt => false
      | Eq => (a <=? b)%nat
      end
  end.

Definition pickBest (g : list GraphNode) (goal : GraphNode) (s : Search)
    : option nat :=
  match openSet s with
  | [] => None
  | n :: rest =>
      Some (fold_left
              (fun best c => if preferred g goal s c best then c else best)
              rest n)
  end.

(** One outgoing edge of the expanded node. *)
Definition relax (cfg : Config) (g : list GraphNode) (idx : GeoIndex)
    (now : Z) (profile : TerrainProfile) (cur : GraphNode)
    (s : Search) (edge : nat * Q) : Search :=
  let nb := fst edge in
  if decide (nb ∈ closedSet s) then s
  else
    match nodeAt g nb with
    | None => s
    | Some v =>
        let tentative :=
          scoreOf (gScore s) (nodeId cur) +
          cost (scoreSegment cfg idx now profile (position cur) (position v)) in
        let improves :=
          match gScore s !! nb with
          | None => true
          | Some old => if Qlt_le_dec tentative old then true else false
          end in
        if improves then
          {| openSet := if existsb (Nat.eqb nb) (openSet s)
                        then openSet s else openSet s ++ [nb];
             gScore := <[nb := tentative]> (gScore s);
             threatSoFar :=
               <[nb := scoreOf (threatSoFar s) (nodeId cur) +
                       threatPenalty cfg idx now (position cur) (position v)]>
                 (threatSoFar s);
             parent := <[nb := nodeId cur]> (parent s);
             closedSet := closedSet s |}
        else s
    end.

Definition expand (cfg : Config) (g : list GraphNode) (idx : GeoIndex)
    (now : Z) (profile : TerrainProfile) (cur : GraphNode) (s : Search)
    : Search :=
  fold_left (relax cfg g idx now profile cur) (adjacency cur)
    {| openSet := List.filter (fun n => negb (n =? nodeId cur)%nat) (openSet s);
       gScore := gScore s;
       threatSoFar := threatSoFar s;
       parent := parent s;
       closedSet := {[ nodeId cur ]} ∪ closedSet s |}.

(** Walk the parent pointers from the goal back to the start. *)
Fixpoint walkBack (parents : gmap nat nat) (fuel : nat) (n : nat)
    (acc : list nat) : list nat :=
  match fuel with
  | O => n :: acc
  | S fuel' =>
      match parents !! n with
      | None => n :: acc
      | Some p => walkBack parents fuel' p (n :: acc)
      end
  end.

(** Modelled from the spec: the A* loop of the missing planner.  Each round
    expands one node; an empty open set is [NoPathFound], and running out of
    rounds is the planning deadline ([PlanningTimeout]). *)
Fixpoint search (cfg : Config) (g : list GraphNode) (idx : GeoIndex)
    (now : Z) (profile : TerrainProfile) (goal : GraphNode)
    (fuel : nat) (s : Search) : Result (list nat) :=
  match fuel with
  | O => Err PlanningTimeout
  | S fuel' =>
      match pickBest g goal s with
      | None => Err NoPathFound
      | Some cur =>
          if (cur =? nodeId goal)%nat
          then Ok (walkBack (parent s) (length g) cur [])
          else
            match nodeAt g cur with
            | None => Err NoPathFound
            | Some v =>
                search cfg g idx now profile goal fuel'
                  (expand cfg g idx now profile v s)
            end
      end
  end.

Definition initialSearch (start : GraphNode) : Search :=
  {| openSet := [nodeId start];
     gScore := {[ nodeId start := 0 ]};
     threatSoFar := {[ nodeId start := 0 ]};
     parent := ∅;
     closedSet := ∅ |}.

(** The coordinates of the nodes of a path. *)
Fixpoint positionsOf (g : list GraphNode) (ids : list nat) : list Coordinate :=
  match ids with
  | [] => []
  | n :: rest =>
      match nodeAt g n with
      | Some v => position v :: positionsOf g rest
      | None => positionsOf g rest
      end
  end.

(** Modelled from the spec: [start == end], the equality of two
    coordinates. *)
Definition sameCoordinate (a b : Coordinate) : bool :=
  Qeq_bool (latitude a) (latitude b) && Qeq_bool (longitude a) (longitude b).

(** Modelled from the spec: the route record assembled for a path, scored
    as in section 4.2.  [rid] is the id the new route receives. *)
Definition routeOf (cfg : Config) (idx : GeoIndex) (now : Z) (rid : nat)
    (profile : TerrainProfile) (p : list Coordinate) : Route :=
  {| routeId := rid;
     path := p;
     totalDistance := pathDistance p;
     safetyScore := routeSafetyScore cfg idx now profile p;
     createdAt := now;
     status := active;
     supersedesRouteId := None |}.

(** Modelled from the spec: [planRoute(start, end, terrainProfile) -> Route].
    Out-of-range input is rejected first (section 7: before any state
    change).  The edge case "start == end returns a zero-length Route" is
    stated in section 4.3 without a condition, so it is taken next, for
    every valid input, and the route is the single point.  Otherwise both
    ends are snapped to the graph and A* runs; the route is assembled from
    the parent pointers. *)
Definition planRoute (cfg : Config) (g : list GraphNode) (idx : GeoIndex)
    (now : Z) (rid : nat) (start finish : Coordinate)
    (profile : TerrainProfile) : Result Route :=
  if negb (validCoordinate start && validCoordinate finish)
  then Err InvalidCoordinate
  else if sameCoordinate start finish
  then Ok (routeOf cfg idx now rid profile [start])
  else
    match snap cfg g start, snap cfg g finish with
    | Some s, Some e =>
        match search cfg g idx now profile e (S (deadline cfg)) (initialSearch s) with
        | Ok ids => Ok (routeOf cfg idx now rid profile (positionsOf g ids))
        | Err e => Err e
        end
    | _, _ => Err UnreachableLocation
    end.

(** *** RouteMonitor (section 4.4) and FeedbackStore (section 4.5) *)

(** Modelled from the spec: what the monitor keeps for a route, the route
    itself, the logical journey it belongs to, the terrain profile it was
    planned with and the last known position of the traveler, if tracked. *)
Record Entry : Type := {
  route : Route;
  journey : nat;
  terrainProfile : TerrainProfile;
  travelerAt : option Coordinate
}.

Record Feedback : Type := { aboutRoute : nat; rating : nat; comments : string }.

Inductive Event : Type := RouteUpdated (old new : nat).

(** Modelled from the spec: the state owned by RouteMonitor (with the
    GeoIndex and the FeedbackStore it works with): every route ever issued,
    the ids to hand out next, the update events emitted, the replans invoked
    (from, to), the planning failures logged, and the feedback received. *)
Record Monitor : Type := {
  geo : GeoIndex;
  entries : list Entry;
  nextRouteId : nat;
  nextJourney : nat;
  events : list Event;
  replans : list (Coordinate * Coordinate);
  failures : list (nat * ErrorKind);
  feedbacks : list Feedback
}.

Definition initialMonitor (idx : GeoIndex) : Monitor :=
  {| geo := idx; entries := []; nextRouteId := 0; nextJourney := 0;
     events := []; replans := []; failures := []; feedbacks := [] |}.

Definition isActive (e : Entry) : bool :=
  match status (route e) with
  | active => true
  | _ => false
  end.

(** [GET route(routeId)] *)
Definition lookupEntry (rid : nat) (l : list Entry) : option Entry :=
  find (fun e => routeId (route e) =? rid)%nat l.

(** The number of active routes of a journey. *)
Definition activeCount (j : nat) (l : list Entry) : nat :=
  length (List.filter (fun e => isActive e && (journey e =? j)%nat) l).

Definition withStatus (st : RouteStatus) (e : Entry) : Entry :=
  {| route := {| routeId := routeId (route e);
                 path := path (route e);
                 totalDistance := totalDistance (route e);
                 safetyScore := safetyScore (route e);
                 createdAt := createdAt (route e);
                 status := st;
                 supersedesRouteId := supersedesRouteId (route e) |};
     journey := journey e;
     terrainProfile := terrainProfile e;
     travelerAt := travelerAt e |}.

(** Modelled from the spec: the state machine of section 4.4; the only
    transitions leave [active]. *)
Definition setStatus (rid : nat) (st : RouteStatus) (l : list Entry)
    : list Entry :=
  map (fun e => if (routeId (route e) =? rid)%nat && isActive e
                then withStatus st e else e) l.

(** The minimum distance from a coordinate to the points of a path. *)
Definition minDistance (c : Coordinate) (p : list Coordinate) : option Q :=
  match p with
  | [] => None
  | x :: xs => Some (minQ (haversine c x) (map (haversine c) xs))
  end.

Definition atLeastMedium (s : Severity) : bool :=
  match s with
  | low => false
  | medium | high => true
  end.

(** Modelled from the spec: an active route is dirty when the new threat is
    within the safety margin of its path and its severity is at least
    medium. *)
Definition threatens (cfg : Config) (t : ThreatReport) (e : Entry) : bool :=
  isActive e &&
  match minDistance (location t) (path (route e)) with
  | Some d => Qle_bool d (margin cfg)
  | None => false
  end &&
  atLeastMedium (severity t).

Definition dirtySet (cfg : Config) (t : ThreatReport) (l : list Entry)
    : list nat :=
  map (fun e => routeId (route e)) (List.filter (threatens cfg t) l).

(** Where a replan starts and ends: the last known position of the traveler
    (the original start if untracked) and the original end. *)
Definition endpoints (e : Entry) : option (Coordinate * Coordinate) :=
  match travelerAt e, path (route e) with
  | Some c, x :: xs => Some (c, List.last xs x)
  | None, x :: xs => Some (x, List.last xs x)
  | _, [] => None
  end.

(** Modelled from the spec: the replan of one dirty route.  The planner is
    invoked; a failure is logged and the route stays in force; the new route
    replaces the old one only if its safety score beats the score of the
    existing path by more than the flap-avoidance delta. *)
Definition replan (cfg : Config) (g : list GraphNode) (now : Z)
    (m : Monitor) (rid : nat) : Monitor :=
  match lookupEntry rid (entries m) with
  | None => m
  | Some e =>
      if isActive e then
        match endpoints e with
        | None => m
        | Some (from, to) =>
            let invoked := replans m ++ [(from, to)] in
            match planRoute cfg g (geo m) now (nextRouteId m) from to
                    (terrainProfile e) with
            | Err err =>
                {| geo := geo m; entries := entries m;
                   nextRouteId := nextRouteId m; nextJourney := nextJourney m;
                   events := events m; replans := invoked;
                   failures := failures m ++ [(rid, err)];
                   feedbacks := feedbacks m |}
            | Ok r =>
                let current :=
                  routeSafetyScore cfg (geo m) now (terrainProfile e)
                    (path (route e)) in
                if Qlt_le_dec (current + delta cfg) (safetyScore r) then
                  {| geo := geo m;
                     entries :=
                       setStatus rid superseded (entries m) ++
                       [ {| route :=
                              {| routeId := nextRouteId m;
                                 path := path r;
                                 totalDistance := totalDistance r;
                                 safetyScore := safetyScore r;
                                 createdAt := createdAt r;
                                 status := active;
                                 supersedesRouteId := Some rid |};
                            journey := journey e;
                            terrainProfile := terrainProfile e;
                            travelerAt := travelerAt e |} ];
                     nextRouteId := S (nextRouteId m);
                     nextJourney := nextJourney m;
                     events := events m ++ [RouteUpdated rid (nextRouteId m)];
                     replans := invoked;
                     failures := failures m;
                     feedbacks := feedbacks m |}
                else
                  {| geo := geo m; entries := entries m;
                     nextRouteId := nextRouteId m; nextJourney := nextJourney m;
                     events := events m; replans := invoked;
                     failures := failures m; feedbacks := feedbacks m |}
            end
        end
      else m
  end.

(** Modelled from the spec: [POST threats].  The report is validated and
    stored by GeoIndex, the dirty set is computed over the active routes and
    each dirty route is replanned in turn; the answer is the threat id with
    the ids of the dirty routes. *)
Definition ingest (cfg : Config) (g : list GraphNode) (now : Z)
    (report : ThreatReport) (m : Monitor)
    : Result (nat * list nat) * Monitor :=
  match ingestThreat (geo m) report with
  | Err e => (Err e, m)
  | Ok (tid, idx') =>
      let m1 :=
        {| geo := idx'; entries := entries m;
           nextRouteId := nextRouteId m; nextJourney := nextJourney m;
           events := events m; replans := replans m;
           failures := failures m; feedbacks := feedbacks m |} in
      let dirty := dirtySet cfg report (entries m1) in
      (Ok (tid, dirty), fold_left (replan cfg g now) dirty m1)
  end.

(** Modelled from the spec: [POST calculate]; the new route starts a new
    logical journey and is registered as active. *)
Definition calculate (cfg : Config) (g : list GraphNode) (now : Z)
    (start finish : Coordinate) (profile : TerrainProfile) (m : Monitor)
    : Result Route * Monitor :=
  match planRoute cfg g (geo m) now (nextRouteId m) start finish profile with
  | Err e => (Err e, m)
  | Ok r =>
      (Ok r,
       {| geo := geo m;
          entries := entries m ++
            [ {| route := r; journey := nextJourney m;
                 terrainProfile := profile; travelerAt := None |} ];
          nextRouteId := S (nextRouteId m);
          nextJourney := S (nextJourney m);
          events := events m; replans := replans m;
          failures := failures m; feedbacks := feedbacks m |})
  end.

(** Modelled from the spec: the external signals of section 4.4, the
    traveler arrived ([completed]) or gave up ([cancelled]).  A route that is
    not active is left as it is. *)
Definition finishRoute (rid : nat) (st : RouteStatus) (m : Monitor)
    : Result unit * Monitor :=
  match lookupEntry rid (entries m) with
  | None => (Err UnknownRoute, m)
  | Some _ =>
      (Ok tt,
       {| geo := geo m; entries := setStatus rid st (entries m);
          nextRouteId := nextRouteId m; nextJourney := nextJourney m;
          events := events m; replans := replans m;
          failures := failures m; feedbacks := feedbacks m |})
  end.

(** Modelled from the spec: the last known traveler position of section
    4.4, reported for an active route. *)
Definition reportPosition (rid : nat) (c : Coordinate) (m : Monitor)
    : Result unit * Monitor :=
  if validCoordinate c then
    match lookupEntry rid (entries m) with
    | None => (Err UnknownRoute, m)
    | Some _ =>
        (Ok tt,
         {| geo := geo m;
            entries :=
              map (fun e => if (routeId (route e) =? rid)%nat && isActive e
                            then {| route := route e; journey := journey e;
                                    terrainProfile := terrainProfile e;
                                    travelerAt := Some c |}
                            else e) (entries m);
            nextRouteId := nextRouteId m; nextJourney := nextJourney m;
            events := events m; replans := replans m;
            failures := failures m; feedbacks := feedbacks m |})
    end
  else (Err InvalidCoordinate, m).

(** Modelled from the spec: [recordFeedback(routeId, rating, comments)],
    append-only, failing with [UnknownRoute]. *)
Definition recordFeedback (rid : nat) (stars : nat) (text : string)
    (m : Monitor) : Result unit * Monitor :=
  match lookupEntry rid (entries m) with
  | None => (Err UnknownRoute, m)
  | Some _ =>
      (Ok tt,
       {| geo := geo m; entries := entries m;
          nextRouteId := nextRouteId m; nextJourney := nextJourney m;
          events := events m; replans := replans m;
          failures := failures m;
          feedbacks := feedbacks m ++
            [ {| aboutRoute := rid; rating := stars; comments := text |} ] |})
  end.

(** The operations of section 6 that change state. *)
Inductive Request : Type :=
| Calculate (start finish : Coordinate) (profile : TerrainProfile)
| ReportThreat (report : ThreatReport)
| Complete (rid : nat)
| Cancel (rid : nat)
| Position (rid : nat) (c : Coordinate)
| GiveFeedback (rid : nat) (stars : nat) (text : string).

(** One request, received at time [now]. *)
Definition step (cfg : Config) (g : list GraphNode) (m : Monitor)
    (timed : Z * Request) : Monitor :=
  let now := fst timed in
  match snd timed with
  | Calculate start finish profile =>
      snd (calculate cfg g now start finish profile m)
  | ReportThreat report => snd (ingest cfg g now report m)
  | Complete rid => snd (finishRoute rid completed m)
  | Cancel rid => snd (finishRoute rid cancelled m)
  | Position rid c => snd (reportPosition rid c m)
  | GiveFeedback rid stars text => snd (recordFeedback rid stars text m)
  end.

Definition run (cfg : Config) (g : list GraphNode)
    (requests : list (Z * Request)) (m : Monitor) : Monitor :=
  fold_left (step cfg g) requests m.

End WithDistance.

(** The same report with the same or a higher severity weight. *)
Definition escalates (t t' : ThreatReport) : Prop :=
  location t = location t' /\ reportedAt t = reportedAt t' /\
  (severityWeight (severity t) <= severityWeight (severity t'))%Q.

(** [idx'] holds the reports of [idx], some of them escalated, and possibly
    further reports. *)
Definition moreThreats (idx idx' : GeoIndex) : Prop :=
  exists l' extra,
    Forall2 escalates (threats idx) l' /\ threats idx' = l' ++ extra.

(** The invariant of the monitor: at most one active route per journey, and
    every journey in use is below the next journey number. *)
Definition monitorInvariant (m : Monitor) : Prop :=
  (forall j, (activeCount j (entries m) <= 1)%nat) /\
  (forall e, In e (entries m) -> (journey e < nextJourney m)%nat).

(** What the operations keep of a route that is no longer active. *)
Definition keepsSettled (m m' : Monitor) : Prop :=
  forall rid e, lookupEntry rid (entries m) = Some e -> isActive e = false ->
    lookupEntry rid (entries m') = Some e.

End Core.

(** ** Concrete data used by the examples *)

Module Examples.

Import Api.

(** The Number 0.5. *)
Definition half : number := S754_finite false 4503599627370496 (-53).

(** A tape of random values: 0.5 at positions 2 and 4, +0 elsewhere. *)
Definition tape (n : nat) : number :=
  if (n =? 2)%nat || (n =? 4)%nat then half else S754_zero false.

Definition world0 : World :=
  {| entropy := tape; draws := 0; console := []; reportedThreats := [] |}.

Definition recs1 : list Element :=
  [ Item {| rec_id := VNumber (of_Z 1);
            rec_type := "Safety";
            rec_message := VString "Avoid Main St" |} ].

(** The same array with a [null] in front and one behind. *)
Definition recsWithNull : list Element := Nullish :: recs1 ++ [Nullish].

Definition here : Any :=
  Obj {[ "lat" := VNumber (of_Z 34); "lng" := VNumber (of_Z (-118)) ]}.
Definition there : Any :=
  Obj {[ "lat" := VNumber (of_Z 35); "lng" := VNumber (of_Z (-117)) ]}.

(** [preferences = {}] *)
Definition noPreferences : Any := Obj ∅.

Definition threat1 : PostedThreat :=
  {| threatLocation := here;
     threatType := "enemy";
     threatSeverity := "high" |}.

End Examples.

Module CoreExamples.

Import Core.

Local Open Scope Q_scope.

(** A computable stand-in for the great-circle distance on a small patch:
    the sum of the differences in latitude and longitude, in degrees. *)
Definition flat (a b : Coordinate) : Q :=
  Qabs (latitude a - latitude b) + Qabs (longitude a - longitude b).

Definition p0 : Coordinate := {| latitude := 0; longitude := 0 |}.
Definition p1 : Coordinate := {| latitude := 0; longitude := 1 |}.
Definition p2 : Coordinate := {| latitude := 0; longitude := 2 |}.
Definition outOfRange : Coordinate := {| latitude := 200; longitude := 0 |}.
Definition offGraph : Coordinate := {| latitude := 45; longitude := 45 |}.

Definition node0 : GraphNode :=
  {| nodeId := 0; position := p0; adjacency := [(1%nat, 1)] |}.
Definition node1 : GraphNode :=
  {| nodeId := 1; position := p1; adjacency := [(0%nat, 1); (2%nat, 1)] |}.
Definition node2 : GraphNode :=
  {| nodeId := 2; position := p2; adjacency := [(1%nat, 1)] |}.

(** The three-node line graph of the scenario in section 8. *)
Definition lineGraph : list GraphNode := [node0; node1; node2].

Definition cfg0 : Config :=
  {| margin := 1; ttl := 86400; k := 10;
     visibilityWeight := 1 # 2; coverWeight := 1 # 2;
     delta := 5; snapTolerance := 1 # 10;
     defaultCell := {| cellId := 0; baseTraversalCost := 1;
                       visibilityExposure := 0; coverAvailability := 1 |};
     deadline := 100 |}.

Definition idx0 : GeoIndex := {| threats := []; terrain := fun _ => [] |}.



Definition threatAt (c : Coordinate) (s : Severity) : ThreatReport :=
  {| threatId := 0; location := c; category := hostile_contact;
     severity := s; reportedAt := 10; reporterId := "scout" |}.

(** The line graph with a detour through [q], one degree to the north. *)
Definition q : Coordinate := {| latitude := 1; longitude := 1 |}.

Definition diamondGraph : list GraphNode :=
  [ {| nodeId := 0; position := p0; adjacency := [(1%nat, 1); (3%nat, 2)] |};
    node1;
    {| nodeId := 2; position := p2; adjacency := [(1%nat, 1); (3%nat, 2)] |};
    {| nodeId := 3; position := q; adjacency := [(0%nat, 2); (2%nat, 2)] |} ].

(** The monitor after one route from [p0] to [p2] has been calculated. *)
Definition monitor1 : Monitor :=
  run flat cfg0 lineGraph [(0%Z, Calculate p0 p2 urban)] (initialMonitor idx0).

End CoreExamples.

(* ===================================================================== *)
(** * Part I, continued: the rest of the frontend                         *)
(* ===================================================================== *)

(** ** More of the language *)

(** [ToBoolean] on primitives. *)
Definition truthy (v : Value) : bool :=
  match v with
  | VUndefined | VNull => false
  | VBool b => b
  | VNumber (S754_zero _) | VNumber S754_nan => false
  | VNumber _ => true
  | VString s => negb (String.eqb s "")
  end.

(** [ToBoolean] on any argument: an object is always truthy. *)
Definition truthyAny (a : Any) : bool :=
  match a with
  | Prim v => truthy v
  | Obj _ => true
  end.

(** Reading the property [k] of a value, for a [k] that no prototype of a
    primitive defines: [undefined] and [null] throw a [TypeError], the other
    primitives give [undefined], an object gives what it holds. *)
Definition getProp (a : Any) (k : string) : Settled Value :=
  match a with
  | Prim VUndefined | Prim VNull => Rejected TypeError
  | Prim _ => Fulfilled VUndefined
  | Obj o => Fulfilled (get o k)
  end.

Section TemplateLiterals.

(** [Number::toString], the shortest decimal that reads back as the same
    Number; it is a parameter of the model. *)
Variable Number_toString : number -> string.

(** [ToString], as a template literal applies it to an interpolated value. *)
Definition ToString (a : Any) : string :=
  match a with
  | Prim VUndefined => "undefined"
  | Prim VNull => "null"
  | Prim (VBool true) => "true"
  | Prim (VBool false) => "false"
  | Prim (VNumber n) => Number_toString n
  | Prim (VString s) => s
  | Obj _ => "[object Object]"
  end.

End TemplateLiterals.

(** Exceptions pass through a sequence of evaluations. *)
#[global] Instance Settled_ret : MRet Settled := fun A a => Fulfilled a.

#[global] Instance Settled_bind : MBind Settled := fun A B f x =>
  match x with
  | Fulfilled a => f a
  | Rejected e => Rejected e
  end.

(** [undefined] and [null], the two values without properties. *)
Definition nullish (a : Any) : bool :=
  match a with
  | Prim VUndefined | Prim VNull => true
  | _ => false
  end.

(** [array.filter(p)] for a callback with effects. *)
Fixpoint array_filter {A : Type} (p : A -> World -> bool * World)
    (l : list A) (w : World) : list A * World :=
  match l with
  | [] => ([], w)
  | x :: l' =>
      let '(keep, w1) := p x w in
      let '(xs, w2) := array_filter p l' w1 in
      (if keep then x :: xs else xs, w2)
  end.

(** ** api.js: the other endpoints used by the utilities *)

Module ApiMore.

Import Api.

(** [response.data] of an endpoint that serves a list: an array, whose
    elements are primitives or objects, or anything else.  As everywhere in
    this model the properties of an object are primitives. *)
Inductive Objects : Type :=
| ObjectArray (items : list Any)
| NotAnArray (v : Any).

(** The shape shared by the wrappers of api.js: [response.data] when the
    request succeeds; otherwise one console line and the error is thrown
    again. *)
Definition request {A : Type} (line : string) (response : Settled A)
    (w : World) : Settled A * World :=
  match response with
  | Fulfilled data => (Fulfilled data, w)
  | Rejected error => (Rejected error, console_error line error w)
  end.

(** [getRouteRecommendations(routeId)] *)
Definition getRouteRecommendations (Number_toString : number -> string)
    (routeId : Any) (response : Settled Payload) (w : World)
    : Settled Payload * World :=
  request ("Error fetching recommendations for route "
           +:+ ToString Number_toString routeId +:+ ":") response w.

(** [getRecommendations(limit)], for a payload whose elements are read
    beyond id, type and message. *)
Definition getRecommendationObjects (response : Settled Objects) (w : World)
    : Settled Objects * World :=
  request "Error fetching recommendations:" response w.

(** [getAlerts(isRead)] *)
Definition getAlerts (response : Settled Objects) (w : World)
    : Settled Objects * World :=
  request "Error fetching alerts:" response w.

(** [processVoiceCommand(command)] *)
Definition processVoiceCommand (response : Settled Any) (w : World)
    : Settled Any * World :=
  request "Error processing voice command:" response w.

End ApiMore.

(** ** utils/aiRouteOptimizer.js: [analyzeRouteEfficiency] *)

Module RouteEfficiency.

Import Api ApiMore AiRouteOptimizer.

Record Efficiency : Type := {
  efficiencyScore : number;
  suggestions : list Value;
  potentialTimeSavings : number
}.

Definition fallbackEfficiency : Efficiency :=
  {| efficiencyScore := of_Z 70;
     suggestions := [VString "API error - using fallback suggestions"];
     potentialTimeSavings := of_Z 5 |}.

(** [analyzeRouteEfficiency(routeId)].  The properties of the object literal
    are evaluated in order: [efficiencyScore] is drawn before
    [routeRecommendations.map] is called, so a payload that is not an
    array, or an array that holds a [null], costs one draw before the
    [TypeError] is caught. *)
Definition analyzeRouteEfficiency (Number_toString : number -> string)
    (routeId : Any) (response : Settled Payload) (w : World)
    : Settled Efficiency * World :=
  let '(routeRecommendations, w1) :=
    getRouteRecommendations Number_toString routeId response w in
  match routeRecommendations with
  | Fulfilled (DataArray items) =>
      let '(score, w2) := random_below 100 w1 in
      match array_map_try (onItem (fun rec w' => (rec_message rec, w'))) items w2 with
      | (Fulfilled messages, w3) =>
          let '(savings, w4) := random_below 15 w3 in
          (Fulfilled {| efficiencyScore := score;
                        suggestions := messages;
                        potentialTimeSavings := savings |}, w4)
      | (Rejected error, w3) =>
          (Fulfilled fallbackEfficiency,
           console_error "Error in analyzeRouteEfficiency:" error w3)
      end
  | Fulfilled (DataOther _) =>
      let '(_, w2) := random_below 100 w1 in
      (Fulfilled fallbackEfficiency,
       console_error "Error in analyzeRouteEfficiency:" TypeError w2)
  | Rejected error =>
      (Fulfilled fallbackEfficiency,
       console_error "Error in analyzeRouteEfficiency:" error w1)
  end.

End RouteEfficiency.

(** ** components/AlertsPage.jsx: the list that is displayed *)

Module AlertsView.

Import AlertsPage.

(** [x - y] on Numbers. *)
Definition sub : number -> number -> number := SFsub prec emax.

(** The property names every object literal inherits from
    [Object.prototype]; looking one of them up in [severityOrder] gives a
    function or an object instead of [undefined]. *)
Definition inheritedNames : list string :=
  [ "constructor"; "hasOwnProperty"; "isPrototypeOf"; "propertyIsEnumerable";
    "toLocaleString"; "toString"; "valueOf"; "__proto__";
    "__defineGetter__"; "__defineSetter__";
    "__lookupGetter__"; "__lookupSetter__" ].

Definition inherited (v : Value) : bool :=
  match v with
  | VString s => existsb (String.eqb s) inheritedNames
  | _ => false
  end.

(** [(severityOrder[v] || 0)] as an operand of the subtraction, for
    [severityOrder = { High: 3, Medium: 2, Low: 1 }]: the three own keys
    give their numbers, an inherited name gives a function or an object,
    which the subtraction turns into NaN, and every other key gives
    [undefined], replaced by 0. *)
Definition severityRank (v : Value) : number :=
  match v with
  | VString s =>
      if String.eqb s "High" then of_Z 3
      else if String.eqb s "Medium" then of_Z 2
      else if String.eqb s "Low" then of_Z 1
      else if inherited v then S754_nan
      else of_Z 0
  | _ => of_Z 0
  end.

(** The same rank as an integer, for the severities that have one. *)
Definition severityLevel (v : Value) : Z :=
  match v with
  | VString s =>
      if String.eqb s "High" then 3
      else if String.eqb s "Medium" then 2
      else if String.eqb s "Low" then 1
      else 0
  | _ => 0
  end.

Section WithDates.

(** The time value of [new Date(v)], NaN for an invalid date; [Date] is a
    parameter of the model. *)
Variable Date_value : Value -> number.

(** The comparator handed to [sort]. *)
Definition compareAlerts (sortBy : string) (a b : Object) : number :=
  if String.eqb sortBy "Time"
  then sub (Date_value (get b "timestamp")) (Date_value (get a "timestamp"))
  else sub (severityRank (get b "severity")) (severityRank (get a "severity")).

(** [filterType === 'All' || alert.type === filterType] *)
Definition passes (filterType : string) (alert : Object) : bool :=
  String.eqb filterType "All" ||
  strict_equal (get alert "type") (VString filterType).

(** What [sort] makes of the comparator's answer [v]: the first argument
    goes behind the second one only if [v > 0]; NaN counts as 0. *)
Definition goesBehind (v : number) : bool := SFltb (of_Z 0) v.

(** [Array.prototype.sort] is stable, and for a comparator that is
    consistent on the elements its result is the one stable ordering,
    whatever algorithm the engine uses; it is embedded as the stable
    insertion sort.  For a comparator that is not consistent (one that
    returns NaN for some pairs only) the language leaves the order to the
    engine, and the insertion sort need not give the engine's order: every
    statement about the displayed list is made under [consistentOn] or
    under a condition that implies it, where a list in order that is
    stable is unique (lemma [sort_is_the_stable_order]). *)
Fixpoint insertSorted {A : Type} (cmp : A -> A -> number) (x : A)
    (l : list A) : list A :=
  match l with
  | [] => [x]
  | y :: l' => if goesBehind (cmp x y) then y :: insertSorted cmp x l' else x :: l
  end.

Definition sort {A : Type} (cmp : A -> A -> number) (l : list A) : list A :=
  fold_right (insertSorted cmp) [] l.

(** [filteredAndSortedAlerts] *)
Definition filteredAndSortedAlerts (st : State) : list Object :=
  sort (compareAlerts (sortBy st))
       (List.filter (passes (filterType st)) (alerts st)).

End WithDates.

(** [!alert.read]: the "Mark as Read" button is rendered. *)
Definition showsButton (alert : Object) : bool :=
  negb (truthy (get alert "read")).

End AlertsView.

(** ** utils/aiPredictiveAnalytics.js *)

Module AiPredictiveAnalytics.

Import ApiMore.

Record Issue : Type := {
  issue_id : Value;
  issue_type : Value;
  issue_severity : Value;
  issue_description : Value;
  issue_location : Any;
  probability : number
}.

Record Prediction : Type := {
  potentialIssues : list Issue;
  safetyScore : number;
  timeOfDay : Any
}.

(** The callback of [alerts.map] in [predictSafetyIssues]: the five
    properties are read, then one random value is drawn. *)
Definition potentialIssue (alert : Any) (w : World) : Settled Issue * World :=
  match
    id ← getProp alert "id";
    type ← getProp alert "type";
    severity ← getProp alert "severity";
    description ← getProp alert "message";
    location ← getProp alert "location";
    mret (id, type, severity, description, location)
  with
  | Rejected e => (Rejected e, w)
  | Fulfilled (id, type, severity, description, location) =>
      let '(p, w1) := AiRouteOptimizer.random_below 100 w in
      (Fulfilled {| issue_id := id;
                    issue_type := type;
                    issue_severity := severity;
                    issue_description := description;
                    issue_location := Prim location;
                    probability := p |}, w1)
  end.

(** [timeOfDay || 'day'] *)
Definition orDay (timeOfDay : Any) : Any :=
  if truthyAny timeOfDay then timeOfDay else Prim (VString "day").

Definition fallbackPrediction (currentLocation timeOfDay : Any) : Prediction :=
  {| potentialIssues :=
       [ {| issue_id := VString "fallback-issue";
            issue_type := VString "API Error";
            issue_severity := VString "medium";
            issue_description := VString "Unable to fetch safety issues from API";
            issue_location := currentLocation;
            probability := of_Z 50 |} ];
     safetyScore := of_Z 70;
     timeOfDay := orDay timeOfDay |}.

(** [predictSafetyIssues(currentLocation, timeOfDay)]; [response] is how the
    request of [getAlerts] settles. *)
Definition predictSafetyIssues (currentLocation timeOfDay : Any)
    (response : Settled Objects) (w : World) : Settled Prediction * World :=
  let caught (error : Error) (w' : World) :=
    (Fulfilled (fallbackPrediction currentLocation timeOfDay),
     console_error "Error in predictSafetyIssues:" error w') in
  let '(alerts, w1) := getAlerts response w in
  match alerts with
  | Rejected error => caught error w1
  | Fulfilled (NotAnArray _) => caught TypeError w1
  | Fulfilled (ObjectArray items) =>
      match array_map_try potentialIssue items w1 with
      | (Rejected error, w2) => caught error w2
      | (Fulfilled issues, w2) =>
          let '(score, w3) := AiRouteOptimizer.random_below 100 w2 in
          (Fulfilled {| potentialIssues := issues;
                        safetyScore := score;
                        timeOfDay := orDay timeOfDay |}, w3)
      end
  end.

Record Incident : Type := {
  incident_id : Value;
  incident_type : Value;
  incident_date : Value;
  incident_description : Value;
  incident_severity : Value
}.

Record History : Type := {
  historicalIncidents : list Incident;
  safetyTrend : string;
  riskFactors : list string
}.

(** The literal [0.5]. *)
Definition oneHalf : number := S754_finite false 4503599627370496 (-53).

(** [Math.random() > 0.5] *)
Definition coin (w : World) : bool * World :=
  let '(r, w1) := Math_random w in (SFltb oneHalf r, w1).

(** The callback of [relevantAlerts.map]. *)
Definition historicalIncident (alert : Any) : Settled Incident :=
  id ← getProp alert "id";
  type ← getProp alert "type";
  date ← getProp alert "created_at";
  description ← getProp alert "message";
  severity ← getProp alert "severity";
  mret {| incident_id := id;
          incident_type := type;
          incident_date := date;
          incident_description := description;
          incident_severity := severity |}.

Definition fallbackHistory : History :=
  {| historicalIncidents := [];
     safetyTrend := "unknown";
     riskFactors := ["API Error - Unable to fetch historical data"] |}.

(** [analyzeLocationSafetyHistory(location)]: the filter draws one random
    value per alert and does not look at the alert; the trend is one more
    draw. *)
Definition analyzeLocationSafetyHistory (location : Any)
    (response : Settled Objects) (w : World) : Settled History * World :=
  let caught (error : Error) (w' : World) :=
    (Fulfilled fallbackHistory,
     console_error "Error in analyzeLocationSafetyHistory:" error w') in
  let '(alerts, w1) := getAlerts response w in
  match alerts with
  | Rejected error => caught error w1
  | Fulfilled (NotAnArray _) => caught TypeError w1
  | Fulfilled (ObjectArray items) =>
      let '(relevantAlerts, w2) := array_filter (fun _ => coin) items w1 in
      match array_map_try (fun alert w' => (historicalIncident alert, w'))
              relevantAlerts w2 with
      | (Rejected error, w3) => caught error w3
      | (Fulfilled incidents, w3) =>
          let '(up, w4) := coin w3 in
          (Fulfilled {| historicalIncidents := incidents;
                        safetyTrend := if up then "improving" else "declining";
                        riskFactors := ["Time of day"; "Weather conditions";
                                        "Recent incidents"] |}, w4)
      end
  end.

End AiPredictiveAnalytics.

(** ** utils/aiPredictiveAnalytics.js: [generateSafetyAdvice] *)

Module SafetyAdvice.

Import ApiMore.

Record Advice : Type := {
  advice_id : Value;
  advice_title : Value;
  advice_description : Value;
  advice_priority : Value
}.

Record SafetyAdvice : Type := {
  advice : list Advice;
  relevanceScore : number
}.

(** The source file holds three modules one after the other, each with
    its own import line; [generateSafetyAdvice] is in the first.  That
    module imports [getAlerts] and [getRecommendations] only, so the
    name [getRouteRecommendations] is bound nowhere in it and evaluating it
    throws a [ReferenceError].  [Error] has no such constructor: the console
    lines written with a [ReferenceError] are kept in a list of their own,
    each with the name that could not be resolved. *)
Record Page : Type := {
  world : World;
  unresolved : list (string * string)
}.

(** The callback of [recommendations.map]. *)
Definition adviceOf (rec : Any) : Settled Advice :=
  id ← getProp rec "id";
  title ← getProp rec "type";
  description ← getProp rec "message";
  priority ← getProp rec "priority";
  mret {| advice_id := id;
          advice_title := title;
          advice_description := description;
          advice_priority := priority |}.

Definition fallbackAdvice : SafetyAdvice :=
  {| advice :=
       [ {| advice_id := VString "fallback-advice";
            advice_title := VString "API Error";
            advice_description := VString "Unable to fetch safety advice from API";
            advice_priority := VNumber (of_Z 1) |} ];
     relevanceScore := of_Z 50 |}.

(** [generateSafetyAdvice(currentLocation, routeId = null)]; [response] is
    how the request of [getRecommendations] settles, when it is made. *)
Definition generateSafetyAdvice (currentLocation routeId : Any)
    (response : Settled Objects) (p : Page) : Settled SafetyAdvice * Page :=
  let caught (error : Error) (w' : World) :=
    (Fulfilled fallbackAdvice,
     {| world := console_error "Error in generateSafetyAdvice:" error w';
        unresolved := unresolved p |}) in
  if truthyAny routeId then
    (Fulfilled fallbackAdvice,
     {| world := world p;
        unresolved := unresolved p ++
          [("Error in generateSafetyAdvice:", "getRouteRecommendations")] |})
  else
    let '(recommendations, w1) := getRecommendationObjects response (world p) in
    match recommendations with
    | Rejected error => caught error w1
    | Fulfilled (NotAnArray _) => caught TypeError w1
    | Fulfilled (ObjectArray items) =>
        match array_map_try (fun rec w' => (adviceOf rec, w')) items w1 with
        | (Rejected error, w2) => caught error w2
        | (Fulfilled advice, w2) =>
            let '(score, w3) := AiRouteOptimizer.random_below 100 w2 in
            (Fulfilled {| advice := advice; relevanceScore := score |},
             {| world := w3; unresolved := unresolved p |})
        end
    end.

End SafetyAdvice.

(** ** utils/aiPredictiveAnalytics.js, second module: voice commands *)

Module VoiceCommands.

Import ApiMore.

Record VoiceResult : Type := {
  success : Value;
  message : Value;
  action : Value;
  data : Value
}.

(** [processVoiceInput(voiceText)]; [response] is how the request of
    [processVoiceCommand] settles. *)
Definition processVoiceInput (voiceText : Value) (response : Settled Any)
    (w : World) : Settled VoiceResult * World :=
  let '(answer, w1) := processVoiceCommand response w in
  match
    response ← answer;
    success ← getProp response "success";
    message ← getProp response "message";
    action ← getProp response "action";
    data ← getProp response "data";
    mret {| success := success; message := message;
            action := action; data := data |}
  with
  | Fulfilled result => (Fulfilled result, w1)
  | Rejected error =>
      (Fulfilled {| success := VBool false;
                    message := VString "Error processing voice command. Please try again.";
                    action := VNull;
                    data := VNull |},
       console_error "Error in processVoiceInput:" error w1)
  end.

(** [listenForVoiceCommand()]; [prompted] is what [prompt] returns: [null]
    when the dialog is cancelled, the text otherwise. *)
Definition listenForVoiceCommand (prompted : option string)
    (response : Settled Any) (w : World) : Settled VoiceResult * World :=
  let voiceText := match prompted with
                   | None => VNull
                   | Some text => VString text
                   end in
  if negb (truthy voiceText) then
    (Fulfilled {| success := VBool false;
                  message := VString "No voice input detected";
                  action := VNull;
                  data := VNull |}, w)
  else processVoiceInput voiceText response w.

End VoiceCommands.

(** ** components/ThreatResponsiveRouting.js: the routing client *)

Module ThreatResponsiveRouting.

(** What the [catch] clauses of this file can receive. *)
Inductive Thrown : Type :=
| FetchFailed (message : string)     (* the promise of [fetch] rejected *)
| HttpError (message : string)       (* [new Error(`HTTP error! status: ...`)] *)
| BodyError                          (* [response.json()] rejected *)
| PropertyOfNullish                  (* a TypeError: a property of [null] *)
| ThrownByCallback (v : Value).      (* whatever a registered callback throws *)

(** How a request settles: [fetch] rejects; the response is not [ok]; its
    body is not JSON; or the body parses to [data]. *)
Inductive Fetched : Type :=
| FetchRejects (message : string)
| NotOk (status : number)
| JsonRejects
| Json (data : Any).

Inductive Line : Type :=
| Log (text : string)                    (* [console.log(text)] *)
| LogValue (text : string) (v : Any)     (* [console.log(text, v)] *)
| LogError (text : string) (e : Thrown). (* [console.error] *)

(** A request as it is handed to [fetch]; [body] lists the properties of the
    object given to [JSON.stringify]. *)
Record Request : Type := {
  method : string;
  url : string;
  body : list (string * Any)
}.

(** A registered callback: a name to tell the calls apart, and what the
    call throws, if it throws.  A callback does not touch the client, and
    nothing outside writes its fields. *)
Record Callback : Type := {
  cb_name : nat;
  cb_throws : Any -> option Value
}.

(** An argument of [onRouteUpdate]. *)
Inductive Handler : Type :=
| Function (f : Callback)
| NotFunction (a : Any).

(** The page the client runs in: the interval timers that are live and the
    next handle [setInterval] returns, the console, the requests made so
    far, and the calls of callbacks so far. *)
Record Browser : Type := {
  nextHandle : positive;
  intervals : gset positive;
  output : list Line;
  requests : list Request;
  called : list (nat * Any)
}.

(** The fields of [ThreatResponsiveRoutingClient] that change; [apiBaseUrl]
    is '/api/smart-routing' and [routeUpdateInterval] is 10000 for good. *)
Record Client : Type := {
  activeRouteId : Value;
  routeUpdateTimer : option positive;
  onRouteUpdateCallbacks : list Callback;
  threatDetectionEnabled : Any
}.

(** [new ThreatResponsiveRoutingClient()] *)
Definition newClient : Client :=
  {| activeRouteId := VNull;
     routeUpdateTimer := None;
     onRouteUpdateCallbacks := [];
     threatDetectionEnabled := Prim (VBool true) |}.

(** A page on which nothing has happened yet. *)
Definition blankPage : Browser :=
  {| nextHandle := 1%positive; intervals := ∅; output := [];
     requests := []; called := [] |}.

Definition console_log (text : string) (b : Browser) : Browser :=
  {| nextHandle := nextHandle b; intervals := intervals b;
     output := output b ++ [Log text];
     requests := requests b; called := called b |}.

Definition console_log_value (text : string) (v : Any) (b : Browser) : Browser :=
  {| nextHandle := nextHandle b; intervals := intervals b;
     output := output b ++ [LogValue text v];
     requests := requests b; called := called b |}.

Definition console_err (text : string) (e : Thrown) (b : Browser) : Browser :=
  {| nextHandle := nextHandle b; intervals := intervals b;
     output := output b ++ [LogError text e];
     requests := requests b; called := called b |}.

Definition fetch (r : Request) (b : Browser) : Browser :=
  {| nextHandle := nextHandle b; intervals := intervals b;
     output := output b;
     requests := requests b ++ [r]; called := called b |}.

(** [setInterval(...)]: a fresh handle, which is a positive integer. *)
Definition setInterval (b : Browser) : positive * Browser :=
  (nextHandle b,
   {| nextHandle := Pos.succ (nextHandle b);
      intervals := {[ nextHandle b ]} ∪ intervals b;
      output := output b; requests := requests b; called := called b |}).

Definition clearInterval (h : positive) (b : Browser) : Browser :=
  {| nextHandle := nextHandle b; intervals := intervals b ∖ {[ h ]};
     output := output b; requests := requests b; called := called b |}.

Definition call (f : Callback) (argument : Any) (b : Browser) : Browser :=
  {| nextHandle := nextHandle b; intervals := intervals b;
     output := output b; requests := requests b;
     called := called b ++ [(cb_name f, argument)] |}.

Definition withActiveRouteId (id : Value) (c : Client) : Client :=
  {| activeRouteId := id;
     routeUpdateTimer := routeUpdateTimer c;
     onRouteUpdateCallbacks := onRouteUpdateCallbacks c;
     threatDetectionEnabled := threatDetectionEnabled c |}.

Definition withRouteUpdateTimer (t : option positive) (c : Client) : Client :=
  {| activeRouteId := activeRouteId c;
     routeUpdateTimer := t;
     onRouteUpdateCallbacks := onRouteUpdateCallbacks c;
     threatDetectionEnabled := threatDetectionEnabled c |}.

Definition withThreatDetectionEnabled (enabled : Any) (c : Client) : Client :=
  {| activeRouteId := activeRouteId c;
     routeUpdateTimer := routeUpdateTimer c;
     onRouteUpdateCallbacks := onRouteUpdateCallbacks c;
     threatDetectionEnabled := enabled |}.

(** A default parameter: [undefined] is replaced. *)
Definition orDefault (a : Any) (d : string) : Any :=
  match a with
  | Prim VUndefined => Prim (VString d)
  | _ => a
  end.

Section WithNumberToString.

Variable Number_toString : number -> string.

(** The common part of the asynchronous methods, after the request has
    settled: the error that is thrown, or the parsed body. *)
Definition parsed (f : Fetched) : Thrown + Any :=
  match f with
  | FetchRejects message => inl (FetchFailed message)
  | NotOk status =>
      inl (HttpError ("HTTP error! status: " +:+ Number_toString status))
  | JsonRejects => inl BodyError
  | Json data => inr data
  end.

(** [startRouteUpdateMonitoring()] *)
Definition startRouteUpdateMonitoring (c : Client) (b : Browser)
    : Client * Browser :=
  let b1 := match routeUpdateTimer c with
            | Some h => clearInterval h b
            | None => b
            end in
  let '(h, b2) := setInterval b1 in
  (withRouteUpdateTimer (Some h) c,
   console_log "Started route update monitoring" b2).

(** [stopRouteUpdateMonitoring()] *)
Definition stopRouteUpdateMonitoring (c : Client) (b : Browser)
    : Client * Browser :=
  let '(c1, b1) := match routeUpdateTimer c with
                   | Some h => (withRouteUpdateTimer None c, clearInterval h b)
                   | None => (c, b)
                   end in
  (c1, console_log "Stopped route update monitoring" b1).

(** [setThreatDetectionEnabled(enabled)] *)
Definition setThreatDetectionEnabled (enabled : Any) (c : Client) (b : Browser)
    : Client * Browser :=
  let c1 := withThreatDetectionEnabled enabled c in
  if truthyAny enabled then
    let b1 := console_log "Threat detection enabled" b in
    if truthy (activeRouteId c1) && negb (bool_decide (is_Some (routeUpdateTimer c1)))
    then startRouteUpdateMonitoring c1 b1
    else (c1, b1)
  else stopRouteUpdateMonitoring c1 (console_log "Threat detection disabled" b).

(** [onRouteUpdate(callback)] *)
Definition onRouteUpdate (callback : Handler) (c : Client) : Client :=
  match callback with
  | Function f =>
      {| activeRouteId := activeRouteId c;
         routeUpdateTimer := routeUpdateTimer c;
         onRouteUpdateCallbacks := onRouteUpdateCallbacks c ++ [f];
         threatDetectionEnabled := threatDetectionEnabled c |}
  | NotFunction _ => c
  end.

(** [notifyRouteUpdate(updatedRoute)] *)
Definition notifyRouteUpdate (updatedRoute : Any) (c : Client) (b : Browser)
    : Browser :=
  fold_left
    (fun b' callback =>
       let b1 := call callback updatedRoute b' in
       match cb_throws callback updatedRoute with
       | Some v => console_err "Error in route update callback:" (ThrownByCallback v) b1
       | None => b1
       end)
    (onRouteUpdateCallbacks c) b.

(** [getRoute(routeId)] up to its first [await]. *)
Definition getRoute (routeId : Any) (b : Browser) : Browser :=
  fetch {| method := "GET";
           url := "/api/smart-routing/routes/" +:+ ToString Number_toString routeId;
           body := [] |} b.

(** [getRoute(routeId)], once its request has settled. *)
Definition getRoute_settles (routeId : Any) (f : Fetched) (b : Browser)
    : (Thrown + Any) * Browser :=
  match parsed f with
  | inl error =>
      (inl error,
       console_err ("Error getting route "
                    +:+ ToString Number_toString routeId +:+ ":") error b)
  | inr data => (inr data, b)
  end.

(** [getAllRoutes()] *)
Definition getAllRoutes (b : Browser) : Browser :=
  fetch {| method := "GET"; url := "/api/smart-routing/routes"; body := [] |} b.

Definition getAllRoutes_settles (f : Fetched) (b : Browser)
    : (Thrown + Any) * Browser :=
  match parsed f with
  | inl error => (inl error, console_err "Error getting all routes:" error b)
  | inr data => (inr data, b)
  end.

(** [getModelInfo()] *)
Definition getModelInfo (b : Browser) : Browser :=
  fetch {| method := "GET"; url := "/api/smart-routing/model-info"; body := [] |} b.

Definition getModelInfo_settles (f : Fetched) (b : Browser)
    : (Thrown + Any) * Browser :=
  match parsed f with
  | inl error => (inl error, console_err "Error getting model info:" error b)
  | inr data => (inr data, b)
  end.

(** [init()]: a line on the console, then [getModelInfo()]; what it
    resolves to is logged, what it throws is logged by [getModelInfo] and
    again by [init]. *)
Definition init (b : Browser) : Browser :=
  getModelInfo
    (console_log "Initializing Threat-Responsive Smart Routing Client" b).

Definition init_settles (f : Fetched) (b : Browser) : Browser :=
  let '(answer, b1) := getModelInfo_settles f b in
  match answer with
  | inr info => console_log_value "Smart Routing Model Info:" info b1
  | inl error => console_err "Failed to get model info:" error b1
  end.

(** [provideRouteFeedback(routeId, rating, comments = '')] *)
Definition provideRouteFeedback (routeId rating comments : Any) (b : Browser)
    : Browser :=
  fetch {| method := "POST";
           url := "/api/smart-routing/feedback";
           body := [("route_id", routeId);
                    ("rating", rating);
                    ("comments", orDefault comments "")] |} b.

Definition provideRouteFeedback_settles (f : Fetched) (b : Browser)
    : (Thrown + Any) * Browser :=
  match parsed f with
  | inl error => (inl error, console_err "Error providing route feedback:" error b)
  | inr data => (inr data, b)
  end.

(** [checkForRouteUpdates()] up to its first [await]: the request of
    [getRoute(this.activeRouteId)] is made, unless no route is active. *)
Definition checkForRouteUpdates (c : Client) (b : Browser) : Browser :=
  if negb (truthy (activeRouteId c)) then b
  else getRoute (Prim (activeRouteId c)) b.

(** The rest of [checkForRouteUpdates()], run when the request made for
    [routeId] has settled; the callbacks are those registered by then. *)
Definition checkForRouteUpdates_settles (routeId : Value) (f : Fetched)
    (c : Client) (b : Browser) : Browser :=
  let '(answer, b1) := getRoute_settles (Prim routeId) f b in
  match answer with
  | inl error => console_err "Error checking for route updates:" error b1
  | inr updatedRoute =>
      match getProp updatedRoute "rerouted" with
      | Rejected _ =>
          console_err "Error checking for route updates:" PropertyOfNullish b1
      | Fulfilled rerouted =>
          if truthy rerouted
          then notifyRouteUpdate updatedRoute c
                 (console_log "Route was rerouted due to new threats!" b1)
          else b1
      end
  end.

(** [calculateRoute(startLocation, endLocation, terrainType = 'urban')] up
    to its first [await]. *)
Definition calculateRoute (startLocation endLocation terrainType : Any)
    (b : Browser) : Browser :=
  fetch {| method := "POST";
           url := "/api/smart-routing/calculate";
           body := [("start_location", startLocation);
                    ("end_location", endLocation);
                    ("terrain_type", orDefault terrainType "urban")] |} b.

(** The rest of [calculateRoute], with what its promise settles to. *)
Definition calculateRoute_settles (f : Fetched) (c : Client) (b : Browser)
    : (Thrown + Any) * Client * Browser :=
  match parsed f with
  | inl error => (inl error, c, console_err "Error calculating route:" error b)
  | inr routeData =>
      match getProp routeData "id" with
      | Rejected _ =>
          (inl PropertyOfNullish, c,
           console_err "Error calculating route:" PropertyOfNullish b)
      | Fulfilled id =>
          let '(c1, b1) := startRouteUpdateMonitoring (withActiveRouteId id c) b in
          (inr routeData, c1, b1)
      end
  end.

(** [reportThreat(location, type = 'enemy', severity = 'high')] up to its
    first [await]; [now] is [new Date().toISOString()]. *)
Definition reportThreat (location type severity : Any) (now : string)
    (b : Browser) : Browser :=
  fetch {| method := "POST";
           url := "/api/smart-routing/threats";
           body := [("location", location);
                    ("type", orDefault type "enemy");
                    ("severity", orDefault severity "high");
                    ("reported_by", Prim (VString "user"));
                    ("timestamp", Prim (VString now))] |} b.

(** The rest of [reportThreat]: the check is started and not awaited. *)
Definition reportThreat_settles (f : Fetched) (c : Client) (b : Browser)
    : (Thrown + Any) * Browser :=
  match parsed f with
  | inl error => (inl error, console_err "Error reporting threat:" error b)
  | inr result =>
      (inr result,
       if truthy (activeRouteId c) then checkForRouteUpdates c b else b)
  end.

(** The function given to [setInterval], run when the timer [h] fires; a
    timer that has been cleared does not fire. *)
Definition intervalFires (h : positive) (c : Client) (b : Browser) : Browser :=
  if bool_decide (h ∈ intervals b) then
    if truthyAny (threatDetectionEnabled c) && truthy (activeRouteId c)
    then checkForRouteUpdates c b
    else b
  else b.

(** A request for one route, [GET /api/smart-routing/routes/<id>]: what
    [getRoute] asks, and so what a poll asks; [getAllRoutes] asks for
    [/api/smart-routing/routes]. *)
Definition fetchesRoute (r : Request) : bool :=
  String.eqb (method r) "GET" &&
  String.prefix "/api/smart-routing/routes/" (url r).

(** What can happen to a client: one of its thirteen methods is called, a
    request made by a method settles, a timer fires.  A list of events is
    not asked to be well-formed (a settlement may come with no request
    pending), so the runs of the model include every run in which the
    client is used through its methods. *)
Inductive Event : Type :=
| Init
| InitSettles (f : Fetched)
| CalculateRoute (startLocation endLocation terrainType : Any)
| CalculateRouteSettles (f : Fetched)
| GetRoute (routeId : Any)
| GetRouteSettles (routeId : Any) (f : Fetched)
| GetAllRoutes
| GetAllRoutesSettles (f : Fetched)
| ReportThreat (location type severity : Any) (now : string)
| ReportThreatSettles (f : Fetched)
| ProvideRouteFeedback (routeId rating comments : Any)
| ProvideRouteFeedbackSettles (f : Fetched)
| GetModelInfo
| GetModelInfoSettles (f : Fetched)
| CheckForRouteUpdates
| CheckForRouteUpdatesSettles (routeId : Value) (f : Fetched)
| IntervalFires (h : positive)
| StartRouteUpdateMonitoring
| StopRouteUpdateMonitoring
| SetThreatDetectionEnabled (enabled : Any)
| OnRouteUpdate (callback : Handler)
| NotifyRouteUpdate (updatedRoute : Any).

Definition step (s : Client * Browser) (ev : Event) : Client * Browser :=
  let '(c, b) := s in
  match ev with
  | Init => (c, init b)
  | InitSettles f => (c, init_settles f b)
  | CalculateRoute startLocation endLocation terrainType =>
      (c, calculateRoute startLocation endLocation terrainType b)
  | CalculateRouteSettles f =>
      let '(_, c1, b1) := calculateRoute_settles f c b in (c1, b1)
  | GetRoute routeId => (c, getRoute routeId b)
  | GetRouteSettles routeId f => (c, snd (getRoute_settles routeId f b))
  | GetAllRoutes => (c, getAllRoutes b)
  | GetAllRoutesSettles f => (c, snd (getAllRoutes_settles f b))
  | ReportThreat location type severity now =>
      (c, reportThreat location type severity now b)
  | ReportThreatSettles f => (c, snd (reportThreat_settles f c b))
  | ProvideRouteFeedback routeId rating comments =>
      (c, provideRouteFeedback routeId rating comments b)
  | ProvideRouteFeedbackSettles f => (c, snd (provideRouteFeedback_settles f b))
  | GetModelInfo => (c, getModelInfo b)
  | GetModelInfoSettles f => (c, snd (getModelInfo_settles f b))
  | CheckForRouteUpdates => (c, checkForRouteUpdates c b)
  | CheckForRouteUpdatesSettles routeId f =>
      (c, checkForRouteUpdates_settles routeId f c b)
  | IntervalFires h => (c, intervalFires h c b)
  | StartRouteUpdateMonitoring => startRouteUpdateMonitoring c b
  | StopRouteUpdateMonitoring => stopRouteUpdateMonitoring c b
  | SetThreatDetectionEnabled enabled => setThreatDetectionEnabled enabled c b
  | OnRouteUpdate callback => (onRouteUpdate callback c, b)
  | NotifyRouteUpdate updatedRoute => (c, notifyRouteUpdate updatedRoute c b)
  end.

Definition run (events : list Event) (s : Client * Browser) : Client * Browser :=
  fold_left step events s.

End WithNumberToString.

End ThreatResponsiveRouting.

(** ** components/Dashboard/AiRecommendationsCard.jsx *)

Module AiRecommendationsCard.

Definition recommendations : list string :=
  [ "Traffic is light on your usual commute route.";
    "Consider a walk in Central Park, weather is great!";
    "Reminder: Check tire pressure this week." ].

(** The array index a Number stands for when it is used as a property key:
    the zeros give 0, a non-negative integer gives itself, and every other
    Number is no index. *)
Definition arrayIndex (n : number) : option nat :=
  match n with
  | S754_zero _ => Some 0%nat
  | S754_finite false m e =>
      if SFeqb (Math_floor n) n then Some (Z.to_nat (floor_Z false m e)) else None
  | _ => None
  end.

(** [recommendations[Math.floor(Math.random() * recommendations.length)]];
    [None] stands for [undefined]. *)
Definition randomRecommendation (w : World) : option string * World :=
  let '(r, w1) := Math_random w in
  (i ← arrayIndex (Math_floor (mul r (of_Z (Z.of_nat (length recommendations)))));
   recommendations !! i, w1).

End AiRecommendationsCard.

(** ** utils/aiPredictiveAnalytics.js, third module:
       [getPersonalizedSafetyTips] *)

Module PersonalizedRecommendations.

Import ApiMore.

Record Tip : Type := {
  tip_id : Value;
  tip : Value;
  importance : Value;
  category : Value
}.

(** [array.filter(p)] for a callback that may throw. *)
Fixpoint filter_try {A : Type} (p : A -> Settled bool) (l : list A)
    : Settled (list A) :=
  match l with
  | [] => Fulfilled []
  | x :: l' =>
      p x ≫= fun keep : bool =>
      filter_try p l' ≫= fun xs =>
      mret (if keep then x :: xs else xs)
  end.

(** [s.includes(t)] *)
Definition includes (s t : string) : bool :=
  match String.index 0 t s with
  | Some _ => true
  | None => false
  end.

Section WithToLowerCase.

(** [String.prototype.toLowerCase], a parameter of the model. *)
Variable String_toLowerCase : string -> string.

(** [v.toLowerCase().includes('safety')]: only a string has the method. *)
Definition mentionsSafety (v : Any) : Settled bool :=
  match v with
  | Prim (VString s) => Fulfilled (includes (String_toLowerCase s) "safety")
  | _ => Rejected TypeError
  end.

(** The callback of [recommendations.filter]; [||] does not evaluate its
    second operand when the first one is true. *)
Definition isSafetyRec (rec : Any) : Settled bool :=
  type ← getProp rec "type";
  mentionsSafety (Prim type) ≫= fun inType : bool =>
  if inType then mret true
  else message ← getProp rec "message"; mentionsSafety (Prim message).

(** The callback of [safetyRecs.map]. *)
Definition tipOf (rec : Any) : Settled Tip :=
  id ← getProp rec "id";
  message ← getProp rec "message";
  priority ← getProp rec "priority";
  type ← getProp rec "type";
  mret {| tip_id := id; tip := message; importance := priority; category := type |}.

Definition fallbackTips : list Tip :=
  [ {| tip_id := VString "fallback-tip-1";
       tip := VString "API Error - Unable to fetch safety tips from API";
       importance := VNumber (of_Z 1);
       category := VString "General" |} ].

(** [getPersonalizedSafetyTips(userContext = {})] *)
Definition getPersonalizedSafetyTips (userContext : Any)
    (response : Settled Objects) (w : World) : Settled (list Tip) * World :=
  let caught (error : Error) (w' : World) :=
    (Fulfilled fallbackTips,
     console_error "Error in getPersonalizedSafetyTips:" error w') in
  let '(recommendations, w1) := getRecommendationObjects response w in
  match recommendations with
  | Rejected error => caught error w1
  | Fulfilled (NotAnArray _) => caught TypeError w1
  | Fulfilled (ObjectArray items) =>
      match safetyRecs ← filter_try isSafetyRec items; mapM tipOf safetyRecs with
      | Rejected error => caught error w1
      | Fulfilled tips => (Fulfilled tips, w1)
      end
  end.

End WithToLowerCase.

End PersonalizedRecommendations.

(** ** Time values *)

Module TimeValue.

(** [Number.isFinite]: a zero or a finite Number in its canonical form.
    The time value of a valid [Date] is such a Number; that of an invalid
    one is NaN. *)
Definition Number_isFinite (x : number) : bool :=
  match x with
  | S754_zero _ => true
  | S754_finite _ m e => bounded prec emax m e
  | _ => false
  end.

(** A finite Number [x] as the integer [x * 2^1074]; every finite Number is
    an integer multiple of [2^-1074]. *)
Definition scaled (x : number) : Z :=
  match x with
  | S754_finite s m e => cond_Zopp s (Zpos m * 2 ^ (e + 1074))
  | _ => 0
  end.

End TimeValue.

(** ** components/AlertsPage.jsx: when the order of display is determined *)

Module AlertsOrder.

Import AlertsPage AlertsView TimeValue.

Section WithDates.

Variable Date_value : Value -> number.

(** The comparator of the page never returns NaN on the alerts of the
    state, and is then consistent on them: with the sort setting "Time"
    every timestamp is a valid date, with any other setting no severity is
    a name inherited from [Object.prototype]. *)
Definition consistentOn (st : State) : Prop :=
  if String.eqb (sortBy st) "Time"
  then Forall (fun alert =>
                 Number_isFinite (Date_value (get alert "timestamp")) = true)
              (alerts st)
  else Forall (fun alert => inherited (get alert "severity") = false) (alerts st).

End WithDates.

End AlertsOrder.

(* ===================================================================== *)
(** * Part II: theorems                                                   *)
(* ===================================================================== *)

(** ** binary64: rounding of a product and its integer part *)

Lemma digits2_pos_bounds (p : positive) :
  2 ^ (Zpos (digits2_pos p) - 1) <= Zpos p < 2 ^ Zpos (digits2_pos p).
Proof.
  induction p as [p IH | p IH |]; cbn [digits2_pos].
  - rewrite Pos2Z.inj_succ.
    replace (Z.succ (Zpos (digits2_pos p)) - 1) with (Zpos (digits2_pos p) - 1 + 1) by lia.
    rewrite Z.pow_succ_r by lia. rewrite Z.pow_add_r by lia. lia.
  - rewrite Pos2Z.inj_succ.
    replace (Z.succ (Zpos (digits2_pos p)) - 1) with (Zpos (digits2_pos p) - 1 + 1) by lia.
    rewrite Z.pow_succ_r by lia. rewrite Z.pow_add_r by lia. lia.
  - cbn. lia.
Qed.

Lemma iter_pos_invariant {A : Type} (f : A -> A) (P : Z -> A -> Prop) :
  (forall k x, 0 <= k -> P k x -> P (k + 1) (f x)) ->
  forall p k x, 0 <= k -> P k x -> P (k + Zpos p) (SpecFloat.iter_pos f p x).
Proof.
  intros step. induction p as [p IH | p IH |]; intros k x Hk Hx; cbn [SpecFloat.iter_pos].
  - replace (k + Zpos p~1) with (k + 1 + Zpos p + Zpos p) by lia.
    apply IH; [lia|]. apply IH; [lia|]. now apply step.
  - replace (k + Zpos p~0) with (k + Zpos p + Zpos p) by lia.
    apply IH; [lia|]. now apply IH.
  - now apply step.
Qed.

(** The sticky bit after one more shift: it is clear exactly when nothing
    but zeros has been shifted out. *)
Lemma sticky_step (k t : Z) (r s : bool) :
  0 < 2 ^ k -> 0 <= t -> (s = false <-> t = 0) ->
  (r || s = false <-> Z.b2z r * 2 ^ k + t = 0).
Proof.
  intros Hp Ht Hs. destruct r; cbn [orb Z.b2z].
  - split; [discriminate | lia].
  - rewrite Z.mul_0_l, Z.add_0_l. exact Hs.
Qed.

(** One step of [shr_1].  After [k] shifts of [m0] the record holds the
    quotient [m], the last bit shifted out [r] and the sticky bit [s]:
    [2 * m0 = m * 2^(k+1) + r * 2^k + t] with [0 <= t < 2^k], and [s] is
    clear exactly when [t = 0]. *)
Lemma shr_1_step (m0 k : Z) (mrs : shr_record) :
  0 <= k ->
  (0 <= shr_m mrs /\
   exists t, 0 <= t < 2 ^ k /\
     2 * m0 = shr_m mrs * 2 ^ (k + 1) + Z.b2z (shr_r mrs) * 2 ^ k + t /\
     (shr_s mrs = false <-> t = 0)) ->
  (0 <= shr_m (shr_1 mrs) /\
   exists t, 0 <= t < 2 ^ (k + 1) /\
     2 * m0 = shr_m (shr_1 mrs) * 2 ^ (k + 1 + 1)
              + Z.b2z (shr_r (shr_1 mrs)) * 2 ^ (k + 1) + t /\
     (shr_s (shr_1 mrs) = false <-> t = 0)).
Proof.
  intros Hk [Hm (t & Ht & Heq & Hs)].
  destruct mrs as [m r s]; cbn [shr_m shr_r shr_s] in *.
  assert (Hp : 0 < 2 ^ k) by (apply Z.pow_pos_nonneg; lia).
  rewrite !Z.pow_add_r by lia. change (2 ^ 1) with 2.
  rewrite Z.pow_add_r in Heq by lia. change (2 ^ 1) with 2 in Heq.
  assert (Hr : 0 <= Z.b2z r * 2 ^ k + t < 2 ^ k * 2)
    by (destruct r; cbn [Z.b2z]; lia).
  destruct m as [| [q | q |] |]; try lia;
    cbn [shr_1 shr_m shr_r shr_s Z.b2z];
    (split; [lia|]); exists (Z.b2z r * 2 ^ k + t);
    (split; [exact Hr|]); (split; [lia|]);
    (apply sticky_step; [exact Hp | lia | exact Hs]).
Qed.

Lemma iter_shr_1 (m0 : Z) (p : positive) :
  0 <= m0 ->
  let mrs := SpecFloat.iter_pos shr_1 p (Build_shr_record m0 false false) in
  0 <= shr_m mrs /\
  exists t, 0 <= t < 2 ^ Zpos p /\
    2 * m0 = shr_m mrs * 2 ^ (Zpos p + 1) + Z.b2z (shr_r mrs) * 2 ^ Zpos p + t /\
    (shr_s mrs = false <-> t = 0).
Proof.
  intros Hm0.
  pose (P := fun (k : Z) (mrs : shr_record) =>
    0 <= shr_m mrs /\
    exists t, 0 <= t < 2 ^ k /\
      2 * m0 = shr_m mrs * 2 ^ (k + 1) + Z.b2z (shr_r mrs) * 2 ^ k + t /\
      (shr_s mrs = false <-> t = 0)).
  change (P (0 + Zpos p) (SpecFloat.iter_pos shr_1 p (Build_shr_record m0 false false))).
  apply iter_pos_invariant; [| lia |].
  - intros k x Hk Hx. now apply shr_1_step.
  - split; [exact Hm0|]. exists 0. cbn. split; [lia|]. split; [lia|]. tauto.
Qed.

(** The first shift of [binary_round_aux] followed by the rounding to
    nearest even: the result exceeds the exact quotient by at most one half
    of the last place. *)
Lemma shr_round_bound (m e n : Z) :
  0 <= m ->
  let '(mrs, e') := shr (Build_shr_record m false false) e n in
  let m2 := round_nearest_even (shr_m mrs) (loc_of_shr_record mrs) in
  e' = e + Z.max 0 n /\ 0 <= m2 /\
  2 * m2 * 2 ^ Z.max 0 n <= 2 * m + 2 ^ Z.max 0 n.
Proof.
  intros Hm. destruct n as [| p | p]; cbn [shr].
  - rewrite Z.max_l, Z.pow_0_r by lia.
    cbn [shr_m loc_of_shr_record round_nearest_even]. lia.
  - pose proof (iter_shr_1 m p Hm) as H. cbn zeta in H.
    destruct (SpecFloat.iter_pos shr_1 p (Build_shr_record m false false)) as [m1 r s].
    cbn [shr_m shr_r shr_s] in *.
    destruct H as [Hm1 (t & Ht & Heq & Hs)].
    rewrite Z.max_r by lia.
    rewrite Z.pow_add_r in Heq by lia. change (2 ^ 1) with 2 in Heq.
    assert (Hp : 0 < 2 ^ Zpos p) by (apply Z.pow_pos_nonneg; lia).
    split; [reflexivity|].
    destruct r, s; cbn [loc_of_shr_record round_nearest_even Z.b2z] in *;
      try destruct (Z.even m1); split; nia.
  - rewrite Z.max_l, Z.pow_0_r by lia.
    cbn [shr_m loc_of_shr_record round_nearest_even]. lia.
Qed.

(** The second shift of [binary_round_aux] truncates. *)
Lemma shr_trunc_bound (m e n : Z) :
  0 <= m ->
  let '(mrs, e') := shr (Build_shr_record m false false) e n in
  e' = e + Z.max 0 n /\ 0 <= shr_m mrs /\ shr_m mrs * 2 ^ Z.max 0 n <= m.
Proof.
  intros Hm. destruct n as [| p | p]; cbn [shr].
  - rewrite Z.max_l, Z.pow_0_r by lia. cbn [shr_m]. lia.
  - pose proof (iter_shr_1 m p Hm) as H. cbn zeta in H.
    destruct (SpecFloat.iter_pos shr_1 p (Build_shr_record m false false)) as [m1 r s].
    cbn [shr_m shr_r shr_s] in *.
    destruct H as [Hm1 (t & Ht & Heq & Hs)].
    rewrite Z.max_r by lia.
    rewrite Z.pow_add_r in Heq by lia. change (2 ^ 1) with 2 in Heq.
    assert (Hp : 0 < 2 ^ Zpos p) by (apply Z.pow_pos_nonneg; lia).
    split; [reflexivity|]. split; [lia|]. destruct r; cbn [Z.b2z] in *; nia.
  - rewrite Z.max_l, Z.pow_0_r by lia. cbn [shr_m]. lia.
Qed.

Lemma binary_round_aux_bound (s : bool) (m : positive) (e : Z) :
  exists m'' e'',
    e <= e'' /\ 0 <= m'' /\
    2 * m'' * 2 ^ (e'' - e)
      <= 2 * Zpos m + 2 ^ Z.max 0 (fexp prec emax (Zpos (digits2_pos m) + e) - e) /\
    binary_round_aux prec emax s (Zpos m) e loc_Exact =
      match m'' with
      | Z0 => S754_zero s
      | Zpos q => if e'' <=? emax - prec then S754_finite s q e'' else S754_infinity s
      | Zneg _ => S754_nan
      end.
Proof.
  unfold binary_round_aux, shr_fexp. cbn [shr_record_of_loc Zdigits2].
  set (n := fexp prec emax (Zpos (digits2_pos m) + e) - e).
  pose proof (shr_round_bound (Zpos m) e n ltac:(lia)) as H1.
  destruct (shr (Build_shr_record (Zpos m) false false) e n) as [mrs' e'].
  cbn zeta in H1. destruct H1 as (He' & Hm2 & Hb1).
  set (m2 := round_nearest_even (shr_m mrs') (loc_of_shr_record mrs')) in *.
  set (n2 := fexp prec emax (Zdigits2 m2 + e') - e').
  pose proof (shr_trunc_bound m2 e' n2 Hm2) as H2.
  destruct (shr (Build_shr_record m2 false false) e' n2) as [mrs'' e''].
  destruct H2 as (He'' & Hm'' & Hb2).
  exists (shr_m mrs''), e''. split; [lia|]. split; [exact Hm''|]. split; [|reflexivity].
  replace (e'' - e) with (Z.max 0 n2 + Z.max 0 n) by lia.
  rewrite Z.pow_add_r by lia.
  assert (0 < 2 ^ Z.max 0 n) by (apply Z.pow_pos_nonneg; lia).
  assert (0 < 2 ^ Z.max 0 n2) by (apply Z.pow_pos_nonneg; lia).
  nia.
Qed.

Lemma of_Z_1 : of_Z 1 = S754_finite false 4503599627370496 (-52).
Proof. vm_compute. reflexivity. Qed.

Lemma random_value_finite (m : positive) (e : Z) :
  is_random_value (S754_finite false m e) = true ->
  -1074 <= e <= -53 /\ Zpos m + 1 <= 2 ^ (- e) /\ Zpos (digits2_pos m) <= 53.
Proof.
  unfold is_random_value. rewrite of_Z_1. intros H.
  apply andb_prop in H as [Hb Hlt].
  unfold bounded, canonical_mantissa in Hb.
  apply andb_prop in Hb as [Hc _]. apply Z.eqb_eq in Hc.
  unfold fexp, emin, prec, emax in Hc.
  pose proof (digits2_pos_bounds m) as [Hlo Hhi].
  set (d := Zpos (digits2_pos m)) in *.
  assert (Hd : 0 < d) by (unfold d; lia).
  unfold SFltb, SFcompare in Hlt.
  assert (He : e <= -53).
  { destruct (Z.compare_spec e (-52)) as [Heq | Hl | Hg]; try discriminate.
    - (* e = -52: the mantissa is below 2^52, so it is not canonical *)
      destruct (Pos.compare_cont Eq m 4503599627370496) eqn:Hcmp; try discriminate.
      pose proof (Pos2Z.pos_lt_pos _ _
        (proj1 (Pos.compare_lt_iff m 4503599627370496) Hcmp)) as Hm.
      clear Hcmp.
      assert (d = 53) by lia.
      replace (d - 1) with 52 in Hlo by lia.
      change (2 ^ 52) with 4503599627370496 in Hlo. lia.
    - lia. }
  split; [lia|]. split; [|lia].
  assert (2 ^ d <= 2 ^ (- e)) by (apply Z.pow_le_mono_r; lia). lia.
Qed.

Lemma floor_random_mul (r : number) (mc : positive) (ec N : Z) :
  is_random_value r = true ->
  2 ^ 52 < Zpos mc < 2 ^ 53 -> -52 <= ec <= 0 -> Zpos mc = N * 2 ^ (- ec) ->
  exists k, 0 <= k < N /\ Math_floor (mul r (S754_finite false mc ec)) = of_Z k.
Proof.
  intros Hr Hmc Hec HN.
  assert (HN0 : 0 < N).
  { assert (0 < 2 ^ (- ec)) by (apply Z.pow_pos_nonneg; lia). nia. }
  destruct r as [[|] | | | [|] mx ex]; try discriminate.
  - (* r = +0 *)
    exists 0. split; [lia|]. reflexivity.
  - apply random_value_finite in Hr as (Hex & Hmx & Hdx).
    unfold mul. cbn [SFmul xorb].
    destruct (binary_round_aux_bound false (mx * mc) (ex + ec))
      as (m'' & e'' & He'' & Hm'' & Hb & ->).
    set (d' := Zpos (digits2_pos (mx * mc))) in *.
    set (n := Z.max 0 (fexp prec emax (d' + (ex + ec)) - (ex + ec))) in *.
    assert (Hpex : 0 < 2 ^ (- ex)) by (apply Z.pow_pos_nonneg; lia).
    assert (Hpec : 0 < 2 ^ (- ec)) by (apply Z.pow_pos_nonneg; lia).
    (* the product has at most 106 digits, so at most 53 bits are shifted out *)
    assert (Hn : n <= 53).
    { pose proof (digits2_pos_bounds (mx * mc)) as [Hlo _]. fold d' in Hlo.
      pose proof (digits2_pos_bounds mx) as [_ Hhi].
      assert (Hd' : d' <= Zpos (digits2_pos mx) + 53).
      { destruct (Z_le_gt_dec d' (Zpos (digits2_pos mx) + 53)) as [|Hgt]; [assumption|].
        exfalso.
        assert (2 ^ (Zpos (digits2_pos mx) + 53) <= 2 ^ (d' - 1))
          by (apply Z.pow_le_mono_r; lia).
        rewrite Z.pow_add_r in H by lia.
        rewrite Pos2Z.inj_mul in Hlo. nia. }
      unfold n, fexp, emin, prec, emax. lia. }
    assert (Hpn : 2 ^ n <= 2 ^ 53) by (apply Z.pow_le_mono_r; unfold n; lia).
    (* scaled by 2^-(ex+ec), the rounded product stays below N *)
    assert (Hlt : m'' * 2 ^ (e'' - (ex + ec)) < N * 2 ^ (- (ex + ec))).
    { replace (- (ex + ec)) with (- ec + - ex) by lia.
      rewrite Z.pow_add_r by lia.
      rewrite Pos2Z.inj_mul in Hb. nia. }
    assert (Hk : 0 <= floor_Z false
                   match m'' with Zpos q => q | _ => 1%positive end e'' < N
                 \/ m'' = 0).
    { destruct m'' as [| q |]; [now right | left | lia].
      unfold floor_Z. cbn [cond_Zopp].
      destruct (Z.leb_spec 0 e'') as [Hpos | Hneg].
      - split; [apply Z.mul_nonneg_nonneg; [lia | apply Z.pow_nonneg; lia]|].
        replace (e'' - (ex + ec)) with (e'' + - (ex + ec)) in Hlt by lia.
        rewrite Z.pow_add_r in Hlt by lia.
        assert (0 < 2 ^ (- (ex + ec))) by (apply Z.pow_pos_nonneg; lia).
        nia.
      - assert (Hp'' : 0 < 2 ^ (- e'')) by (apply Z.pow_pos_nonneg; lia).
        split; [apply Z.div_pos; lia|].
        apply Z.div_lt_upper_bound; [lia|].
        replace (- (ex + ec)) with (- e'' + (e'' - (ex + ec))) in Hlt by lia.
        rewrite Z.pow_add_r in Hlt by lia.
        assert (0 < 2 ^ (e'' - (ex + ec))) by (apply Z.pow_pos_nonneg; lia).
        nia. }
    destruct m'' as [| q |]; [| | lia].
    + exists 0. split; [lia|]. reflexivity.
    + destruct Hk as [Hk | ?]; [|discriminate].
      assert (He971 : e'' <= emax - prec).
      { unfold emax, prec.
        destruct (Z_le_gt_dec e'' 971) as [|Hgt]; [lia|]. exfalso.
        replace (e'' - (ex + ec)) with (e'' + - (ex + ec)) in Hlt by lia.
        rewrite Z.pow_add_r in Hlt by lia.
        assert (HP : 0 < 2 ^ (- (ex + ec))) by (apply Z.pow_pos_nonneg; lia).
        assert (2 ^ 53 <= 2 ^ e'') by (apply Z.pow_le_mono_r; lia).
        assert (N <= Zpos mc) by nia.
        rewrite Z.mul_assoc in Hlt.
        apply Z.mul_lt_mono_pos_r in Hlt; [|exact HP].
        assert (2 ^ e'' <= Zpos q * 2 ^ e'') by nia.
        lia. }
      apply Z.leb_le in He971. rewrite He971.
      eexists. split; [exact Hk|]. reflexivity.
Qed.

(** ** Integer literals and small sums *)

Lemma of_Z_literals :
  of_Z 30 = S754_finite false 8444249301319680 (-48) /\
  of_Z 20 = S754_finite false 5629499534213120 (-48).
Proof. vm_compute. split; reflexivity. Qed.

(** [Math.floor(r * 30)] for a value [r] of [Math.random] is one of the
    integers 0..29; likewise 0..19 for the factor 20. *)
Lemma floor_random_30 (r : number) :
  is_random_value r = true ->
  exists k, 0 <= k < 30 /\ Math_floor (mul r (of_Z 30)) = of_Z k.
Proof.
  intros Hr. destruct of_Z_literals as [-> _].
  apply floor_random_mul; [exact Hr | | lia |]; vm_compute; intuition congruence.
Qed.

Lemma floor_random_20 (r : number) :
  is_random_value r = true ->
  exists k, 0 <= k < 20 /\ Math_floor (mul r (of_Z 20)) = of_Z k.
Proof.
  intros Hr. destruct of_Z_literals as [_ ->].
  apply floor_random_mul; [exact Hr | | lia |]; vm_compute; intuition congruence.
Qed.

Lemma add_of_Z_70 (n : nat) :
  (n < 30)%nat -> add (of_Z (Z.of_nat n)) (of_Z 70) = of_Z (Z.of_nat n + 70).
Proof.
  intros H. do 30 (destruct n as [|n]; [vm_compute; reflexivity|]). lia.
Qed.

Lemma add_of_Z_25 (n : nat) :
  (n < 20)%nat -> add (of_Z (Z.of_nat n)) (of_Z 25) = of_Z (Z.of_nat n + 25).
Proof.
  intros H. do 20 (destruct n as [|n]; [vm_compute; reflexivity|]). lia.
Qed.

(** [Math.floor(Math.random() * 30) + 70] lies in 70..99 and
    [Math.floor(Math.random() * 20) + 25] in 25..44. *)
Lemma score_range (r : number) :
  is_random_value r = true ->
  exists k, 70 <= k <= 99 /\
    add (Math_floor (mul r (of_Z 30))) (of_Z 70) = of_Z k.
Proof.
  intros Hr. destruct (floor_random_30 r Hr) as (k & Hk & ->).
  exists (k + 70). split; [lia|].
  rewrite <- (Z2Nat.id k) by lia. apply add_of_Z_70. lia.
Qed.

Lemma time_range (r : number) :
  is_random_value r = true ->
  exists k, 25 <= k <= 44 /\
    add (Math_floor (mul r (of_Z 20))) (of_Z 25) = of_Z k.
Proof.
  intros Hr. destruct (floor_random_20 r Hr) as (k & Hk & ->).
  exists (k + 25). split; [lia|].
  rewrite <- (Z2Nat.id k) by lia. apply add_of_Z_25. lia.
Qed.

(** ** utils/aiRouteOptimizer.js *)

Section AiRouteOptimizerFacts.

Import Api AiRouteOptimizer.

Lemma same_draws_next (w w' : World) :
  same_draws w w' ->
  fst (Math_random w) = fst (Math_random w') /\
  same_draws (snd (Math_random w)) (snd (Math_random w')).
Proof.
  intros H. split.
  - cbn. specialize (H 0%nat). now rewrite !Nat.add_0_r in H.
  - intros i. cbn. specialize (H (S i)).
    now rewrite !Nat.add_succ_r in H.
Qed.

Lemma same_draws_random_below_plus (n k : Z) (w w' : World) :
  same_draws w w' ->
  fst (random_below_plus n k w) = fst (random_below_plus n k w') /\
  same_draws (snd (random_below_plus n k w)) (snd (random_below_plus n k w')).
Proof.
  intros H. destruct (same_draws_next w w' H) as [Hv Hw].
  unfold random_below_plus.
  destruct (Math_random w) as [r w1], (Math_random w') as [r' w1'].
  cbn in *. subst r'. now split.
Qed.

Lemma same_draws_random_below (n : Z) (w w' : World) :
  same_draws w w' ->
  fst (random_below n w) = fst (random_below n w') /\
  same_draws (snd (random_below n w)) (snd (random_below n w')).
Proof.
  intros H. destruct (same_draws_next w w' H) as [Hv Hw].
  unfold random_below.
  destruct (Math_random w) as [r w1], (Math_random w') as [r' w1'].
  cbn in *. subst r'. now split.
Qed.

Lemma same_draws_optimizedRoute (rec : Recommendation) (w w' : World) :
  same_draws w w' ->
  fst (optimizedRoute rec w) = fst (optimizedRoute rec w') /\
  same_draws (snd (optimizedRoute rec w)) (snd (optimizedRoute rec w')).
Proof.
  intros H. unfold optimizedRoute.
  destruct (same_draws_random_below_plus 30 15 w w' H) as [E1 H1].
  destruct (random_below_plus 30 15 w) as [t w1],
           (random_below_plus 30 15 w') as [t' w1']. cbn in E1, H1.
  destruct (same_draws_random_below 100 w1 w1' H1) as [E2 H2].
  destruct (random_below 100 w1) as [s w2],
           (random_below 100 w1') as [s' w2']. cbn in E2, H2.
  destruct (same_draws_random_below 3 w2 w2' H2) as [E3 H3].
  destruct (random_below 3 w2) as [l w3],
           (random_below 3 w2') as [l' w3']. cbn in E3, H3.
  cbn. subst. now split.
Qed.

Lemma same_draws_safetyRoute (rec : Recommendation) (w w' : World) :
  same_draws w w' ->
  fst (safetyRoute rec w) = fst (safetyRoute rec w') /\
  same_draws (snd (safetyRoute rec w)) (snd (safetyRoute rec w')).
Proof.
  intros H. unfold safetyRoute.
  destruct (same_draws_random_below_plus 30 70 w w' H) as [E1 H1].
  destruct (random_below_plus 30 70 w) as [t w1],
           (random_below_plus 30 70 w') as [t' w1']. cbn in E1, H1.
  destruct (same_draws_random_below_plus 20 25 w1 w1' H1) as [E2 H2].
  destruct (random_below_plus 20 25 w1) as [s w2],
           (random_below_plus 20 25 w1') as [s' w2']. cbn in E2, H2.
  cbn. subst. now split.
Qed.

(** A callback that only looks at the coming draws gives the same array
    in two worlds that agree on them. *)
Lemma same_draws_array_map {A B : Type} (f : A -> World -> B * World) :
  (forall x w w', same_draws w w' ->
     fst (f x w) = fst (f x w') /\ same_draws (snd (f x w)) (snd (f x w'))) ->
  forall l w w', same_draws w w' ->
    fst (array_map f l w) = fst (array_map f l w').
Proof.
  intros Hf. induction l as [|x l IH]; intros w w' H; cbn [array_map].
  - reflexivity.
  - destruct (Hf x w w' H) as [E1 H1].
    destruct (f x w) as [y w1], (f x w') as [y' w1']. cbn in E1, H1.
    specialize (IH w1 w1' H1).
    destruct (array_map f l w1) as [ys w2], (array_map f l w1') as [ys' w2'].
    cbn in *. congruence.
Qed.

Lemma same_draws_console_error (line : string) (e : Error) (w w' : World) :
  same_draws w w' -> same_draws (console_error line e w) (console_error line e w').
Proof. intros H i. exact (H i). Qed.

(** An array without [null] elements is mapped like the list of what its
    elements hold. *)
Lemma items_of_recs (items : list Element) :
  ~ In Nullish items -> exists recs, items = Item <$> recs.
Proof.
  induction items as [|item items IH]; intros Hno.
  - now exists [].
  - destruct IH as [recs ->]; [intros H; apply Hno; now right|].
    destruct item as [|rec]; [exfalso; apply Hno; now left|].
    now exists (rec :: recs).
Qed.

(** An array with a [null] element: the elements before the first one
    have properties. *)
Lemma first_nullish (items : list Element) :
  In Nullish items ->
  exists recs rest, items = (Item <$> recs) ++ Nullish :: rest.
Proof.
  induction items as [|item items IH]; intros Hin; [destruct Hin|].
  destruct item as [|rec].
  - now exists [], items.
  - destruct Hin as [Hin | Hin]; [discriminate|].
    destruct (IH Hin) as (recs & rest & ->).
    now exists (rec :: recs), rest.
Qed.

Lemma array_map_try_items {B : Type} (f : Recommendation -> World -> B * World)
    (recs : list Recommendation) (w : World) :
  array_map_try (onItem f) (Item <$> recs) w
  = (Fulfilled (fst (array_map f recs w)), snd (array_map f recs w)).
Proof.
  revert w. induction recs as [|rec recs IH]; intros w; [reflexivity|].
  cbn [fmap list_fmap array_map_try array_map onItem].
  destruct (f rec w) as [y w1].
  change (list_fmap Recommendation Element Item recs) with (Item <$> recs).
  rewrite IH. destruct (array_map f recs w1) as [ys w2]. reflexivity.
Qed.

(** The walk stops at the first [null]: the callback has run on the
    elements before it, and on nothing else. *)
Lemma array_map_try_nullish {B : Type} (f : Recommendation -> World -> B * World)
    (recs : list Recommendation) (rest : list Element) (w : World) :
  array_map_try (onItem f) ((Item <$> recs) ++ Nullish :: rest) w
  = (Rejected TypeError, snd (array_map f recs w)).
Proof.
  revert w. induction recs as [|rec recs IH]; intros w; [reflexivity|].
  cbn [fmap list_fmap app array_map_try array_map onItem].
  destruct (f rec w) as [y w1].
  change (list_fmap Recommendation Element Item recs) with (Item <$> recs).
  rewrite IH. destruct (array_map f recs w1) as [ys w2]. reflexivity.
Qed.

Lemma In_Nullish_dec (items : list Element) :
  In Nullish items \/ ~ In Nullish items.
Proof.
  induction items as [|item items [IH | IH]].
  - right. intros [].
  - left. now right.
  - destruct item as [|rec]; [left; now left|].
    right. intros [H | H]; [discriminate | contradiction].
Qed.

Lemma same_draws_array_map_try {B : Type}
    (f : Recommendation -> World -> B * World) :
  (forall x w w', same_draws w w' ->
     fst (f x w) = fst (f x w') /\ same_draws (snd (f x w)) (snd (f x w'))) ->
  forall items w w', same_draws w w' ->
    fst (array_map_try (onItem f) items w)
    = fst (array_map_try (onItem f) items w').
Proof.
  intros Hf. induction items as [|item items IH]; intros w w' H;
    cbn [array_map_try]; [reflexivity|].
  destruct item as [|rec]; cbn [onItem]; [reflexivity|].
  destruct (Hf rec w w' H) as [E1 H1].
  destruct (f rec w) as [y w1], (f rec w') as [y' w1']. cbn in E1, H1.
  specialize (IH w1 w1' H1).
  destruct (array_map_try (onItem f) items w1) as [[ys | e] w2],
           (array_map_try (onItem f) items w1') as [[ys' | e'] w2'];
    cbn in *; congruence.
Qed.

(** The drawn values come from the tape, in order: the route at index [i]
    of [getSafetyFocusedRoutes] uses the draws [2 i] and [2 i + 1]. *)
Lemma array_map_safetyRoute (recs : list Recommendation) (w : World) :
  let '(routes, w') := array_map safetyRoute recs w in
  entropy w' = entropy w /\
  draws w' = (draws w + 2 * length recs)%nat /\
  length routes = length recs /\
  forall (i : nat) (r : SafetyRoute), routes !! i = Some r ->
    s_safetyScore r =
      add (Math_floor (mul (entropy w (draws w + 2 * i)%nat) (of_Z 30))) (of_Z 70) /\
    s_estimatedTime r =
      add (Math_floor (mul (entropy w (draws w + 2 * i + 1)%nat) (of_Z 20))) (of_Z 25).
Proof.
  revert w. induction recs as [|rec recs IH]; intros w; cbn [array_map].
  - split; [reflexivity|]. split; [cbn; lia|]. split; [reflexivity|].
    intros i r H. discriminate.
  - unfold safetyRoute at 1, random_below_plus, Math_random. cbn [fst snd].
    match goal with |- context [array_map safetyRoute recs ?w1] =>
      specialize (IH w1); destruct (array_map safetyRoute recs w1) as [routes w'] end.
    cbn [entropy draws] in IH. destruct IH as (He & Hd & Hl & Hi).
    split; [exact He|]. split; [rewrite Hd; cbn [length]; lia|].
    split; [cbn [length]; now rewrite Hl|].
    intros [|i] r Hr.
    + cbn in Hr. injection Hr as <-.
      cbn [s_safetyScore s_estimatedTime entropy draws].
      replace (draws w + 2 * 0)%nat with (draws w) by lia.
      replace (draws w + 1)%nat with (S (draws w)) by lia.
      split; reflexivity.
    + cbn in Hr. destruct (Hi i r Hr) as [H1 H2].
      rewrite H1, H2.
      replace (S (S (draws w)) + 2 * i)%nat with (draws w + 2 * S i)%nat by lia.
      split; reflexivity.
Qed.

End AiRouteOptimizerFacts.

Section AiRouteOptimizerClaims.

Import Api AiRouteOptimizer.

(** C8. When the recommendations request rejects,
    [getOptimizedRouteSuggestions] does not reject: it settles with the
    fixed fallback object, whose only route has id "fallback-1",
    estimatedTime 25, safetyScore 85 and trafficLevel 1, and whose
    currentConditions are weather "Unknown", trafficStatus "Unknown" and
    safetyAlerts 0.  The error is written to the console twice, once by
    [getRecommendations] and once by the caller. *)
Theorem getOptimizedRouteSuggestions_fallback
    (startLocation endLocation preferences : Any) (error : Error) (w : World) :
  getOptimizedRouteSuggestions startLocation endLocation preferences
      (Rejected error) w
    = (Fulfilled fallbackSuggestions,
       console_error "Error in getOptimizedRouteSuggestions:" error
         (console_error "Error fetching recommendations:" error w))
  /\ (exists r, optimizedRoutes fallbackSuggestions = [r] /\
        id r = VString "fallback-1" /\
        estimatedTime r = of_Z 25 /\
        safetyScore r = of_Z 85 /\
        trafficLevel r = of_Z 1)
  /\ weather (currentConditions fallbackSuggestions) = "Unknown"
  /\ trafficStatus (currentConditions fallbackSuggestions) = "Unknown"
  /\ safetyAlerts (currentConditions fallbackSuggestions) = of_Z 0.
Proof.
  split; [reflexivity|]. split; [|repeat split].
  eexists. split; [reflexivity|]. repeat split.
Qed.

(** C9. Every route returned by [getSafetyFocusedRoutes] has an integer
    safetyScore in 70..99 and an integer estimatedTime in 25..44, provided
    [Math.random] returns values in [0, 1).  On the success path, an array
    without [null] elements, the route at index [i] has safetyScore
    [Math.floor(r * 30) + 70] and estimatedTime [Math.floor(r' * 20) + 25]
    for the draws [r], [r'] at positions [2 i] and [2 i + 1]; on every
    other path (the request rejects, the payload is not an array, or the
    array holds a [null], on which [rec.id] throws) the answer is the
    single fallback route with safetyScore 80 and estimatedTime 30. *)
Theorem getSafetyFocusedRoutes_ranges
    (startLocation endLocation : Any) (response : Settled Payload) (w : World) :
  (forall i, is_random_value (entropy w i) = true) ->
  exists routes,
    fst (getSafetyFocusedRoutes startLocation endLocation response w)
      = Fulfilled routes /\
    Forall (fun r =>
              (exists k, 70 <= k <= 99 /\ s_safetyScore r = of_Z k) /\
              (exists t, 25 <= t <= 44 /\ s_estimatedTime r = of_Z t)) routes /\
    match response with
    | Fulfilled (DataArray items) =>
        (~ In Nullish items ->
           length routes = length items /\
           forall (i : nat) (r : SafetyRoute), routes !! i = Some r ->
             s_safetyScore r =
               add (Math_floor (mul (entropy w (draws w + 2 * i)%nat) (of_Z 30)))
                   (of_Z 70) /\
             s_estimatedTime r =
               add (Math_floor (mul (entropy w (draws w + 2 * i + 1)%nat) (of_Z 20)))
                   (of_Z 25)) /\
        (In Nullish items -> routes = fallbackSafetyRoutes)
    | _ => routes = fallbackSafetyRoutes
    end /\
    s_safetyScore <$> fallbackSafetyRoutes = [of_Z 80] /\
    s_estimatedTime <$> fallbackSafetyRoutes = [of_Z 30].
Proof.
  intros Hrand. unfold getSafetyFocusedRoutes.
  assert (Hfallback :
    Forall (fun r =>
              (exists k, 70 <= k <= 99 /\ s_safetyScore r = of_Z k) /\
              (exists t, 25 <= t <= 44 /\ s_estimatedTime r = of_Z t))
           fallbackSafetyRoutes).
  { repeat constructor; cbn; [exists 80 | exists 30]; split; (lia || reflexivity). }
  destruct response as [[items | v] | error]; cbn [getRecommendations].
  - destruct (In_Nullish_dec items) as [Hin | Hno].
    + destruct (first_nullish items Hin) as (recs & rest & ->).
      rewrite array_map_try_nullish.
      exists fallbackSafetyRoutes. split; [reflexivity|]. split; [exact Hfallback|].
      split; [|split; reflexivity]. split; [intros Hno; contradiction | reflexivity].
    + destruct (items_of_recs items Hno) as [recs ->].
      rewrite array_map_try_items.
      pose proof (array_map_safetyRoute recs w) as H.
      destruct (array_map safetyRoute recs w) as [routes w'].
      destruct H as (_ & _ & Hl & Hi). cbn [fst snd].
      exists routes. split; [reflexivity|]. split; [|split; [|split; reflexivity]].
      * apply Forall_lookup. intros i r Hr. destruct (Hi i r Hr) as [-> ->].
        split; [apply score_range | apply time_range]; apply Hrand.
      * split; [|intros Hin; contradiction].
        intros _. split; [now rewrite length_fmap | exact Hi].
  - exists fallbackSafetyRoutes. split; [reflexivity|]. split; [exact Hfallback|].
    split; [reflexivity | split; reflexivity].
  - exists fallbackSafetyRoutes. split; [reflexivity|]. split; [exact Hfallback|].
    split; [reflexivity | split; reflexivity].
Qed.

(** Every value on the example tape is a value [Math.random] may return. *)
Lemma tape_is_random (i : nat) : is_random_value (Examples.tape i) = true.
Proof.
  unfold Examples.tape.
  destruct ((i =? 2)%nat || (i =? 4)%nat); vm_compute; reflexivity.
Qed.

(** An instance: one recommendation and the example tape. *)
Lemma getSafetyFocusedRoutes_ranges_witness :
  exists routes,
    fst (getSafetyFocusedRoutes Examples.here Examples.there
           (Fulfilled (DataArray Examples.recs1)) Examples.world0)
      = Fulfilled routes /\
    Forall (fun r =>
              (exists k, 70 <= k <= 99 /\ s_safetyScore r = of_Z k) /\
              (exists t, 25 <= t <= 44 /\ s_estimatedTime r = of_Z t)) routes.
Proof.
  destruct (getSafetyFocusedRoutes_ranges Examples.here Examples.there
              (Fulfilled (DataArray Examples.recs1)) Examples.world0
              tape_is_random) as (routes & H1 & H2 & _).
  exists routes. split; assumption.
Defined.

(** C1, as stated, fails on the code: two calls of
    [getOptimizedRouteSuggestions] with the same start, end and
    preferences, the same answer of the recommendations endpoint and no
    threat reported in between return safetyScore 0 and then 50 for the
    same recommendation, because each call draws new values from
    [Math.random]. *)
Lemma getOptimizedRouteSuggestions_not_idempotent :
  let call := getOptimizedRouteSuggestions Examples.here Examples.there Examples.noPreferences
                (Fulfilled (DataArray Examples.recs1)) in
  let '(first, w1) := call Examples.world0 in
  let '(second, _) := call w1 in
  reportedThreats w1 = reportedThreats Examples.world0 /\
  scoresOf first = [of_Z 0] /\
  scoresOf second = [of_Z 50] /\
  scoresOf first <> scoresOf second.
Proof. vm_compute. repeat split; discriminate. Qed.

(** C1, amended.  [getOptimizedRouteSuggestions] is deterministic relative
    to the answer of the recommendations endpoint and to the values
    [Math.random] returns: two calls that see the same answer and the same
    coming draws settle with the same value, whatever the start, the end
    and the preferences are; nothing else (console, reported threats)
    influences the result. *)
Theorem getOptimizedRouteSuggestions_deterministic_in_draws
    (startLocation endLocation preferences : Any)
    (startLocation' endLocation' preferences' : Any)
    (response : Settled Payload) (w w' : World) :
  same_draws w w' ->
  fst (getOptimizedRouteSuggestions startLocation endLocation preferences
         response w)
  = fst (getOptimizedRouteSuggestions startLocation' endLocation' preferences'
           response w').
Proof.
  intros H. unfold getOptimizedRouteSuggestions.
  destruct response as [[items | v] | error]; cbn [getRecommendations];
    [|reflexivity|reflexivity].
  pose proof (same_draws_array_map_try optimizedRoute same_draws_optimizedRoute
                items w w' H) as E.
  destruct (array_map_try (onItem optimizedRoute) items w) as [[routes | e] w2],
           (array_map_try (onItem optimizedRoute) items w') as [[routes' | e'] w2'];
    cbn in E; try discriminate; [|reflexivity].
  injection E as <-. reflexivity.
Qed.

(** An instance: other arguments and a reported threat, the same draws. *)
Lemma getOptimizedRouteSuggestions_deterministic_in_draws_witness :
  fst (getOptimizedRouteSuggestions Examples.here Examples.there Examples.noPreferences
         (Fulfilled (DataArray Examples.recs1)) Examples.world0)
  = fst (getOptimizedRouteSuggestions Examples.there Examples.here (Prim VUndefined)
           (Fulfilled (DataArray Examples.recs1))
           (postThreat Examples.threat1 Examples.world0)).
Proof.
  apply getOptimizedRouteSuggestions_deterministic_in_draws.
  intros i. reflexivity.
Defined.

(** C3, as stated, fails on the code: with the terrain and the
    recommendations untouched, [getSafetyFocusedRoutes] returns safetyScore
    70 for a route, and after a high-severity threat has been reported it
    returns 85 for the same route; the score went up. *)
Lemma getSafetyFocusedRoutes_score_rises :
  let call := getSafetyFocusedRoutes Examples.here Examples.there
                (Fulfilled (DataArray Examples.recs1)) in
  let '(before, w1) := call Examples.world0 in
  let '(after, _) := call (postThreat Examples.threat1 w1) in
  safetyScoresOf before = [of_Z 70] /\
  safetyScoresOf after = [of_Z 85] /\
  SFltb (of_Z 70) (of_Z 85) = true.
Proof. vm_compute. repeat split. Qed.

(** C3, amended.  The safetyScore computed by [getSafetyFocusedRoutes]
    does not depend on the reported threats: with the answer of the
    recommendations endpoint and the random draws held fixed, replacing
    the threat reports by any others (one more threat, a higher severity)
    leaves every returned route, and so every safetyScore, unchanged. *)
Theorem getSafetyFocusedRoutes_ignores_threats
    (startLocation endLocation : Any) (response : Settled Payload)
    (ts : list PostedThreat) (w : World) :
  fst (getSafetyFocusedRoutes startLocation endLocation response
         (withThreats ts w))
  = fst (getSafetyFocusedRoutes startLocation endLocation response w).
Proof.
  unfold getSafetyFocusedRoutes.
  destruct response as [[items | v] | error]; cbn [getRecommendations];
    [|reflexivity|reflexivity].
  assert (H : same_draws (withThreats ts w) w) by (intros i; reflexivity).
  pose proof (same_draws_array_map_try safetyRoute same_draws_safetyRoute
                items _ _ H) as E.
  destruct (array_map_try (onItem safetyRoute) items (withThreats ts w))
             as [[routes | e] w2],
           (array_map_try (onItem safetyRoute) items w) as [[routes' | e'] w2'];
    cbn in E; try discriminate; [|reflexivity].
  injection E as <-. reflexivity.
Qed.

End AiRouteOptimizerClaims.

(** ** components/AlertsPage.jsx *)

Section AlertsPageClaims.

Import AlertsPage.

Lemma markOne_match (id : Value) (alert : Object) :
  strict_equal (get alert "id") id = true ->
  markOne id alert !! "read" = Some (VBool true) /\
  forall k, k <> "read" -> markOne id alert !! k = alert !! k.
Proof.
  intros H. unfold markOne. rewrite H. split.
  - apply lookup_insert_eq.
  - intros k Hk. now apply lookup_insert_ne.
Qed.

Lemma markOne_other (id : Value) (alert : Object) :
  strict_equal (get alert "id") id = false -> markOne id alert = alert.
Proof. intros H. unfold markOne. now rewrite H. Qed.

(** C10. [markAsRead(id)] keeps the length and the order of the alerts
    list and leaves the filter and sort settings alone; the alert at each
    position either has an id strictly equal to the argument, and then its
    [read] property becomes [true] while every other property (type,
    title, description, severity, timestamp, location, ...) keeps its
    value or stays absent, or it is returned unchanged. *)
Theorem markAsRead_frame (id : Value) (st : State) :
  length (alerts (markAsRead id st)) = length (alerts st) /\
  filterType (markAsRead id st) = filterType st /\
  sortBy (markAsRead id st) = sortBy st /\
  forall (i : nat) (alert : Object), alerts st !! i = Some alert ->
    exists alert', alerts (markAsRead id st) !! i = Some alert' /\
      (strict_equal (get alert "id") id = true ->
         alert' !! "read" = Some (VBool true) /\
         forall k, k <> "read" -> alert' !! k = alert !! k) /\
      (strict_equal (get alert "id") id = false -> alert' = alert).
Proof.
  split; [cbn; apply length_fmap|]. split; [reflexivity|]. split; [reflexivity|].
  intros i alert Hi. exists (markOne id alert). split.
  - cbn. rewrite list_lookup_fmap, Hi. reflexivity.
  - split; [apply markOne_match | apply markOne_other].
Qed.

(** On the sample data, marking alert 1 keeps the three alerts in place;
    alerts 2 and 3 are the same objects as before. *)
Lemma markAsRead_frame_witness :
  let st0 := initialState "2026-01-01T11:00:00Z" "2026-01-01T10:00:00Z"
               "2026-01-01T07:00:00Z" in
  let st := markAsRead (VNumber (of_Z 1)) st0 in
  length (alerts st) = 3%nat /\
  alerts st !! 1%nat = alerts st0 !! 1%nat /\
  alerts st !! 2%nat = alerts st0 !! 2%nat.
Proof.
  cbn zeta.
  destruct (markAsRead_frame (VNumber (of_Z 1))
              (initialState "2026-01-01T11:00:00Z" "2026-01-01T10:00:00Z"
                 "2026-01-01T07:00:00Z")) as (Hlen & _ & _ & Hi).
  split; [exact Hlen|]. split; reflexivity.
Defined.

End AlertsPageClaims.

(** ** The routing core *)

Section CoreFacts.

Import Core.

Local Open Scope Q_scope.

Variable haversine : Coordinate -> Coordinate -> Q.

Lemma sumQ_nonneg (l : list Q) : Forall (fun x => 0 <= x) l -> 0 <= sumQ l.
Proof.
  induction 1 as [|x l Hx _ IH]; [apply Qle_refl|].
  change (0 <= x + sumQ l). cbv beta in Hx. lra.
Qed.

(** Picking the best element of a non-empty list picks one of its elements. *)
Lemma fold_left_choice {A : Type} (choose : A -> A -> A) (l : list A) (x : A) :
  (forall best c, choose best c = c \/ choose best c = best) ->
  In (fold_left choose l x) (x :: l).
Proof.
  intros Hch. revert x. induction l as [|y l IH]; intros x; cbn [fold_left].
  - now left.
  - destruct (Hch x y) as [-> | ->].
    + right. apply IH.
    + destruct (IH x) as [H | H]; [now left | right; now right].
Qed.

Lemma Qle_bool_false (x y : Q) : Qle_bool x y = false -> y < x.
Proof.
  intros H. apply Qnot_le_lt. intros Hle.
  apply Qle_bool_iff in Hle. congruence.
Qed.

(** C2. The cost of a segment is
    [baseDistance * (1 + terrainPenalty) * (1 + threatPenalty)]; the threat
    penalty is the sum, over the live threats of the index, of a contribution
    that is [severityWeight * (1 - distance/margin)] within the safety-margin
    radius (linear in the distance) and exactly zero beyond it; the weights
    are 1, 3 and 8 for low, medium and high. *)
Theorem scoreSegment_cost (cfg : Config) (idx : GeoIndex) (now : Z)
    (profile : TerrainProfile) (from to : Coordinate) :
  cost (scoreSegment haversine cfg idx now profile from to)
    = baseDistance haversine from to
      * (1 + terrainPenalty haversine cfg idx profile from to)
      * (1 + threatPenalty haversine cfg idx now from to)
  /\ threatPenalty haversine cfg idx now from to
     == sumQ (map (fun t => threatContribution cfg
                              (segmentDistance haversine t from to) (severity t))
                  (List.filter (live cfg now) (threats idx)))
  /\ (forall d s, d <= margin cfg ->
        threatContribution cfg d s = severityWeight s * (1 - d / margin cfg))
  /\ (forall d s, margin cfg < d -> threatContribution cfg d s = 0)
  /\ severityWeight low = 1 /\ severityWeight medium = 3 /\ severityWeight high = 8.
Proof.
  split; [reflexivity|]. split; [|split; [|split]].
  - unfold threatPenalty, nearbyThreats.
    induction (threats idx) as [|t l IH]; [reflexivity|].
    cbn [List.filter]. destruct (live cfg now t); cbn [andb]; [|exact IH].
    cbn [map]. unfold threatContribution at 1.
    destruct (Qle_bool (segmentDistance haversine t from to) (margin cfg));
      cbn [map sumQ fold_right] in *.
    + rewrite IH. reflexivity.
    + rewrite IH. symmetry. apply Qplus_0_l.
  - intros d s H. unfold threatContribution.
    apply Qle_bool_iff in H. now rewrite H.
  - intros d s H. unfold threatContribution.
    destruct (Qle_bool d (margin cfg)) eqn:E; [|reflexivity].
    apply Qle_bool_iff in E. lra.
  - repeat split.
Qed.

(** *** The penalties are non-negative *)

Lemma validConfig_bounds (cfg : Config) :
  validConfig cfg = true ->
  0 < margin cfg /\ 0 <= visibilityWeight cfg /\ 0 <= coverWeight cfg /\
  0 <= k cfg.
Proof.
  unfold validConfig. intros Hc.
  apply andb_prop in Hc as [Hc Hk]. apply andb_prop in Hc as [Hc Hw2].
  apply andb_prop in Hc as [Hm Hw1].
  apply negb_true_iff, Qle_bool_false in Hm.
  apply Qle_bool_iff in Hw1, Hw2, Hk. repeat split; assumption.
Qed.




Lemma severityWeight_pos (s : Severity) : 0 < severityWeight s.
Proof. destruct s; reflexivity. Qed.

Lemma threatTerm_nonneg (cfg : Config) (d w : Q) :
  0 < margin cfg -> 0 <= w -> d <= margin cfg -> 0 <= w * (1 - d / margin cfg).
Proof.
  intros Hm Hw Hd. apply Qmult_le_0_compat; [exact Hw|].
  assert (d / margin cfg <= 1) by (apply Qle_shift_div_r; [exact Hm | lra]).
  lra.
Qed.

(** Every report that counts for a segment contributes a non-negative term. *)
Lemma nearbyThreats_terms_nonneg (cfg : Config) (now : Z) (from to : Coordinate)
    (l : list ThreatReport) :
  0 < margin cfg ->
  0 <= sumQ (map (fun t => severityWeight (severity t) *
                           (1 - segmentDistance haversine t from to / margin cfg))
                 (List.filter
                    (fun t => live cfg now t &&
                              Qle_bool (segmentDistance haversine t from to)
                                       (margin cfg)) l)).
Proof.
  intros Hm. apply sumQ_nonneg, List.Forall_forall. intros x Hx.
  apply in_map_iff in Hx as (t & <- & Ht). apply filter_In in Ht as [_ Ht].
  apply andb_prop in Ht as [_ Hd]. apply Qle_bool_iff in Hd.
  apply threatTerm_nonneg;
    [exact Hm | apply Qlt_le_weak, severityWeight_pos | exact Hd].
Qed.



(** *** Admissibility of the heuristic *)

Section Admissible.

(** The properties of the great-circle distance the argument uses. *)
Hypothesis haversine_nonneg : forall a b, 0 <= haversine a b.
Hypothesis haversine_same : forall a, haversine a a == 0.
Hypothesis haversine_triangle :
  forall a b c, haversine a c <= haversine a b + haversine b c.





End Admissible.

(** *** The safety score of the specified scorer falls as threats grow *)

Lemma sumQ_app (l l' : list Q) : sumQ (l ++ l') == sumQ l + sumQ l'.
Proof.
  induction l as [|x l IH]; [symmetry; apply Qplus_0_l|].
  change (x + sumQ (l ++ l') == x + sumQ l + sumQ l').
  rewrite IH. apply Qplus_assoc.
Qed.

Lemma threatPenalty_mono (cfg : Config) (idx idx' : GeoIndex) (now : Z)
    (from to : Coordinate) :
  validConfig cfg = true -> moreThreats idx idx' ->
  threatPenalty haversine cfg idx now from to
    <= threatPenalty haversine cfg idx' now from to.
Proof.
  intros Hc (l' & extra & Hesc & Heq).
  pose proof (proj1 (validConfig_bounds cfg Hc)) as Hm.
  unfold threatPenalty, nearbyThreats. rewrite Heq.
  rewrite List.filter_app, List.map_app, sumQ_app.
  set (near := fun t => live cfg now t &&
                        Qle_bool (segmentDistance haversine t from to) (margin cfg)).
  set (term := fun t => severityWeight (severity t) *
                        (1 - segmentDistance haversine t from to / margin cfg)).
  pose proof (nearbyThreats_terms_nonneg cfg now from to extra Hm) as Hextra.
  fold near term in Hextra.
  enough (sumQ (map term (List.filter near (threats idx)))
          <= sumQ (map term (List.filter near l'))) by lra.
  clear Heq Hextra.
  induction Hesc as [|t t' l1 l2 (Hloc & Htime & Hw) _ IH]; [apply Qle_refl|].
  cbn [List.filter].
  assert (Hnear : near t' = near t).
  { unfold near, live, segmentDistance. now rewrite Hloc, Htime. }
  rewrite Hnear. destruct (near t) eqn:E; [|exact IH].
  change (term t + sumQ (map term (List.filter near l1))
          <= term t' + sumQ (map term (List.filter near l2))).
  assert (term t <= term t').
  { unfold term, segmentDistance. rewrite <- Hloc.
    unfold near in E. apply andb_prop in E as [_ Hd]. apply Qle_bool_iff in Hd.
    unfold segmentDistance in Hd.
    set (d := Qmin (haversine (location t) from) (haversine (location t) to)) in *.
    assert (d / margin cfg <= 1) by (apply Qle_shift_div_r; [exact Hm | lra]).
    apply Qmult_le_compat_r; [exact Hw | lra]. }
  lra.
Qed.

Lemma minQ_mono (d : Q) (l l' : list Q) :
  Forall2 Qle l l' -> minQ d l <= minQ d l'.
Proof.
  induction 1 as [|x y l l' Hxy _ IH]; [apply Qle_refl|].
  change (Qmin x (minQ d l) <= Qmin y (minQ d l')).
  apply Q.min_le_compat; assumption.
Qed.

(** With the path held fixed, reports that are added or escalated never
    raise the safety score the scorer of section 4.2 gives to the path. *)
Lemma routeSafetyScore_antitone (cfg : Config) (idx idx' : GeoIndex) (now : Z)
    (profile : TerrainProfile) (p : list Coordinate) :
  validConfig cfg = true -> moreThreats idx idx' ->
  routeSafetyScore haversine cfg idx' now profile p
    <= routeSafetyScore haversine cfg idx now profile p.
Proof.
  intros Hc Hmore. unfold routeSafetyScore. apply minQ_mono.
  induction (segments p) as [|[from to] segs IH]; cbn [map]; constructor;
    [|exact IH].
  cbn [scoreSegment safetyContribution fst snd].
  pose proof (threatPenalty_mono cfg idx idx' now from to Hc Hmore) as Hth.
  pose proof (validConfig_bounds cfg Hc) as (_ & _ & _ & Hk).
  assert (threatPenalty haversine cfg idx now from to * k cfg
          <= threatPenalty haversine cfg idx' now from to * k cfg)
    by (apply Qmult_le_compat_r; assumption).
  assert (Qmin 100 (threatPenalty haversine cfg idx now from to * k cfg)
          <= Qmin 100 (threatPenalty haversine cfg idx' now from to * k cfg))
    by (apply Q.min_le_compat; [apply Qle_refl | assumption]).
  lra.
Qed.

(** *** Planning from a point to itself *)

Lemma snap_In (cfg : Config) (g : list GraphNode) (c : Coordinate) (n : GraphNode) :
  snap haversine cfg g c = Some n -> In n g.
Proof.
  unfold snap. destruct g as [|first rest]; [discriminate|].
  destruct (Qle_bool _ _); [|discriminate].
  intros [= <-]. apply fold_left_choice.
  intros best v. destruct (Qlt_le_dec _ _); [now left | now right].
Qed.

Lemma nodeAt_In (g : list GraphNode) (n : GraphNode) :
  In n g -> exists v, nodeAt g (nodeId n) = Some v.
Proof.
  intros Hin. unfold nodeAt.
  destruct (find (fun v => (nodeId v =? nodeId n)%nat) g) as [v|] eqn:E.
  - now exists v.
  - apply (find_none _ _ E) in Hin. cbn in Hin.
    rewrite Nat.eqb_refl in Hin. discriminate.
Qed.

Lemma search_at_goal (cfg : Config) (g : list GraphNode) (idx : GeoIndex)
    (now : Z) (profile : TerrainProfile) (goal : GraphNode) (fuel : nat) :
  search haversine cfg g idx now profile goal (S fuel) (initialSearch goal)
    = Ok [nodeId goal].
Proof.
  cbn [search]. unfold pickBest. cbn [initialSearch openSet fold_left parent].
  rewrite Nat.eqb_refl. f_equal.
  destruct (length g); cbn [walkBack]; [reflexivity|].
  now rewrite lookup_empty.
Qed.

Lemma sameCoordinate_refl (c : Coordinate) : sameCoordinate c c = true.
Proof.
  unfold sameCoordinate. apply andb_true_intro.
  split; apply Qeq_bool_iff; reflexivity.
Qed.

(** C7, amended.  For every coordinate [c] that is in range,
    [planRoute(c, c, profile)] does not fail: it returns an active route
    whose path is the single point [c], of total distance 0 and safety
    score exactly 100, whether or not a graph node is near [c].  Where [c]
    does snap to a node, the A* search from that node to itself stops at
    its first round with the path of that single node, so the edge case
    agrees with what the search would give. *)
Theorem planRoute_same_point (cfg : Config) (g : list GraphNode) (idx : GeoIndex)
    (now : Z) (rid : nat) (c : Coordinate) (profile : TerrainProfile) :
  validCoordinate c = true ->
  (exists r,
     planRoute haversine cfg g idx now rid c c profile = Ok r /\
     path r = [c] /\
     totalDistance r = 0 /\
     safetyScore r = 100 /\
     status r = active) /\
  (forall n, snap haversine cfg g c = Some n ->
     search haversine cfg g idx now profile n (S (deadline cfg)) (initialSearch n)
       = Ok [nodeId n] /\
     length (positionsOf g [nodeId n]) = 1%nat).
Proof.
  intros Hv. split.
  - unfold planRoute. rewrite Hv, sameCoordinate_refl. cbn [andb negb].
    eexists. split; [reflexivity|]. repeat split.
  - intros n Hs. split; [apply search_at_goal|].
    destruct (nodeAt_In g n (snap_In cfg g c n Hs)) as [v Hv'].
    cbn [positionsOf]. now rewrite Hv'.
Qed.

(** *** Threats far from every active route *)

Lemma minQ_le (d m : Q) (l : list Q) :
  minQ d l <= m -> d <= m \/ exists x, In x l /\ x <= m.
Proof.
  induction l as [|x l IH]; cbn [minQ fold_right]; intros H.
  - now left.
  - apply Q.min_le_iff in H as [H | H].
    + right. exists x. split; [now left | exact H].
    + destruct (IH H) as [Hd | (y & Hy & Hle)]; [now left|].
      right. exists y. split; [now right | exact Hle].
Qed.

Lemma isActive_status (e : Entry) : isActive e = true <-> status (route e) = active.
Proof. unfold isActive. destruct (status (route e)); split; congruence. Qed.

Lemma threatens_within (cfg : Config) (t : ThreatReport) (e : Entry) :
  threatens haversine cfg t e = true ->
  status (route e) = active /\
  atLeastMedium (severity t) = true /\
  exists p, In p (path (route e)) /\ haversine (location t) p <= margin cfg.
Proof.
  unfold threatens. intros H.
  apply andb_prop in H as [H Hsev]. apply andb_prop in H as [Hact Hd].
  split; [now apply isActive_status|]. split; [exact Hsev|].
  unfold minDistance in Hd. destruct (path (route e)) as [|x xs]; [discriminate|].
  apply Qle_bool_iff, minQ_le in Hd as [Hd | (y & Hy & Hle)].
  - exists x. split; [now left | exact Hd].
  - apply in_map_iff in Hy as (p & <- & Hp).
    exists p. split; [now right | exact Hle].
Qed.

Lemma dirtySet_In (cfg : Config) (t : ThreatReport) (l : list Entry) (rid : nat) :
  In rid (dirtySet haversine cfg t l) ->
  exists e, In e l /\ routeId (route e) = rid /\ threatens haversine cfg t e = true.
Proof.
  unfold dirtySet. intros H. apply in_map_iff in H as (e & <- & He).
  apply filter_In in He as [He Ht]. now exists e.
Qed.

(** C6. A threat report that is farther than the safety-margin radius from
    every point of the path of every active route triggers nothing: the
    dirty set is empty, no replan is invoked, no update event is emitted and
    the registered routes are exactly as before (none superseded).  In
    general a route id enters the dirty set only for an active route with a
    path point within the margin of the threat and a severity of at least
    medium. *)
Theorem far_threat_no_replan (cfg : Config) (g : list GraphNode) (now : Z)
    (report : ThreatReport) (m : Monitor) :
  (forall e, In e (entries m) -> status (route e) = active ->
     forall p, In p (path (route e)) ->
       margin cfg < haversine (location report) p) ->
  dirtySet haversine cfg report (entries m) = [] /\
  (let '(outcome, m') := ingest haversine cfg g now report m in
   entries m' = entries m /\ replans m' = replans m /\
   events m' = events m /\ failures m' = failures m /\
   forall tid dirty, outcome = Ok (tid, dirty) -> dirty = []) /\
  (forall report' rid, In rid (dirtySet haversine cfg report' (entries m)) ->
     exists e, In e (entries m) /\ routeId (route e) = rid /\
       status (route e) = active /\
       atLeastMedium (severity report') = true /\
       exists p, In p (path (route e)) /\
         haversine (location report') p <= margin cfg).
Proof.
  intros Hfar.
  assert (Hnil : dirtySet haversine cfg report (entries m) = []).
  { destruct (dirtySet haversine cfg report (entries m)) as [|rid rest] eqn:E;
      [reflexivity|]. exfalso.
    destruct (dirtySet_In cfg report (entries m) rid) as (e & He & _ & Ht);
      [rewrite E; now left|].
    apply threatens_within in Ht as (Hact & _ & p & Hp & Hle).
    specialize (Hfar e He Hact p Hp). lra. }
  split; [exact Hnil|]. split.
  - unfold ingest. destruct (ingestThreat (geo m) report) as [[tid idx']|err].
    + cbn [entries]. rewrite Hnil. cbn [fold_left entries replans events failures].
      repeat split. now intros tid' dirty [= _ <-].
    + repeat split. intros tid dirty [=].
  - intros report' rid Hin.
    destruct (dirtySet_In cfg report' (entries m) rid Hin) as (e & He & Hid & Ht).
    apply threatens_within in Ht as (Hact & Hsev & Hp).
    exists e. repeat split; assumption.
Qed.

(** *** The route life cycle *)

Lemma activeCount_cons (j : nat) (e : Entry) (l : list Entry) :
  activeCount j (e :: l)
  = ((if isActive e && (journey e =? j)%nat then 1 else 0) + activeCount j l)%nat.
Proof.
  unfold activeCount. cbn [List.filter].
  destruct (isActive e && (journey e =? j)%nat); reflexivity.
Qed.

Lemma activeCount_app (j : nat) (l l' : list Entry) :
  activeCount j (l ++ l') = (activeCount j l + activeCount j l')%nat.
Proof.
  induction l as [|e l IH]; [reflexivity|].
  cbn [app]. rewrite !activeCount_cons, IH. lia.
Qed.

(** A pass over the entries that keeps the journeys and activates nothing
    does not raise the number of active routes of a journey. *)
Lemma activeCount_map_le (j : nat) (f : Entry -> Entry) (l : list Entry) :
  (forall e, journey (f e) = journey e) ->
  (forall e, isActive (f e) = true -> isActive e = true) ->
  (activeCount j (map f l) <= activeCount j l)%nat.
Proof.
  intros Hj Ha. induction l as [|e l IH]; [reflexivity|].
  cbn [map]. rewrite !activeCount_cons, Hj.
  destruct (isActive (f e)) eqn:E.
  - rewrite (Ha e E). lia.
  - cbn [andb]. lia.
Qed.

Lemma withStatus_journey (st : RouteStatus) (e : Entry) :
  journey (withStatus st e) = journey e.
Proof. reflexivity. Qed.

Lemma setStatus_le (j rid : nat) (st : RouteStatus) (l : list Entry) :
  (activeCount j (setStatus rid st l) <= activeCount j l)%nat.
Proof.
  apply activeCount_map_le.
  - intros e. destruct (_ && _); reflexivity.
  - intros e. destruct ((routeId (route e) =? rid)%nat && isActive e) eqn:E;
      [|trivial].
    intros _. now apply andb_prop in E as [_ E].
Qed.

(** Leaving [active] removes the route from the active routes of its journey. *)
Lemma setStatus_lt (rid : nat) (st : RouteStatus) (l : list Entry) (e : Entry) :
  st <> active ->
  lookupEntry rid l = Some e -> isActive e = true ->
  (activeCount (journey e) (setStatus rid st l) < activeCount (journey e) l)%nat.
Proof.
  intros Hst. induction l as [|x l IH]; [discriminate|].
  unfold lookupEntry. cbn [find]. intros Hfind Hact.
  change (setStatus rid st (x :: l))
    with ((if (routeId (route x) =? rid)%nat && isActive x
           then withStatus st x else x) :: setStatus rid st l).
  rewrite !activeCount_cons.
  destruct (routeId (route x) =? rid)%nat eqn:Eid.
  - injection Hfind as ->. rewrite Hact. cbn [andb].
    rewrite Nat.eqb_refl.
    assert (isActive (withStatus st e) = false) as ->
      by (unfold isActive; cbn; destruct st; congruence).
    cbn [andb]. rewrite ?Nat.eqb_refl.
    pose proof (setStatus_le (journey e) rid st l). lia.
  - cbn [andb]. specialize (IH Hfind Hact). lia.
Qed.

Lemma activeCount_fresh (j : nat) (l : list Entry) :
  (forall e, In e l -> (journey e < j)%nat) -> activeCount j l = 0%nat.
Proof.
  induction l as [|e l IH]; intros H; [reflexivity|].
  rewrite activeCount_cons, IH by (intros x Hx; apply H; now right).
  assert (journey e < j)%nat as Hlt by (apply H; now left).
  apply Nat.lt_neq, Nat.eqb_neq in Hlt. rewrite Hlt.
  now rewrite andb_false_r.
Qed.

(** A pass over the entries that keeps the ids and does not touch the routes
    that are no longer active keeps what [lookupEntry] answers for them. *)
Lemma lookupEntry_map (rid : nat) (f : Entry -> Entry) (l : list Entry) (e : Entry) :
  (forall x, routeId (route (f x)) = routeId (route x)) ->
  (forall x, isActive x = false -> f x = x) ->
  lookupEntry rid l = Some e -> isActive e = false ->
  lookupEntry rid (map f l) = Some e.
Proof.
  intros Hid Hkeep. unfold lookupEntry.
  induction l as [|x l IH]; [discriminate|].
  cbn [map find]. rewrite Hid.
  destruct (routeId (route x) =? rid)%nat.
  - intros [= ->] Hina. now rewrite Hkeep.
  - exact IH.
Qed.

Lemma lookupEntry_app (rid : nat) (l l' : list Entry) (e : Entry) :
  lookupEntry rid l = Some e -> lookupEntry rid (l ++ l') = Some e.
Proof.
  unfold lookupEntry. induction l as [|x l IH]; [discriminate|].
  cbn [app find]. destruct (routeId (route x) =? rid)%nat; [trivial | exact IH].
Qed.

Lemma lookupEntry_setStatus (rid rid' : nat) (st : RouteStatus) (l : list Entry)
    (e : Entry) :
  lookupEntry rid l = Some e -> isActive e = false ->
  lookupEntry rid (setStatus rid' st l) = Some e.
Proof.
  apply lookupEntry_map.
  - intros x. destruct (_ && _); reflexivity.
  - intros x Hx. rewrite Hx. now rewrite andb_false_r.
Qed.

Lemma In_setStatus_journey (rid : nat) (st : RouteStatus) (l : list Entry) (e : Entry) :
  In e (setStatus rid st l) -> exists x, In x l /\ journey e = journey x.
Proof.
  unfold setStatus. intros H. apply in_map_iff in H as (x & <- & Hx).
  exists x. split; [exact Hx|]. destruct (_ && _); reflexivity.
Qed.

Lemma lookupEntry_In (rid : nat) (l : list Entry) (e : Entry) :
  lookupEntry rid l = Some e -> In e l.
Proof. intros H. now apply find_some in H as [H _]. Qed.

Lemma replan_invariant (cfg : Config) (g : list GraphNode) (now : Z)
    (m : Monitor) (rid : nat) :
  monitorInvariant m ->
  monitorInvariant (replan haversine cfg g now m rid) /\
  keepsSettled m (replan haversine cfg g now m rid).
Proof.
  intros [Hone Hj]. unfold replan.
  assert (Hsame : monitorInvariant m /\ keepsSettled m m)
    by (split; [now split | now intros ? ? ? ?]).
  destruct (lookupEntry rid (entries m)) as [e|] eqn:Hfind; [|exact Hsame].
  destruct (isActive e) eqn:Hact; [|exact Hsame].
  destruct (endpoints e) as [[from to]|]; [|exact Hsame].
  destruct (planRoute _ _ _ _ _ _ _ _ _) as [r|err]; [|exact Hsame].
  destruct (Qlt_le_dec _ _); [|exact Hsame].
  split; [split|]; cbn [entries nextJourney].
  - intros j. rewrite activeCount_app, activeCount_cons. cbn [journey isActive route status andb].
    change (activeCount j []) with 0%nat.
    destruct (journey e =? j)%nat eqn:Ej.
    + apply Nat.eqb_eq in Ej. subst j.
      pose proof (setStatus_lt rid superseded (entries m) e
                    ltac:(discriminate) Hfind Hact).
      specialize (Hone (journey e)). lia.
    + pose proof (setStatus_le j rid superseded (entries m)).
      specialize (Hone j). lia.
  - intros x Hx. apply in_app_or in Hx as [Hx | [<- | []]].
    + apply In_setStatus_journey in Hx as (y & Hy & ->). now apply Hj.
    + cbn [journey]. apply Hj. now apply lookupEntry_In in Hfind.
  - intros rid' x Hx Hina. cbn [entries].
    apply lookupEntry_app. now apply lookupEntry_setStatus.
Qed.

Lemma keepsSettled_trans (m1 m2 m3 : Monitor) :
  keepsSettled m1 m2 -> keepsSettled m2 m3 -> keepsSettled m1 m3.
Proof. intros H12 H23 rid e H Hina. apply H23; [now apply H12 | exact Hina]. Qed.

Lemma replans_invariant (cfg : Config) (g : list GraphNode) (now : Z)
    (dirty : list nat) (m : Monitor) :
  monitorInvariant m ->
  monitorInvariant (fold_left (replan haversine cfg g now) dirty m) /\
  keepsSettled m (fold_left (replan haversine cfg g now) dirty m).
Proof.
  revert m. induction dirty as [|rid dirty IH]; intros m Hinv; cbn [fold_left].
  - split; [exact Hinv | now intros ? ? ? ?].
  - destruct (replan_invariant cfg g now m rid Hinv) as [H1 K1].
    destruct (IH _ H1) as [H2 K2].
    split; [exact H2 | exact (keepsSettled_trans _ _ _ K1 K2)].
Qed.

Lemma finishRoute_invariant (rid : nat) (st : RouteStatus) (m : Monitor) :
  monitorInvariant m ->
  monitorInvariant (snd (finishRoute rid st m)) /\
  keepsSettled m (snd (finishRoute rid st m)).
Proof.
  intros [Hone Hj]. unfold finishRoute.
  destruct (lookupEntry rid (entries m));
    [|split; [now split | now intros ? ? ? ?]].
  cbn [snd]. split; [split|]; cbn [entries nextJourney].
  - intros j. pose proof (setStatus_le j rid st (entries m)).
    specialize (Hone j). lia.
  - intros x Hx. apply In_setStatus_journey in Hx as (y & Hy & ->). now apply Hj.
  - intros rid' x Hx Hina. now apply lookupEntry_setStatus.
Qed.

Lemma step_invariant (cfg : Config) (g : list GraphNode) (m : Monitor)
    (timed : Z * Request) :
  monitorInvariant m ->
  monitorInvariant (step haversine cfg g m timed) /\
  keepsSettled m (step haversine cfg g m timed).
Proof.
  intros Hinv. pose proof Hinv as [Hone Hj].
  assert (Hsame : monitorInvariant m /\ keepsSettled m m)
    by (split; [exact Hinv | now intros ? ? ? ?]).
  destruct timed as [now [start finish profile | report | rid | rid | rid c
                         | rid stars text]];
    unfold step; cbn [fst snd].
  - (* calculate *)
    unfold calculate.
    destruct (planRoute _ _ _ _ _ _ _ _ _) as [r|err]; [|exact Hsame].
    cbn [snd]. split; [split|]; cbn [entries nextJourney].
    + intros j. rewrite activeCount_app, activeCount_cons. cbn [journey].
      change (activeCount j []) with 0%nat.
      destruct (nextJourney m =? j)%nat eqn:Ej.
      * apply Nat.eqb_eq in Ej. subst j.
        rewrite (activeCount_fresh _ _ Hj).
        destruct (isActive _ && true); lia.
      * rewrite andb_false_r. specialize (Hone j). lia.
    + intros x Hx. apply in_app_or in Hx as [Hx | [<- | []]].
      * specialize (Hj x Hx). lia.
      * cbn [journey]. lia.
    + intros rid x Hx Hina. cbn [entries]. now apply lookupEntry_app.
  - (* a threat report *)
    unfold ingest.
    destruct (ingestThreat (geo m) report) as [[tid idx']|err]; [|exact Hsame].
    cbn [snd].
    match goal with |- context [fold_left _ ?d ?m1] =>
      destruct (replans_invariant cfg g now d m1) as [H K] end;
      [split; [exact Hone | exact Hj]|].
    split; [exact H | exact K].
  - (* completed *)
    now apply finishRoute_invariant.
  - (* cancelled *)
    now apply finishRoute_invariant.
  - (* a position report *)
    unfold reportPosition.
    destruct (validCoordinate c); [|exact Hsame].
    destruct (lookupEntry rid (entries m)); [|exact Hsame].
    cbn [snd]. split; [split|]; cbn [entries nextJourney].
    + intros j. specialize (Hone j).
      eapply Nat.le_trans; [apply activeCount_map_le | exact Hone].
      * intros x. destruct (_ && _); reflexivity.
      * intros x. destruct (_ && _); trivial.
    + intros x Hx. apply in_map_iff in Hx as (y & <- & Hy).
      specialize (Hj y Hy). destruct (_ && _); exact Hj.
    + intros rid' x Hx Hina. cbn [entries].
      apply lookupEntry_map; [| |exact Hx|exact Hina].
      * intros y. destruct (_ && _); reflexivity.
      * intros y Hy. rewrite Hy. now rewrite andb_false_r.
  - (* feedback *)
    unfold recordFeedback.
    destruct (lookupEntry rid (entries m)); [|exact Hsame].
    cbn [snd]. split; [split; [exact Hone | exact Hj]|].
    now intros ? ? ? ?.
Qed.

Lemma run_invariant (cfg : Config) (g : list GraphNode)
    (requests : list (Z * Request)) (m : Monitor) :
  monitorInvariant m ->
  monitorInvariant (run haversine cfg g requests m) /\
  keepsSettled m (run haversine cfg g requests m).
Proof.
  unfold run. revert m.
  induction requests as [|rq requests IH]; intros m Hinv; cbn [fold_left].
  - split; [exact Hinv | now intros ? ? ? ?].
  - destruct (step_invariant cfg g m rq Hinv) as [H1 K1].
    destruct (IH _ H1) as [H2 K2].
    split; [exact H2 | exact (keepsSettled_trans _ _ _ K1 K2)].
Qed.

(** C5. Whatever requests the system has served since it started, (1) the
    monitor holds at most one active route per logical journey, and (2) a
    route whose status is superseded, completed or cancelled is final: after
    any further requests the route registered under its id is the very same
    record (same status, path, scores and back-reference), so terminal
    states have no outgoing transition and a superseded route is never
    mutated. *)
Theorem route_lifecycle (cfg : Config) (g : list GraphNode) (idx : GeoIndex)
    (requests more : list (Z * Request)) :
  let m := run haversine cfg g requests (initialMonitor idx) in
  let m' := run haversine cfg g more m in
  (forall j, (activeCount j (entries m) <= 1)%nat) /\
  (forall rid e, lookupEntry rid (entries m) = Some e ->
     status (route e) <> active ->
     lookupEntry rid (entries m') = Some e).
Proof.
  cbn zeta.
  assert (H0 : monitorInvariant (initialMonitor idx)).
  { split; [intros j; cbn; lia | intros e []]. }
  destruct (run_invariant cfg g requests _ H0) as [H1 _].
  split; [exact (proj1 H1)|].
  intros rid e He Hst.
  destruct (run_invariant cfg g more _ H1) as [_ K].
  apply K; [exact He|].
  destruct (isActive e) eqn:E; [|reflexivity].
  now apply isActive_status in E.
Qed.

End CoreFacts.

(** ** The scenario of section 8 and the instances of the theorems *)

Section CoreScenario.

Import Core CoreExamples.

Local Open Scope Q_scope.





(** With no threat and uniform terrain the planner follows the line, the
    cost is the base distance and the safety score is 100. *)
Example scenario_clear :
  exists r,
    planRoute flat cfg0 lineGraph idx0 0 0 p0 p2 urban = Ok r /\
    path r = [p0; p1; p2] /\
    totalDistance r == 2 /\
    pathCost flat cfg0 idx0 0 urban (path r) == 2 /\
    safetyScore r == 100.
Proof. eexists. split; [vm_compute; reflexivity|]. vm_compute. repeat split. Qed.

(** A high-severity threat on the middle node, with margin 1 and no other
    way round: the same path, with a safety score of 20. *)
Example scenario_threat :
  exists idx r,
    ingestThreat idx0 (threatAt p1 high) = Ok (0%nat, idx) /\
    planRoute flat cfg0 lineGraph idx 20 0 p0 p2 urban = Ok r /\
    path r = [p0; p1; p2] /\
    safetyScore r == 20.
Proof.
  eexists. eexists. split; [vm_compute; reflexivity|].
  split; [vm_compute; reflexivity|]. vm_compute. repeat split.
Qed.

(** With a detour available, the same threat makes the monitor replace the
    active route: the old route is superseded, the new one goes through [q],
    is the only active route of the journey and points back to the old one,
    and one update event is emitted. *)
Example scenario_supersede :
  let m := run flat cfg0 diamondGraph
             [(0%Z, Calculate p0 p2 urban);
              (20%Z, ReportThreat (threatAt p1 high))]
             (initialMonitor idx0) in
  map (fun e => (routeId (route e), status (route e), path (route e),
                 supersedesRouteId (route e))) (entries m)
    = [ (0%nat, superseded, [p0; p1; p2], None);
        (1%nat, active, [p0; q; p2], Some 0%nat) ] /\
  events m = [RouteUpdated 0 1] /\
  activeCount 0 (entries m) = 1%nat.
Proof. vm_compute. repeat split. Qed.



(** An instance: planning from a point far from every graph node to
    itself. *)
Lemma planRoute_same_point_witness :
  exists r,
    planRoute flat cfg0 lineGraph idx0 0 0 offGraph offGraph urban = Ok r /\
    path r = [offGraph] /\ totalDistance r = 0 /\
    safetyScore r = 100 /\ status r = active.
Proof.
  exact (proj1 (planRoute_same_point flat cfg0 lineGraph idx0 0%Z 0%nat offGraph
                  urban eq_refl)).
Defined.

(** C7, as stated, fails: an out-of-range coordinate is rejected with
    [InvalidCoordinate], also when start and end coincide. *)
Lemma planRoute_same_point_can_fail :
  validCoordinate outOfRange = false /\
  planRoute flat cfg0 lineGraph idx0 0 0 outOfRange outOfRange urban
    = Err InvalidCoordinate.
Proof. split; vm_compute; reflexivity. Qed.

(** An instance: a high-severity threat at (45, 45), far from the route
    along the line. *)
Lemma far_threat_no_replan_witness :
  dirtySet flat cfg0 (threatAt offGraph high) (entries monitor1) = [] /\
  entries (snd (ingest flat cfg0 lineGraph 20 (threatAt offGraph high) monitor1))
    = entries monitor1.
Proof.
  assert (Hfar : forall e, In e (entries monitor1) -> status (route e) = active ->
            forall p, In p (path (route e)) ->
              margin cfg0 < flat (location (threatAt offGraph high)) p).
  { intros e He _ p Hp. vm_compute in He. destruct He as [<- | []].
    vm_compute in Hp. destruct Hp as [<- | [<- | [<- | []]]]; reflexivity. }
  pose proof (far_threat_no_replan flat cfg0 lineGraph 20%Z
                (threatAt offGraph high) monitor1 Hfar) as (Hd & Hi & _).
  split; [exact Hd|].
  destruct (ingest flat cfg0 lineGraph 20 (threatAt offGraph high) monitor1)
    as [outcome m']. exact (proj1 Hi).
Defined.

End CoreScenario.

(* ===================================================================== *)
(** * Part II, continued: the rest of the frontend                        *)
(* ===================================================================== *)

(** ** More integer literals *)

Lemma of_Z_more_literals :
  of_Z 100 = S754_finite false 7036874417766400 (-46) /\
  of_Z 15 = S754_finite false 8444249301319680 (-49) /\
  of_Z 3 = S754_finite false 6755399441055744 (-51).
Proof. vm_compute. repeat split; reflexivity. Qed.

Lemma floor_random_100 (r : number) :
  is_random_value r = true ->
  exists k, 0 <= k < 100 /\ Math_floor (mul r (of_Z 100)) = of_Z k.
Proof.
  intros Hr. destruct of_Z_more_literals as (-> & _).
  apply floor_random_mul; [exact Hr | | lia |]; vm_compute; intuition congruence.
Qed.

Lemma floor_random_15 (r : number) :
  is_random_value r = true ->
  exists k, 0 <= k < 15 /\ Math_floor (mul r (of_Z 15)) = of_Z k.
Proof.
  intros Hr. destruct of_Z_more_literals as (_ & -> & _).
  apply floor_random_mul; [exact Hr | | lia |]; vm_compute; intuition congruence.
Qed.

Lemma floor_random_3 (r : number) :
  is_random_value r = true ->
  exists k, 0 <= k < 3 /\ Math_floor (mul r (of_Z 3)) = of_Z k.
Proof.
  intros Hr. destruct of_Z_more_literals as (_ & _ & ->).
  apply floor_random_mul; [exact Hr | | lia |]; vm_compute; intuition congruence.
Qed.

Lemma add_of_Z_15 (n : nat) :
  (n < 30)%nat -> add (of_Z (Z.of_nat n)) (of_Z 15) = of_Z (Z.of_nat n + 15).
Proof.
  intros H. do 30 (destruct n as [|n]; [vm_compute; reflexivity|]). lia.
Qed.

Lemma time_range_15 (r : number) :
  is_random_value r = true ->
  exists k, 15 <= k <= 44 /\
    add (Math_floor (mul r (of_Z 30))) (of_Z 15) = of_Z k.
Proof.
  intros Hr. destruct (floor_random_30 r Hr) as (k & Hk & ->).
  exists (k + 15). split; [lia|].
  rewrite <- (Z2Nat.id k) by lia. apply add_of_Z_15. lia.
Qed.

(** ** utils/aiRouteOptimizer.js, the success path and [analyzeRouteEfficiency] *)

Section AiRouteOptimizerMore.

Import Api ApiMore AiRouteOptimizer RouteEfficiency.

(** The route built for the recommendation at index [i] uses the draws
    [3 i], [3 i + 1] and [3 i + 2], in this order. *)
Lemma array_map_optimizedRoute (recs : list Recommendation) (w : World) :
  let '(routes, w') := array_map optimizedRoute recs w in
  entropy w' = entropy w /\
  draws w' = (draws w + 3 * length recs)%nat /\
  console w' = console w /\
  reportedThreats w' = reportedThreats w /\
  length routes = length recs /\
  forall (i : nat) (rec : Recommendation), recs !! i = Some rec ->
    routes !! i =
      Some {| id := rec_id rec;
              name := rec_type rec +:+ " Route";
              description := rec_message rec;
              estimatedTime :=
                add (Math_floor (mul (entropy w (draws w + 3 * i)%nat) (of_Z 30)))
                    (of_Z 15);
              safetyScore :=
                Math_floor (mul (entropy w (draws w + 3 * i + 1)%nat) (of_Z 100));
              trafficLevel :=
                Math_floor (mul (entropy w (draws w + 3 * i + 2)%nat) (of_Z 3)) |}.
Proof.
  revert w. induction recs as [|rec recs IH]; intros w; cbn [array_map].
  - repeat split; [cbn; lia | intros i rec H; discriminate].
  - unfold optimizedRoute at 1, random_below_plus, random_below, Math_random.
    cbn [fst snd].
    match goal with |- context [array_map optimizedRoute recs ?w1] =>
      specialize (IH w1); destruct (array_map optimizedRoute recs w1) as [routes w'] end.
    cbn [entropy draws console reportedThreats] in IH.
    destruct IH as (He & Hd & Hc & Ht & Hl & Hi).
    split; [exact He|]. split; [rewrite Hd; cbn [length]; lia|].
    split; [exact Hc|]. split; [exact Ht|].
    split; [cbn [length]; now rewrite Hl|].
    intros [|i] rec' Hr.
    + cbn in Hr. injection Hr as <-. cbn [entropy draws].
      replace (draws w + 3 * 0)%nat with (draws w) by lia.
      replace (draws w + 1)%nat with (S (draws w)) by lia.
      replace (draws w + 2)%nat with (S (S (draws w))) by lia.
      reflexivity.
    + cbn in Hr. rewrite lookup_cons, (Hi i rec' Hr).
      replace (S (S (S (draws w))) + 3 * i)%nat with (draws w + 3 * S i)%nat by lia.
      reflexivity.
Qed.

(** X1. For an array served by the recommendations endpoint,
    [getOptimizedRouteSuggestions] takes the success path exactly when no
    element is [null] or [undefined].  It then returns one route per
    element, in the order served: id and description are copied, the name
    is the type followed by " Route", estimatedTime is an integer in
    15..44, safetyScore in 0..99 and trafficLevel in 0..2; safetyAlerts is
    the number of elements; three random values are drawn per element and
    nothing is written to the console.  When an element is [null], the
    routes of the elements before the first [null] have been built (three
    draws each), the [TypeError] of [rec.id] is logged and the answer is
    the fallback object. *)
Theorem getOptimizedRouteSuggestions_success
    (startLocation endLocation preferences : Any)
    (items : list Element) (w : World) :
  (forall i, is_random_value (entropy w i) = true) ->
  exists s w',
    getOptimizedRouteSuggestions startLocation endLocation preferences
      (Fulfilled (DataArray items)) w = (Fulfilled s, w') /\
    (~ In Nullish items ->
       length (optimizedRoutes s) = length items /\
       safetyAlerts (currentConditions s) = of_Z (Z.of_nat (length items)) /\
       draws w' = (draws w + 3 * length items)%nat /\
       console w' = console w /\
       forall (i : nat) (rec : Recommendation), items !! i = Some (Item rec) ->
         exists r, optimizedRoutes s !! i = Some r /\
           id r = rec_id rec /\
           name r = rec_type rec +:+ " Route" /\
           description r = rec_message rec /\
           (exists t, 15 <= t <= 44 /\ estimatedTime r = of_Z t) /\
           (exists k, 0 <= k <= 99 /\ safetyScore r = of_Z k) /\
           (exists l, 0 <= l <= 2 /\ trafficLevel r = of_Z l)) /\
    (In Nullish items ->
       s = fallbackSuggestions /\
       console w'
       = console w ++ [("Error in getOptimizedRouteSuggestions:", TypeError)] /\
       exists k : nat,
         items !! k = Some Nullish /\
         ~ In Nullish (take k items) /\
         draws w' = (draws w + 3 * k)%nat).
Proof.
  intros Hrand. unfold getOptimizedRouteSuggestions. cbn [getRecommendations].
  destruct (In_Nullish_dec items) as [Hin | Hno].
  - destruct (first_nullish items Hin) as (recs & rest & ->).
    rewrite array_map_try_nullish.
    pose proof (array_map_optimizedRoute recs w) as H.
    destruct (array_map optimizedRoute recs w) as [routes w1].
    destruct H as (_ & Hd & Hc & _). cbn [snd].
    eexists. eexists. split; [reflexivity|].
    split; [intros Hno; contradiction|]. intros _.
    split; [reflexivity|]. split; [cbn; now rewrite Hc|].
    exists (length recs).
    assert (Hlen : length (Item <$> recs) = length recs) by apply length_fmap.
    split; [|split].
    + rewrite lookup_app_r by lia. now rewrite Hlen, Nat.sub_diag.
    + rewrite take_app_length' by (symmetry; exact Hlen).
      intros H. apply in_map_iff in H as (rec & Hrec & _). discriminate.
    + cbn. exact Hd.
  - destruct (items_of_recs items Hno) as [recs ->].
    rewrite array_map_try_items.
    pose proof (array_map_optimizedRoute recs w) as H.
    destruct (array_map optimizedRoute recs w) as [routes w1].
    destruct H as (_ & Hd & Hc & _ & Hl & Hi). cbn [fst snd].
    assert (Hlen : length (Item <$> recs) = length recs) by apply length_fmap.
    eexists. eexists. split; [reflexivity|].
    split; [|intros Hin; contradiction]. intros _.
    cbn [optimizedRoutes currentConditions safetyAlerts].
    rewrite Hlen.
    split; [exact Hl|]. split; [reflexivity|]. split; [exact Hd|].
    split; [exact Hc|].
    intros i rec Hrec. rewrite list_lookup_fmap in Hrec.
    destruct (recs !! i) as [rec'|] eqn:Hrec'; [|discriminate].
    cbn in Hrec. injection Hrec as ->.
    eexists. split; [exact (Hi i rec Hrec')|].
    cbn [id name description estimatedTime safetyScore trafficLevel].
    split; [reflexivity|]. split; [reflexivity|]. split; [reflexivity|].
    split; [apply time_range_15, Hrand|].
    split.
    + destruct (floor_random_100 _ (Hrand (draws w + 3 * i + 1)%nat)) as (k & Hk & ->).
      exists k. split; [lia | reflexivity].
    + destruct (floor_random_3 _ (Hrand (draws w + 3 * i + 2)%nat)) as (k & Hk & ->).
      exists k. split; [lia | reflexivity].
Qed.

(** An instance: one recommendation and the example tape. *)
Lemma getOptimizedRouteSuggestions_success_witness :
  exists s w',
    getOptimizedRouteSuggestions Examples.here Examples.there Examples.noPreferences
      (Fulfilled (DataArray Examples.recs1)) Examples.world0 = (Fulfilled s, w') /\
    length (optimizedRoutes s) = 1%nat /\
    draws w' = 3%nat.
Proof.
  destruct (getOptimizedRouteSuggestions_success Examples.here Examples.there
              Examples.noPreferences Examples.recs1 Examples.world0
              tape_is_random) as (s & w' & H1 & Hok & _).
  destruct Hok as (H2 & _ & H4 & _).
  { intros [H | []]. discriminate. }
  exists s, w'. repeat split; assumption.
Defined.

Lemma array_map_messages (recs : list Recommendation) (w : World) :
  array_map (fun rec w' => (rec_message rec, w')) recs w = (rec_message <$> recs, w).
Proof.
  induction recs as [|rec recs IH]; [reflexivity|].
  cbn [array_map]. now rewrite IH.
Qed.

(** X2. [analyzeRouteEfficiency] never rejects.  Its efficiencyScore is an
    integer in 0..99 and its potentialTimeSavings an integer in 0..14 on
    every path.  On success, an array without [null] elements, the
    suggestions are the messages of the elements, in order, and two random
    values are drawn.  A payload that is not an array, or an array that
    holds a [null], gives the fallback after one random value has already
    been drawn (efficiencyScore is evaluated before [.map] is called) and
    one console line; a rejected request gives the fallback with no draw
    and two console lines, one from the api wrapper and one from the
    caller. *)
Theorem analyzeRouteEfficiency_outcomes (Number_toString : number -> string)
    (routeId : Any) (response : Settled Payload) (w : World) :
  (forall i, is_random_value (entropy w i) = true) ->
  exists e w',
    analyzeRouteEfficiency Number_toString routeId response w = (Fulfilled e, w') /\
    (exists k, 0 <= k <= 99 /\ efficiencyScore e = of_Z k) /\
    (exists s, 0 <= s <= 14 /\ potentialTimeSavings e = of_Z s) /\
    match response with
    | Fulfilled (DataArray items) =>
        (~ In Nullish items ->
           length (suggestions e) = length items /\
           (forall (i : nat) (rec : Recommendation), items !! i = Some (Item rec) ->
              suggestions e !! i = Some (rec_message rec)) /\
           draws w' = (draws w + 2)%nat /\ console w' = console w) /\
        (In Nullish items ->
           e = fallbackEfficiency /\
           draws w' = (draws w + 1)%nat /\
           console w' = console w ++ [("Error in analyzeRouteEfficiency:", TypeError)])
    | Fulfilled (DataOther _) =>
        e = fallbackEfficiency /\
        draws w' = (draws w + 1)%nat /\
        console w' = console w ++ [("Error in analyzeRouteEfficiency:", TypeError)]
    | Rejected error =>
        e = fallbackEfficiency /\
        draws w' = draws w /\
        console w' =
          console w ++
          [("Error fetching recommendations for route "
            +:+ ToString Number_toString routeId +:+ ":", error);
           ("Error in analyzeRouteEfficiency:", error)]
    end.
Proof.
  intros Hrand. unfold analyzeRouteEfficiency, getRouteRecommendations, request.
  assert (Hfb : (exists k, 0 <= k <= 99 /\ efficiencyScore fallbackEfficiency = of_Z k) /\
                (exists s, 0 <= s <= 14 /\ potentialTimeSavings fallbackEfficiency = of_Z s)).
  { split; [exists 70 | exists 5]; split; (lia || reflexivity). }
  destruct response as [[items | v] | error].
  - unfold random_below at 1, Math_random. cbn [fst snd].
    destruct (In_Nullish_dec items) as [Hin | Hno].
    + destruct (first_nullish items Hin) as (recs & rest & ->).
      rewrite array_map_try_nullish, array_map_messages. cbn [snd].
      eexists. eexists. split; [reflexivity|].
      split; [exact (proj1 Hfb)|]. split; [exact (proj2 Hfb)|].
      split; [intros Hno; contradiction|]. intros _.
      split; [reflexivity|]. split; [cbn; lia | reflexivity].
    + destruct (items_of_recs items Hno) as [recs ->].
      rewrite array_map_try_items, array_map_messages. cbn [fst snd].
      unfold random_below, Math_random. cbn [fst snd entropy draws].
      eexists. eexists. split; [reflexivity|].
      cbn [efficiencyScore potentialTimeSavings suggestions draws console].
      split; [|split; [|split; [|intros Hin; contradiction]]].
      * destruct (floor_random_100 _ (Hrand (draws w))) as (k & Hk & ->).
        exists k. split; [lia | reflexivity].
      * destruct (floor_random_15 _ (Hrand (S (draws w)))) as (k & Hk & ->).
        exists k. split; [lia | reflexivity].
      * intros _. split; [now rewrite !length_fmap|].
        split; [|split; [lia | reflexivity]].
        intros i rec Hrec. rewrite list_lookup_fmap in Hrec.
        destruct (recs !! i) as [rec'|] eqn:Hrec'; [|discriminate].
        cbn in Hrec. injection Hrec as ->.
        now rewrite list_lookup_fmap, Hrec'.
  - unfold random_below, Math_random. cbn [fst snd].
    eexists. eexists. split; [reflexivity|].
    split; [exact (proj1 Hfb)|]. split; [exact (proj2 Hfb)|].
    split; [reflexivity|]. split; [cbn; lia | reflexivity].
  - eexists. eexists. split; [reflexivity|].
    split; [exact (proj1 Hfb)|]. split; [exact (proj2 Hfb)|].
    split; [reflexivity|]. split; [reflexivity|].
    cbn. now rewrite <- app_assoc.
Qed.

(** An instance: an array with a [null] in front, on the example tape. *)
Lemma analyzeRouteEfficiency_outcomes_witness :
  exists e w',
    analyzeRouteEfficiency (fun _ => "7") (Prim (VString "r1"))
      (Fulfilled (DataArray Examples.recsWithNull)) Examples.world0
    = (Fulfilled e, w') /\
    e = fallbackEfficiency /\ draws w' = 1%nat.
Proof.
  destruct (analyzeRouteEfficiency_outcomes (fun _ => "7") (Prim (VString "r1"))
              (Fulfilled (DataArray Examples.recsWithNull)) Examples.world0
              tape_is_random)
    as (e & w' & H1 & _ & _ & _ & H2).
  destruct (H2 (or_introl eq_refl)) as (He & Hd & _).
  exists e, w'. repeat split; assumption.
Defined.

End AiRouteOptimizerMore.

(** ** components/AlertsPage.jsx: marking and displaying *)

Section SortFacts.

Import AlertsView.

Context {A : Type} (cmp : A -> A -> number).

Lemma insertSorted_perm (x : A) (l : list A) : insertSorted cmp x l ≡ₚ x :: l.
Proof.
  induction l as [|y l IH]; cbn [insertSorted]; [reflexivity|].
  destruct (goesBehind (cmp x y)); [|reflexivity].
  rewrite IH. apply Permutation_swap.
Qed.

Lemma sort_perm (l : list A) : sort cmp l ≡ₚ l.
Proof.
  induction l as [|x l IH]; [reflexivity|].
  change (sort cmp (x :: l)) with (insertSorted cmp x (sort cmp l)).
  now rewrite insertSorted_perm, IH.
Qed.

(** A comparator that does not see the difference between [a] and [f a]
    sorts a mapped list as it sorts the list. *)
Lemma sort_map (f : A -> A) (l : list A) :
  (forall a b, cmp (f a) (f b) = cmp a b) ->
  sort cmp (map f l) = map f (sort cmp l).
Proof.
  intros Hf.
  assert (Hins : forall x l', insertSorted cmp (f x) (map f l')
                              = map f (insertSorted cmp x l')).
  { intros x l'. induction l' as [|y l' IH]; [reflexivity|].
    cbn [map insertSorted]. rewrite Hf.
    destruct (goesBehind (cmp x y)); cbn [map]; [now rewrite IH | reflexivity]. }
  induction l as [|x l IH]; [reflexivity|].
  cbn [map].
  change (insertSorted cmp (f x) (sort cmp (map f l))
          = map f (insertSorted cmp x (sort cmp l))).
  now rewrite IH, Hins.
Qed.

(** The comparator orders by a level, highest first, on the values that
    satisfy [P]. *)
Variable level : A -> Z.
Variable P : A -> Prop.
Hypothesis cmp_level :
  forall x y, P x -> P y -> goesBehind (cmp x y) = (level x <? level y)%Z.

Lemma insertSorted_sorted (x : A) (l : list A) :
  P x -> Forall P l ->
  StronglySorted (fun a b => level b <= level a) l ->
  StronglySorted (fun a b => level b <= level a) (insertSorted cmp x l).
Proof.
  intros Hx Hl Hs. induction Hs as [|y l Hs IH Hy]; cbn [insertSorted].
  - repeat constructor.
  - inversion Hl as [|? ? Py Pl]; subst.
    rewrite (cmp_level x y Hx Py).
    destruct (Z.ltb_spec (level x) (level y)) as [Hlt | Hge].
    + constructor; [now apply IH|].
      rewrite insertSorted_perm. constructor; [lia | exact Hy].
    + constructor; [now constructor|].
      constructor; [exact Hge|].
      eapply Forall_impl; [exact Hy|]. cbn. intros z Hz. lia.
Qed.

Lemma sort_sorted (l : list A) :
  Forall P l -> StronglySorted (fun a b => level b <= level a) (sort cmp l).
Proof.
  induction 1 as [|x l Hx Hl IH]; [constructor|].
  change (sort cmp (x :: l)) with (insertSorted cmp x (sort cmp l)).
  apply insertSorted_sorted; [exact Hx | | exact IH].
  now rewrite sort_perm.
Qed.

(** Stability: the values of one level keep their order. *)
Lemma insertSorted_stable (r : Z) (x : A) (l : list A) :
  P x -> Forall P l ->
  List.filter (fun a => level a =? r) (insertSorted cmp x l)
  = List.filter (fun a => level a =? r) (x :: l).
Proof.
  intros Hx Hl. induction Hl as [|y l Py Pl IH]; [reflexivity|].
  cbn [insertSorted]. rewrite (cmp_level x y Hx Py).
  destruct (Z.ltb_spec (level x) (level y)) as [Hlt | Hge]; [|reflexivity].
  cbn [List.filter] in *. rewrite IH.
  destruct (Z.eqb_spec (level x) r), (Z.eqb_spec (level y) r);
    try reflexivity; lia.
Qed.

Lemma sort_stable (r : Z) (l : list A) :
  Forall P l ->
  List.filter (fun a => level a =? r) (sort cmp l)
  = List.filter (fun a => level a =? r) l.
Proof.
  induction 1 as [|x l Hx Hl IH]; [reflexivity|].
  change (sort cmp (x :: l)) with (insertSorted cmp x (sort cmp l)).
  rewrite insertSorted_stable; [| exact Hx | now rewrite sort_perm].
  cbn [List.filter]. now rewrite IH.
Qed.

(** A list that is in order and stable is determined: two lists in order
    with the same values of each level, in the same order, are equal. *)
Lemma sorted_stable_unique (l1 l2 : list A) :
  StronglySorted (fun a b => level b <= level a) l1 ->
  StronglySorted (fun a b => level b <= level a) l2 ->
  (forall r, List.filter (fun a => level a =? r) l1
             = List.filter (fun a => level a =? r) l2) ->
  l1 = l2.
Proof.
  intros H1. revert l2. induction H1 as [|x l1 Hs1 IH Hx]; intros l2 H2 Hf.
  - destruct l2 as [|y l2]; [reflexivity|].
    specialize (Hf (level y)). cbn in Hf. rewrite Z.eqb_refl in Hf. discriminate.
  - destruct l2 as [|y l2].
    { specialize (Hf (level x)). cbn in Hf. rewrite Z.eqb_refl in Hf. discriminate. }
    inversion H2 as [|? ? Hs2 Hy]; subst.
    rewrite List.Forall_forall in Hx, Hy.
    assert (Hxy : level x <= level y).
    { pose proof (Hf (level x)) as E. cbn [List.filter] in E.
      rewrite Z.eqb_refl in E.
      assert (Hin : In x (List.filter (fun a => level a =? level x) (y :: l2))).
      { cbn [List.filter]. rewrite <- E. now left. }
      apply filter_In in Hin as [[<- | Hin] _]; [lia | now apply Hy]. }
    assert (Hyx : level y <= level x).
    { pose proof (Hf (level y)) as E. cbn [List.filter] in E.
      rewrite Z.eqb_refl in E.
      assert (Hin : In y (List.filter (fun a => level a =? level y) (x :: l1))).
      { cbn [List.filter]. rewrite E. now left. }
      apply filter_In in Hin as [[<- | Hin] _]; [lia | now apply Hx]. }
    assert (Heq : level y = level x) by lia.
    assert (Exy : x = y).
    { pose proof (Hf (level x)) as E. cbn [List.filter] in E.
      rewrite Heq, Z.eqb_refl in E. now injection E. }
    subst y. f_equal. apply IH; [exact Hs2|].
    intros r. pose proof (Hf r) as E. cbn [List.filter] in E.
    destruct (level x =? r); [now injection E | exact E].
Qed.

(** So the insertion sort gives the result of every stable sort: a list in
    order that keeps the values of each level in the order of [l] is
    [sort cmp l]. *)
Lemma sort_is_the_stable_order (l l' : list A) :
  Forall P l ->
  StronglySorted (fun a b => level b <= level a) l' ->
  (forall r, List.filter (fun a => level a =? r) l'
             = List.filter (fun a => level a =? r) l) ->
  l' = sort cmp l.
Proof.
  intros Hl Hs Hf. apply sorted_stable_unique; [exact Hs | now apply sort_sorted|].
  intros r. now rewrite Hf, sort_stable.
Qed.

End SortFacts.

Section AlertsPageMore.

Import AlertsPage AlertsView AlertsOrder.

Variable Date_value : Value -> number.

Lemma goesBehind_levels (x y : Z) :
  0 <= x <= 3 -> 0 <= y <= 3 ->
  goesBehind (sub (of_Z y) (of_Z x)) = (x <? y).
Proof.
  intros Hx Hy.
  assert (Ex : x = 0 \/ x = 1 \/ x = 2 \/ x = 3) by lia.
  assert (Ey : y = 0 \/ y = 1 \/ y = 2 \/ y = 3) by lia.
  destruct Ex as [-> | [-> | [-> | ->]]], Ey as [-> | [-> | [-> | ->]]];
    vm_compute; reflexivity.
Qed.

Lemma severityRank_level (v : Value) :
  inherited v = false ->
  severityRank v = of_Z (severityLevel v) /\ 0 <= severityLevel v <= 3.
Proof.
  intros H. destruct v as [| | b | n | s]; try (split; [reflexivity | cbn; lia]).
  unfold severityRank, severityLevel. rewrite H.
  destruct (String.eqb s "High"); [split; [reflexivity | lia]|].
  destruct (String.eqb s "Medium"); [split; [reflexivity | lia]|].
  destruct (String.eqb s "Low"); split; (reflexivity || lia).
Qed.

Lemma get_markOne (id : Value) (alert : Object) (k : string) :
  k <> "read" -> get (markOne id alert) k = get alert k.
Proof.
  intros Hk. unfold markOne, get.
  destruct (strict_equal _ id); [|reflexivity].
  now rewrite lookup_insert_ne by congruence.
Qed.

Lemma passes_markOne (id : Value) (filterType : string) (alert : Object) :
  passes filterType (markOne id alert) = passes filterType alert.
Proof. unfold passes. now rewrite get_markOne by discriminate. Qed.

Lemma compareAlerts_markOne (id : Value) (sortBy : string) (a b : Object) :
  compareAlerts Date_value sortBy (markOne id a) (markOne id b)
  = compareAlerts Date_value sortBy a b.
Proof. unfold compareAlerts. now rewrite !get_markOne by discriminate. Qed.

Lemma filter_map_same {A : Type} (p : A -> bool) (f : A -> A) (l : list A) :
  (forall a, p (f a) = p a) ->
  List.filter p (map f l) = map f (List.filter p l).
Proof.
  intros Hp. induction l as [|x l IH]; [reflexivity|].
  cbn [map List.filter]. rewrite Hp.
  destruct (p x); cbn [map]; now rewrite IH.
Qed.

(** X3. In a state on which the comparator is consistent (valid dates
    under the sort setting "Time", no inherited property name as a severity
    under any other), the list that is displayed is a rearrangement of the
    alerts that pass the type filter: nothing is lost, duplicated or
    invented; with the filter "All" it is a rearrangement of all the
    alerts. *)
Theorem filteredAndSortedAlerts_permutation (st : State) :
  consistentOn Date_value st ->
  filteredAndSortedAlerts Date_value st
    ≡ₚ List.filter (passes (filterType st)) (alerts st) /\
  (forall alert, In alert (filteredAndSortedAlerts Date_value st) <->
     In alert (alerts st) /\ passes (filterType st) alert = true) /\
  (filterType st = "All" -> filteredAndSortedAlerts Date_value st ≡ₚ alerts st).
Proof.
  intros _.
  assert (Hperm : filteredAndSortedAlerts Date_value st
                  ≡ₚ List.filter (passes (filterType st)) (alerts st))
    by apply sort_perm.
  split; [exact Hperm|]. split.
  - intros alert. rewrite <- filter_In.
    split; intros H.
    + eapply Permutation_in; [exact Hperm | exact H].
    + eapply Permutation_in; [symmetry; exact Hperm | exact H].
  - intros Hall. etransitivity; [exact Hperm|].
    assert (E : List.filter (passes (filterType st)) (alerts st) = alerts st).
    { rewrite Hall. clear Hperm. induction (alerts st) as [|x l IH]; [reflexivity|].
      cbn [List.filter]. unfold passes at 1.
      rewrite String.eqb_refl. cbn [orb]. f_equal. exact IH. }
    now rewrite E.
Qed.

(** X4. With any sort setting other than "Time", and no alert whose severity
    is the name of a property inherited from [Object.prototype], the
    displayed alerts are ordered High, Medium, Low, then every other
    severity, and the alerts of one level keep the order they have in the
    state (the sort is stable). *)
Theorem filteredAndSortedAlerts_by_severity (st : State) :
  sortBy st <> "Time" ->
  Forall (fun alert => inherited (get alert "severity") = false) (alerts st) ->
  StronglySorted
    (fun a b => severityLevel (get b "severity") <= severityLevel (get a "severity"))
    (filteredAndSortedAlerts Date_value st) /\
  forall r : Z,
    List.filter (fun a => severityLevel (get a "severity") =? r)
      (filteredAndSortedAlerts Date_value st)
    = List.filter (fun a => severityLevel (get a "severity") =? r)
        (List.filter (passes (filterType st)) (alerts st)).
Proof.
  intros Hsort Hplain. unfold filteredAndSortedAlerts.
  assert (Hcmp : forall x y : Object,
            inherited (get x "severity") = false ->
            inherited (get y "severity") = false ->
            goesBehind (compareAlerts Date_value (sortBy st) x y)
            = (severityLevel (get x "severity") <? severityLevel (get y "severity"))).
  { intros x y Hx Hy. unfold compareAlerts.
    apply String.eqb_neq in Hsort. rewrite Hsort.
    destruct (severityRank_level _ Hx) as [-> Bx].
    destruct (severityRank_level _ Hy) as [-> By].
    now apply goesBehind_levels. }
  assert (Hfiltered : Forall (fun alert => inherited (get alert "severity") = false)
                        (List.filter (passes (filterType st)) (alerts st))).
  { apply List.Forall_forall. intros x Hx. apply filter_In in Hx as [Hx _].
    rewrite List.Forall_forall in Hplain. now apply Hplain. }
  split.
  - exact (sort_sorted _ (fun a => severityLevel (get a "severity")) _ Hcmp _ Hfiltered).
  - intros r.
    exact (sort_stable _ (fun a => severityLevel (get a "severity")) _ Hcmp r _ Hfiltered).
Qed.

(** X5. In a state on which the comparator is consistent, marking an
    alert as read and then displaying is the same as displaying and then
    marking: the filter and the order of the displayed list do not depend
    on the [read] flags, and the comparator stays consistent. *)
Theorem markAsRead_keeps_view (id : Value) (st : State) :
  consistentOn Date_value st ->
  consistentOn Date_value (markAsRead id st) /\
  filteredAndSortedAlerts Date_value (markAsRead id st)
  = markOne id <$> filteredAndSortedAlerts Date_value st.
Proof.
  intros Hcons. split.
  { unfold consistentOn in *. cbn [sortBy alerts markAsRead].
    destruct (String.eqb (sortBy st) "Time");
      (apply List.Forall_forall; intros alert Hin;
       change (@fmap list _ _ _ (markOne id)) with (@map Object Object (markOne id)) in Hin;
       apply in_map_iff in Hin as (a & <- & Ha);
       rewrite List.Forall_forall in Hcons;
       rewrite get_markOne by discriminate; now apply Hcons). }
  unfold filteredAndSortedAlerts, markAsRead. cbn [alerts filterType sortBy].
  unfold array_map.
  change (@fmap list _ _ _ (markOne id)) with (@map Object Object (markOne id)).
  rewrite filter_map_same by apply passes_markOne.
  apply sort_map. intros a b. now rewrite compareAlerts_markOne.
Qed.

Lemma markOne_idempotent (id : Value) (alert : Object) :
  markOne id (markOne id alert) = markOne id alert.
Proof.
  assert (E : get (markOne id alert) "id" = get alert "id")
    by (apply get_markOne; discriminate).
  set (m := markOne id alert) in *. unfold markOne. rewrite E. subst m.
  unfold markOne. destruct (strict_equal (get alert "id") id); [|reflexivity].
  apply insert_insert_eq.
Qed.

Lemma markOne_comm (id1 id2 : Value) (alert : Object) :
  markOne id1 (markOne id2 alert) = markOne id2 (markOne id1 alert).
Proof.
  assert (E1 : get (markOne id1 alert) "id" = get alert "id")
    by (apply get_markOne; discriminate).
  assert (E2 : get (markOne id2 alert) "id" = get alert "id")
    by (apply get_markOne; discriminate).
  set (m1 := markOne id1 alert) in *. set (m2 := markOne id2 alert) in *.
  unfold markOne. rewrite E1, E2. subst m1 m2. unfold markOne.
  destruct (strict_equal (get alert "id") id1), (strict_equal (get alert "id") id2);
    reflexivity.
Qed.

(** X6. Marking the same alert twice is the same as marking it once, and
    marking two alerts gives the same state in either order. *)
Theorem markAsRead_idempotent_commutes (id1 id2 : Value) (st : State) :
  markAsRead id1 (markAsRead id1 st) = markAsRead id1 st /\
  markAsRead id1 (markAsRead id2 st) = markAsRead id2 (markAsRead id1 st).
Proof.
  unfold markAsRead, array_map. cbn [alerts filterType sortBy].
  split; f_equal; rewrite <- !list_fmap_compose; apply list_fmap_ext;
    intros i x _; cbn; [apply markOne_idempotent | apply markOne_comm].
Qed.

(** X7. After [markAsRead id] no alert whose id is strictly equal to [id]
    shows the "Mark as Read" button, every alert that shows it showed it
    before at the same position, and the number of buttons has not grown. *)
Theorem markAsRead_buttons (id : Value) (st : State) :
  (forall alert, In alert (alerts (markAsRead id st)) ->
     strict_equal (get alert "id") id = true -> showsButton alert = false) /\
  (forall (i : nat) (alert' : Object),
     alerts (markAsRead id st) !! i = Some alert' ->
     showsButton alert' = true ->
     exists alert, alerts st !! i = Some alert /\ showsButton alert = true /\
                   alert' = alert) /\
  (length (List.filter showsButton (alerts (markAsRead id st)))
   <= length (List.filter showsButton (alerts st)))%nat.
Proof.
  unfold markAsRead, array_map. cbn [alerts].
  assert (Hone : forall a, showsButton (markOne id a) = true ->
                           markOne id a = a /\ showsButton a = true).
  { intros a. unfold markOne. destruct (strict_equal (get a "id") id).
    - unfold showsButton, get. rewrite lookup_insert_eq. cbn. discriminate.
    - intros H. now split. }
  split; [|split].
  - intros alert Hin Hid.
    change (@fmap list _ _ _ (markOne id)) with (@map Object Object (markOne id)) in Hin.
    apply in_map_iff in Hin as [a [<- _]].
    rewrite get_markOne in Hid by discriminate.
    unfold markOne. rewrite Hid.
    unfold showsButton, get. rewrite lookup_insert_eq. reflexivity.
  - intros i alert' Hi Hshow. rewrite list_lookup_fmap in Hi.
    destruct (alerts st !! i) as [a|] eqn:Ha; [|discriminate].
    injection Hi as <-. destruct (Hone a Hshow) as [E Hs].
    exists a. now rewrite E.
  - induction (alerts st) as [|a l IH]; [cbn; lia|].
    cbn [fmap list_fmap List.filter].
    destruct (showsButton (markOne id a)) eqn:Hs.
    + destruct (Hone a Hs) as [_ ->]. cbn [length]. apply le_n_S, IH.
    + destruct (showsButton a); cbn [length]; [apply Nat.le_le_succ_r|]; exact IH.
Qed.

End AlertsPageMore.

(** Instances on the sample alerts sorted by severity: the three alerts
    are displayed, and marking alert 3 leaves them in the order 1, 3, 2. *)
Lemma filteredAndSortedAlerts_permutation_witness :
  let st := {| AlertsPage.alerts :=
                 AlertsPage.sampleAlerts "2026-01-01T11:00:00Z" "2026-01-01T10:00:00Z"
                   "2026-01-01T07:00:00Z";
               AlertsPage.filterType := "All"; AlertsPage.sortBy := "Severity" |} in
  AlertsView.filteredAndSortedAlerts (fun _ => S754_nan) st ≡ₚ AlertsPage.alerts st /\
  length (AlertsView.filteredAndSortedAlerts (fun _ => S754_nan) st) = 3%nat.
Proof.
  cbn zeta. split; [|vm_compute; reflexivity].
  refine (proj2 (proj2 (filteredAndSortedAlerts_permutation (fun _ => S754_nan) _ _)) _).
  - unfold AlertsOrder.consistentOn. cbn. repeat constructor.
  - reflexivity.
Defined.

Lemma markAsRead_keeps_view_witness :
  let st := {| AlertsPage.alerts :=
                 AlertsPage.sampleAlerts "2026-01-01T11:00:00Z" "2026-01-01T10:00:00Z"
                   "2026-01-01T07:00:00Z";
               AlertsPage.filterType := "All"; AlertsPage.sortBy := "Severity" |} in
  AlertsView.filteredAndSortedAlerts (fun _ => S754_nan)
    (AlertsPage.markAsRead (VNumber (of_Z 3)) st)
  = AlertsPage.markOne (VNumber (of_Z 3))
      <$> AlertsView.filteredAndSortedAlerts (fun _ => S754_nan) st /\
  (fun a => (get a "id", get a "read"))
    <$> AlertsView.filteredAndSortedAlerts (fun _ => S754_nan)
          (AlertsPage.markAsRead (VNumber (of_Z 3)) st)
  = [ (VNumber (of_Z 1), VBool false); (VNumber (of_Z 3), VBool true);
      (VNumber (of_Z 2), VBool true) ].
Proof.
  cbn zeta. split; [|vm_compute; reflexivity].
  refine (proj2 (markAsRead_keeps_view (fun _ => S754_nan) _ _ _)).
  unfold AlertsOrder.consistentOn. cbn. repeat constructor.
Defined.

(** An instance: the sample alerts sorted by severity are shown in the
    order 1 (High), 3 (Medium), 2 (Low). *)
Lemma filteredAndSortedAlerts_by_severity_witness :
  let st := {| AlertsPage.alerts :=
                 AlertsPage.sampleAlerts "2026-01-01T11:00:00Z" "2026-01-01T10:00:00Z"
                   "2026-01-01T07:00:00Z";
               AlertsPage.filterType := "All"; AlertsPage.sortBy := "Severity" |} in
  StronglySorted
    (fun a b => AlertsView.severityLevel (get b "severity")
                <= AlertsView.severityLevel (get a "severity"))
    (AlertsView.filteredAndSortedAlerts (fun _ => S754_nan) st) /\
  (fun a => get a "id") <$> AlertsView.filteredAndSortedAlerts (fun _ => S754_nan) st
    = [VNumber (of_Z 1); VNumber (of_Z 3); VNumber (of_Z 2)].
Proof.
  cbn zeta. split; [|vm_compute; reflexivity].
  refine (proj1 (filteredAndSortedAlerts_by_severity (fun _ => S754_nan) _ _ _)).
  - cbn. discriminate.
  - repeat constructor.
Defined.

(** ** utils/aiPredictiveAnalytics.js *)

Section AiPredictiveAnalyticsMore.

Import ApiMore AiPredictiveAnalytics.

Lemma getProp_defined (a : Any) (k : string) :
  nullish a = false -> exists v, getProp a k = Fulfilled v.
Proof.
  destruct a as [[| | b | n | s] | o]; cbn; intros H; try discriminate; eauto.
Qed.

Lemma getProp_nullish (a : Any) (k : string) :
  nullish a = true -> getProp a k = Rejected TypeError.
Proof.
  destruct a as [[| | b | n | s] | o]; cbn; intros H; try discriminate; reflexivity.
Qed.

(** The issue built for an alert that has properties. *)
Lemma potentialIssue_defined (alert : Any) (w : World) :
  nullish alert = false ->
  exists issue,
    potentialIssue alert w
    = (Fulfilled issue,
       {| entropy := entropy w; draws := S (draws w); console := console w;
          reportedThreats := reportedThreats w |}) /\
    getProp alert "id" = Fulfilled (issue_id issue) /\
    getProp alert "type" = Fulfilled (issue_type issue) /\
    getProp alert "severity" = Fulfilled (issue_severity issue) /\
    getProp alert "message" = Fulfilled (issue_description issue) /\
    (exists location, getProp alert "location" = Fulfilled location /\
                      issue_location issue = Prim location) /\
    probability issue = Math_floor (mul (entropy w (draws w)) (of_Z 100)).
Proof.
  intros H. unfold potentialIssue.
  destruct (getProp_defined alert "id" H) as [v1 E1].
  destruct (getProp_defined alert "type" H) as [v2 E2].
  destruct (getProp_defined alert "severity" H) as [v3 E3].
  destruct (getProp_defined alert "message" H) as [v4 E4].
  destruct (getProp_defined alert "location" H) as [v5 E5].
  rewrite E1, E2, E3, E4, E5. cbn.
  eexists. split; [reflexivity|]. cbn. repeat split. eauto.
Qed.

Lemma potentialIssue_nullish (alert : Any) (w : World) :
  nullish alert = true -> potentialIssue alert w = (Rejected TypeError, w).
Proof.
  intros H. unfold potentialIssue. rewrite (getProp_nullish alert "id" H).
  reflexivity.
Qed.

Lemma potentialIssues_defined (items : list Any) (w : World) :
  Forall (fun a => nullish a = false) items ->
  exists issues w',
    array_map_try potentialIssue items w = (Fulfilled issues, w') /\
    entropy w' = entropy w /\
    draws w' = (draws w + length items)%nat /\
    console w' = console w /\
    length issues = length items /\
    forall (i : nat) (alert : Any), items !! i = Some alert ->
      exists issue, issues !! i = Some issue /\
        getProp alert "id" = Fulfilled (issue_id issue) /\
        getProp alert "type" = Fulfilled (issue_type issue) /\
        getProp alert "severity" = Fulfilled (issue_severity issue) /\
        getProp alert "message" = Fulfilled (issue_description issue) /\
        (exists location, getProp alert "location" = Fulfilled location /\
                          issue_location issue = Prim location) /\
        probability issue
        = Math_floor (mul (entropy w (draws w + i)%nat) (of_Z 100)).
Proof.
  intros Hall. revert w. induction Hall as [|alert items Ha Hall IH]; intros w.
  - exists [], w. cbn. repeat split; try lia. intros i alert H. discriminate.
  - cbn [array_map_try].
    destruct (potentialIssue_defined alert w Ha) as (issue & -> & Hissue).
    match goal with |- context [array_map_try potentialIssue items ?w1] =>
      destruct (IH w1) as (issues & w' & -> & He & Hd & Hc & Hl & Hi) end.
    cbn [entropy draws console] in He, Hd, Hc, Hi.
    exists (issue :: issues), w'. split; [reflexivity|].
    split; [exact He|]. split; [rewrite Hd; cbn [length]; lia|].
    split; [exact Hc|]. split; [cbn [length]; now rewrite Hl|].
    intros [|i] alert' Hlook.
    + cbn in Hlook. injection Hlook as <-. exists issue. split; [reflexivity|].
      replace (draws w + 0)%nat with (draws w) by lia. exact Hissue.
    + cbn in Hlook. destruct (Hi i alert' Hlook) as (issue' & Hl' & Hrest).
      exists issue'. split; [now rewrite lookup_cons|].
      replace (draws w + S i)%nat with (S (draws w) + i)%nat by lia. exact Hrest.
Qed.

Lemma potentialIssues_nullish (items : list Any) (w : World) :
  Exists (fun a => nullish a = true) items ->
  exists (k : nat) (w' : World),
    array_map_try potentialIssue items w = (Rejected TypeError, w') /\
    (k < length items)%nat /\
    entropy w' = entropy w /\
    draws w' = (draws w + k)%nat /\
    console w' = console w.
Proof.
  revert w. induction items as [|alert items IH]; intros w Hex.
  - inversion Hex.
  - cbn [array_map_try]. destruct (nullish alert) eqn:Hn.
    + rewrite (potentialIssue_nullish alert w Hn).
      exists 0%nat, w. cbn [length]. repeat split; lia.
    + destruct (potentialIssue_defined alert w Hn) as (issue & -> & _).
      assert (Hex' : Exists (fun a => nullish a = true) items).
      { inversion Hex as [? ? H|? ? H]; subst; [congruence | exact H]. }
      match goal with |- context [array_map_try potentialIssue items ?w1] =>
        destruct (IH w1 Hex') as (k & w' & -> & Hk & He & Hd & Hc) end.
      cbn [entropy draws console] in He, Hd, Hc.
      exists (S k), w'. cbn [length]. repeat split; (lia || assumption).
Qed.

Lemma nullish_dec (items : list Any) :
  Forall (fun a => nullish a = false) items \/
  Exists (fun a => nullish a = true) items.
Proof.
  induction items as [|a items [IH | IH]].
  - left. constructor.
  - destruct (nullish a) eqn:Ha.
    + right. now constructor.
    + left. now constructor.
  - right. now constructor 2.
Qed.

Lemma orDay_truthy (timeOfDay : Any) :
  truthyAny (orDay timeOfDay) = true /\
  (truthyAny timeOfDay = true -> orDay timeOfDay = timeOfDay).
Proof.
  unfold orDay. destruct (truthyAny timeOfDay) eqn:H; split; auto; discriminate.
Qed.

(** X8. [predictSafetyIssues] never rejects; its timeOfDay is never
    falsy (a falsy argument is replaced by "day", a truthy one is kept), and
    its safetyScore and every probability are integers in 0..99.  Either the
    alerts endpoint served an array without [null] elements, and then there
    is one issue per alert, in order, with the five properties copied, one
    random value drawn per alert and one more for the score, and nothing is
    written to the console; or the answer is the fallback object, which
    echoes [currentLocation], and the console ends with the line of the
    catch clause. *)
Theorem predictSafetyIssues_outcomes (currentLocation timeOfDay : Any)
    (response : Settled Objects) (w : World) :
  (forall i, is_random_value (entropy w i) = true) ->
  exists p w',
    predictSafetyIssues currentLocation timeOfDay response w = (Fulfilled p, w') /\
    truthyAny (AiPredictiveAnalytics.timeOfDay p) = true /\
    (truthyAny timeOfDay = true -> AiPredictiveAnalytics.timeOfDay p = timeOfDay) /\
    (exists k, 0 <= k <= 99 /\ safetyScore p = of_Z k) /\
    (forall issue, In issue (potentialIssues p) ->
       exists k, 0 <= k <= 99 /\ probability issue = of_Z k) /\
    ((exists items,
        response = Fulfilled (ObjectArray items) /\
        Forall (fun a => nullish a = false) items /\
        draws w' = (draws w + length items + 1)%nat /\
        console w' = console w /\
        length (potentialIssues p) = length items /\
        forall (i : nat) (alert : Any), items !! i = Some alert ->
          exists issue, potentialIssues p !! i = Some issue /\
            getProp alert "id" = Fulfilled (issue_id issue) /\
            getProp alert "type" = Fulfilled (issue_type issue) /\
            getProp alert "severity" = Fulfilled (issue_severity issue) /\
            getProp alert "message" = Fulfilled (issue_description issue) /\
            (exists location, getProp alert "location" = Fulfilled location /\
                              issue_location issue = Prim location))
     \/
     (p = fallbackPrediction currentLocation timeOfDay /\
      exists error lines,
        console w' = lines ++ [("Error in predictSafetyIssues:", error)])).
Proof.
  intros Hrand. unfold predictSafetyIssues, getAlerts, request.
  destruct (orDay_truthy timeOfDay) as [Hday Hkeep].
  assert (Hfb : forall w' error,
    exists p w'',
      (Fulfilled (fallbackPrediction currentLocation timeOfDay),
       console_error "Error in predictSafetyIssues:" error w')
      = (Fulfilled p, w'') /\
      truthyAny (AiPredictiveAnalytics.timeOfDay p) = true /\
      (truthyAny timeOfDay = true -> AiPredictiveAnalytics.timeOfDay p = timeOfDay) /\
      (exists k, 0 <= k <= 99 /\ safetyScore p = of_Z k) /\
      (forall issue, In issue (potentialIssues p) ->
         exists k, 0 <= k <= 99 /\ probability issue = of_Z k) /\
      p = fallbackPrediction currentLocation timeOfDay /\
      console w'' = console w' ++ [("Error in predictSafetyIssues:", error)]).
  { intros w0 error. eexists. eexists. split; [reflexivity|].
    split; [exact Hday|]. split; [exact Hkeep|].
    split; [exists 70; split; [lia | reflexivity]|].
    split; [|split; reflexivity].
    intros issue [<- | []]. exists 50. split; [lia | reflexivity]. }
  destruct response as [[items | v] | error].
  - destruct (nullish_dec items) as [Hall | Hex].
    + destruct (potentialIssues_defined items w Hall)
        as (issues & w1 & -> & He & Hd & Hc & Hl & Hi).
      unfold AiRouteOptimizer.random_below, Math_random.
      eexists. eexists. split; [reflexivity|].
      cbn [AiPredictiveAnalytics.timeOfDay safetyScore potentialIssues draws console].
      split; [exact Hday|]. split; [exact Hkeep|]. split.
      { destruct (floor_random_100 (entropy w1 (draws w1))) as (k & Hk & ->).
        - rewrite He. apply Hrand.
        - exists k. split; [lia | reflexivity]. }
      split.
      { intros issue Hin. apply list_elem_of_In, list_elem_of_lookup in Hin as [i Hlook].
        assert (Hlt : (i < length items)%nat).
        { rewrite <- Hl. eapply lookup_lt_Some, Hlook. }
        destruct (lookup_lt_is_Some_2 items i Hlt) as [alert Halert].
        destruct (Hi i alert Halert) as (issue' & Hl' & _ & _ & _ & _ & _ & Hp).
        rewrite Hlook in Hl'. injection Hl' as <-. rewrite Hp.
        destruct (floor_random_100 _ (Hrand (draws w + i)%nat)) as (k & Hk & ->).
        exists k. split; [lia | reflexivity]. }
      left. exists items. split; [reflexivity|]. split; [exact Hall|].
      split; [rewrite Hd; lia|]. split; [exact Hc|]. split; [exact Hl|].
      intros i alert Halert.
      destruct (Hi i alert Halert) as (issue & H1 & H2 & H3 & H4 & H5 & H6 & _).
      exists issue. repeat split; assumption.
    + destruct (potentialIssues_nullish items w Hex) as (k & w1 & -> & _ & _ & _ & Hc).
      destruct (Hfb w1 TypeError) as (p & w2 & E & H1 & H2 & H3 & H4 & H5 & H6).
      exists p, w2. split; [exact E|]. repeat (split; [assumption|]).
      right. split; [exact H5|]. eauto.
  - destruct (Hfb w TypeError) as (p & w2 & E & H1 & H2 & H3 & H4 & H5 & H6).
    exists p, w2. split; [exact E|]. repeat (split; [assumption|]).
    right. split; [exact H5|]. eauto.
  - destruct (Hfb (console_error "Error fetching alerts:" error w) error)
      as (p & w2 & E & H1 & H2 & H3 & H4 & H5 & H6).
    exists p, w2. split; [exact E|]. repeat (split; [assumption|]).
    right. split; [exact H5|]. eauto.
Qed.

(** What the filter of [analyzeLocationSafetyHistory] keeps: the alert at
    index [i] stays when the [i]-th coming random value is above 0.5. *)
Lemma array_filter_coin (items : list Any) (w : World) :
  let '(relevantAlerts, w') := array_filter (fun _ => coin) items w in
  relevantAlerts
  = omap id (imap (fun (i : nat) (a : Any) =>
                     if SFltb oneHalf (entropy w (draws w + i)%nat)
                     then Some a else None) items) /\
  entropy w' = entropy w /\
  draws w' = (draws w + length items)%nat /\
  console w' = console w /\
  reportedThreats w' = reportedThreats w.
Proof.
  revert w. induction items as [|a items IH]; intros w.
  - cbn. repeat split. lia.
  - cbn [array_filter]. unfold coin at 1, Math_random.
    match goal with |- context [array_filter _ items ?w1] =>
      specialize (IH w1); destruct (array_filter _ items w1) as [xs w'] end.
    cbn [entropy draws console reportedThreats] in IH.
    destruct IH as (Hx & He & Hd & Hc & Ht).
    split; [|repeat split; try assumption; rewrite Hd; cbn [length]; lia].
    rewrite imap_cons. cbn [omap list_omap].
    replace (draws w + 0)%nat with (draws w) by lia.
    assert (E : imap (fun (i : nat) (a0 : Any) =>
                        if SFltb oneHalf (entropy w (S (draws w) + i)%nat)
                        then Some a0 else None) items
                = imap ((fun (i : nat) (a0 : Any) =>
                           if SFltb oneHalf (entropy w (draws w + i)%nat)
                           then Some a0 else None) ∘ S) items).
    { apply imap_ext. intros i x _. cbn.
      now replace (S (draws w + i)) with (draws w + S i)%nat by lia. }
    rewrite <- E, <- Hx.
    destruct (SFltb oneHalf (entropy w (draws w))); reflexivity.
Qed.

Lemma historicalIncidents_spec (alerts : list Any) (w : World) :
  if existsb nullish alerts
  then array_map_try (fun alert w' => (historicalIncident alert, w')) alerts w
       = (Rejected TypeError, w)
  else exists incidents,
         array_map_try (fun alert w' => (historicalIncident alert, w')) alerts w
         = (Fulfilled incidents, w) /\
         Fulfilled <$> incidents = historicalIncident <$> alerts.
Proof.
  induction alerts as [|a alerts IH]; cbn [existsb array_map_try].
  - exists []. split; reflexivity.
  - destruct (nullish a) eqn:Ha; cbn [orb].
    + unfold historicalIncident. rewrite (getProp_nullish a "id" Ha). reflexivity.
    + assert (Hdef : exists inc, historicalIncident a = Fulfilled inc).
      { unfold historicalIncident.
        destruct (getProp_defined a "id" Ha) as [v1 ->].
        destruct (getProp_defined a "type" Ha) as [v2 ->].
        destruct (getProp_defined a "created_at" Ha) as [v3 ->].
        destruct (getProp_defined a "message" Ha) as [v4 ->].
        destruct (getProp_defined a "severity" Ha) as [v5 ->].
        cbn. eauto. }
      destruct Hdef as [inc Einc]. rewrite Einc.
      destruct (existsb nullish alerts).
      * now rewrite IH.
      * destruct IH as (incidents & -> & Hmap).
        exists (inc :: incidents). split; [reflexivity|].
        cbn [fmap list_fmap]. rewrite Einc. f_equal. exact Hmap.
Qed.

(** X9. [analyzeLocationSafetyHistory] never rejects.  For an array of
    alerts it keeps the alert at index [i] exactly when the [i]-th coming
    random value is above 0.5, whatever the alert and the location are.  If
    no kept alert is [null] or [undefined], the incidents are built from
    the kept alerts, in order, and the trend is decided by one more random
    value; if one is, the answer is the fallback object (a [null] that is
    filtered out does no harm). *)
Theorem analyzeLocationSafetyHistory_outcomes (location : Any) (w : World) :
  (forall response, exists h w',
     analyzeLocationSafetyHistory location response w = (Fulfilled h, w')) /\
  forall items : list Any,
    let kept :=
      omap id (imap (fun (i : nat) (a : Any) =>
                       if SFltb oneHalf (entropy w (draws w + i)%nat)
                       then Some a else None) items) in
    exists h w',
      analyzeLocationSafetyHistory location (Fulfilled (ObjectArray items)) w
      = (Fulfilled h, w') /\
      if existsb nullish kept
      then h = fallbackHistory /\
           draws w' = (draws w + length items)%nat /\
           console w'
           = console w ++ [("Error in analyzeLocationSafetyHistory:", TypeError)]
      else Fulfilled <$> historicalIncidents h = historicalIncident <$> kept /\
           safetyTrend h
           = (if SFltb oneHalf (entropy w (draws w + length items)%nat)
              then "improving" else "declining") /\
           draws w' = (draws w + length items + 1)%nat /\
           console w' = console w.
Proof.
  assert (Harray : forall items : list Any,
    let kept :=
      omap id (imap (fun (i : nat) (a : Any) =>
                       if SFltb oneHalf (entropy w (draws w + i)%nat)
                       then Some a else None) items) in
    exists h w',
      analyzeLocationSafetyHistory location (Fulfilled (ObjectArray items)) w
      = (Fulfilled h, w') /\
      if existsb nullish kept
      then h = fallbackHistory /\
           draws w' = (draws w + length items)%nat /\
           console w'
           = console w ++ [("Error in analyzeLocationSafetyHistory:", TypeError)]
      else Fulfilled <$> historicalIncidents h = historicalIncident <$> kept /\
           safetyTrend h
           = (if SFltb oneHalf (entropy w (draws w + length items)%nat)
              then "improving" else "declining") /\
           draws w' = (draws w + length items + 1)%nat /\
           console w' = console w).
  { intros items kept. unfold analyzeLocationSafetyHistory, getAlerts, request.
    pose proof (array_filter_coin items w) as Hf.
    destruct (array_filter (fun _ => coin) items w) as [relevantAlerts w2].
    destruct Hf as (Hk & He & Hd & Hc & _). fold kept in Hk. subst relevantAlerts.
    pose proof (historicalIncidents_spec kept w2) as Hm.
    destruct (existsb nullish kept).
    - rewrite Hm. eexists. eexists. split; [reflexivity|].
      split; [reflexivity|]. cbn. split; [exact Hd | now rewrite Hc].
    - destruct Hm as (incidents & -> & Hmap).
      unfold coin, Math_random. eexists. eexists. split; [reflexivity|].
      cbn. split; [exact Hmap|]. split; [now rewrite He, Hd|].
      split; [rewrite Hd; lia | exact Hc]. }
  split; [|exact Harray].
  intros [[items | v] | error].
  - destruct (Harray items) as (h & w' & E & _). eauto.
  - cbn. eauto.
  - cbn. eauto.
Qed.

End AiPredictiveAnalyticsMore.

(** An instance: one alert without properties, no time of day given. *)
Lemma predictSafetyIssues_outcomes_witness :
  exists p w',
    AiPredictiveAnalytics.predictSafetyIssues Examples.here (Prim VUndefined)
      (Fulfilled (ApiMore.ObjectArray [Obj ∅])) Examples.world0 = (Fulfilled p, w') /\
    AiPredictiveAnalytics.timeOfDay p = Prim (VString "day") /\
    length (AiPredictiveAnalytics.potentialIssues p) = 1%nat.
Proof.
  destruct (predictSafetyIssues_outcomes Examples.here (Prim VUndefined)
              (Fulfilled (ApiMore.ObjectArray [Obj ∅])) Examples.world0
              tape_is_random) as (p & w' & E & _).
  exists p, w'. split; [exact E|].
  vm_compute in E. injection E as <- _. split; reflexivity.
Defined.

Section SafetyAdviceMore.

Import ApiMore SafetyAdvice.

(** [map] with a callback that only reads properties: it throws exactly
    when an element is [null] or [undefined]. *)
Lemma array_map_try_reads {B : Type} (f : Any -> Settled B)
    (items : list Any) (w : World) :
  (forall a, nullish a = true -> f a = Rejected TypeError) ->
  (forall a, nullish a = false -> exists b, f a = Fulfilled b) ->
  if existsb nullish items
  then array_map_try (fun a w' => (f a, w')) items w = (Rejected TypeError, w)
  else exists bs,
         array_map_try (fun a w' => (f a, w')) items w = (Fulfilled bs, w) /\
         Fulfilled <$> bs = f <$> items.
Proof.
  intros Hnull Hdef.
  induction items as [|a items IH]; cbn [existsb array_map_try].
  - exists []. split; reflexivity.
  - destruct (nullish a) eqn:Ha; cbn [orb].
    + now rewrite (Hnull a Ha).
    + destruct (Hdef a Ha) as [b Eb]. rewrite Eb.
      destruct (existsb nullish items).
      * now rewrite IH.
      * destruct IH as (bs & -> & Hmap).
        exists (b :: bs). split; [reflexivity|].
        cbn [fmap list_fmap]. rewrite Eb. f_equal. exact Hmap.
Qed.

Lemma adviceOf_nullish (rec : Any) :
  nullish rec = true -> adviceOf rec = Rejected TypeError.
Proof.
  intros H. unfold adviceOf. now rewrite (getProp_nullish rec "id" H).
Qed.

Lemma adviceOf_defined (rec : Any) :
  nullish rec = false -> exists a, adviceOf rec = Fulfilled a.
Proof.
  intros H. unfold adviceOf.
  destruct (getProp_defined rec "id" H) as [v1 ->].
  destruct (getProp_defined rec "type" H) as [v2 ->].
  destruct (getProp_defined rec "message" H) as [v3 ->].
  destruct (getProp_defined rec "priority" H) as [v4 ->].
  cbn. eauto.
Qed.

(** X10. [generateSafetyAdvice] never rejects and its relevanceScore is an
    integer in 0..99.  With a truthy [routeId] it always answers with the
    fallback advice, whatever the server would serve: no request is made,
    no random value is drawn, and the catch clause logs the unresolved name
    [getRouteRecommendations].  With a falsy [routeId] an array of
    recommendations without [null] elements gives one advice per
    recommendation, in order, and one draw; every other answer gives the
    fallback advice and no draw. *)
Theorem generateSafetyAdvice_outcomes (currentLocation routeId : Any)
    (response : Settled Objects) (p : Page) :
  (forall i, is_random_value (entropy (world p) i) = true) ->
  exists a p',
    generateSafetyAdvice currentLocation routeId response p = (Fulfilled a, p') /\
    (exists k, 0 <= k <= 99 /\ relevanceScore a = of_Z k) /\
    (truthyAny routeId = true ->
       a = fallbackAdvice /\ world p' = world p /\
       unresolved p' = unresolved p ++
         [("Error in generateSafetyAdvice:", "getRouteRecommendations")]) /\
    (truthyAny routeId = false ->
       unresolved p' = unresolved p /\
       match response with
       | Fulfilled (ObjectArray items) =>
           if existsb nullish items
           then a = fallbackAdvice /\ draws (world p') = draws (world p)
           else Fulfilled <$> advice a = adviceOf <$> items /\
                draws (world p') = S (draws (world p)) /\
                console (world p') = console (world p)
       | _ => a = fallbackAdvice /\ draws (world p') = draws (world p)
       end).
Proof.
  intros Hrand. unfold generateSafetyAdvice, getRecommendationObjects, request.
  assert (Hfb : exists k, 0 <= k <= 99 /\ relevanceScore fallbackAdvice = of_Z k).
  { exists 50. split; [lia | reflexivity]. }
  destruct (truthyAny routeId).
  - eexists. eexists. split; [reflexivity|]. split; [exact Hfb|].
    split; [intros _; repeat split | discriminate].
  - destruct response as [[items | v] | error].
    + pose proof (array_map_try_reads adviceOf items (world p)
                    adviceOf_nullish adviceOf_defined) as Hm.
      destruct (existsb nullish items).
      * rewrite Hm. eexists. eexists. split; [reflexivity|]. split; [exact Hfb|].
        split; [discriminate|]. intros _. repeat split.
      * destruct Hm as (bs & -> & Hmap).
        unfold AiRouteOptimizer.random_below, Math_random.
        eexists. eexists. split; [reflexivity|].
        cbn [relevanceScore advice world unresolved draws console]. split.
        { destruct (floor_random_100 _ (Hrand (draws (world p)))) as (k & Hk & ->).
          exists k. split; [lia | reflexivity]. }
        split; [discriminate|]. intros _. repeat split. exact Hmap.
    + eexists. eexists. split; [reflexivity|]. split; [exact Hfb|].
      split; [discriminate|]. intros _. repeat split.
    + eexists. eexists. split; [reflexivity|]. split; [exact Hfb|].
      split; [discriminate|]. intros _. repeat split.
Qed.

End SafetyAdviceMore.

(** An instance: a route id is given and the server would serve an empty
    list; the answer is the fallback advice. *)
Lemma generateSafetyAdvice_outcomes_witness :
  exists p',
    SafetyAdvice.generateSafetyAdvice Examples.here (Prim (VNumber (of_Z 7)))
      (Fulfilled (ApiMore.ObjectArray []))
      {| SafetyAdvice.world := Examples.world0; SafetyAdvice.unresolved := [] |}
    = (Fulfilled SafetyAdvice.fallbackAdvice, p') /\
    SafetyAdvice.world p' = Examples.world0.
Proof.
  destruct (generateSafetyAdvice_outcomes Examples.here (Prim (VNumber (of_Z 7)))
              (Fulfilled (ApiMore.ObjectArray []))
              {| SafetyAdvice.world := Examples.world0; SafetyAdvice.unresolved := [] |}
              tape_is_random) as (a & p' & E & _ & Htrue & _).
  destruct (Htrue eq_refl) as (-> & Hw & _).
  exists p'. split; [exact E | exact Hw].
Defined.

Section VoiceCommandsMore.

Import ApiMore VoiceCommands.

(** X11. [listenForVoiceCommand] never rejects.  When the prompt is
    cancelled or left empty no request is made and nothing is logged, and
    the answer says that no voice input was detected.  An answer whose
    [success] is truthy is only ever returned when a non-empty text was
    entered and the server answered with an object whose own [success] is
    truthy; the four properties are then copied from that object. *)
Theorem listenForVoiceCommand_outcomes (prompted : option string)
    (response : Settled Any) (w : World) :
  exists r w',
    listenForVoiceCommand prompted response w = (Fulfilled r, w') /\
    (prompted = None \/ prompted = Some "" ->
       w' = w /\ message r = VString "No voice input detected" /\
       success r = VBool false) /\
    (truthy (success r) = true ->
       exists text answer,
         prompted = Some text /\ text <> "" /\
         response = Fulfilled answer /\ nullish answer = false /\
         w' = w /\
         getProp answer "success" = Fulfilled (success r) /\
         getProp answer "message" = Fulfilled (message r) /\
         getProp answer "action" = Fulfilled (action r) /\
         getProp answer "data" = Fulfilled (data r)).
Proof.
  unfold listenForVoiceCommand.
  destruct prompted as [text|].
  - cbn [truthy]. destruct (String.eqb_spec text "") as [-> | Hne]; cbn [negb].
    + eexists. eexists. split; [reflexivity|]. cbn. split; [auto | discriminate].
    + unfold processVoiceInput, processVoiceCommand, request.
      destruct response as [answer | error].
      * destruct (nullish answer) eqn:Hn.
        -- cbn. rewrite (getProp_nullish answer "success" Hn). cbn.
           eexists. eexists. split; [reflexivity|]. cbn.
           split; [intros [H | H]; congruence | discriminate].
        -- destruct (getProp_defined answer "success" Hn) as [v1 E1].
           destruct (getProp_defined answer "message" Hn) as [v2 E2].
           destruct (getProp_defined answer "action" Hn) as [v3 E3].
           destruct (getProp_defined answer "data" Hn) as [v4 E4].
           cbn. rewrite E1, E2, E3, E4. cbn.
           eexists. eexists. split; [reflexivity|]. cbn.
           split; [intros [H | H]; congruence|].
           intros _. exists text, answer. repeat split; assumption.
      * cbn. eexists. eexists. split; [reflexivity|]. cbn.
        split; [intros [H | H]; congruence | discriminate].
  - cbn. eexists. eexists. split; [reflexivity|]. cbn. split; [auto | discriminate].
Qed.

End VoiceCommandsMore.

(** ** components/ThreatResponsiveRouting.js *)

Section ThreatResponsiveRoutingMore.

Import ThreatResponsiveRouting.

Variable Number_toString : number -> string.

(** What [notifyRouteUpdate] does to the page: every registered callback is
    called once, in the order of registration, and each one that throws
    leaves one line on the console. *)
Lemma notifyRouteUpdate_spec (updatedRoute : Any) (c : Client) (b : Browser) :
  let b' := notifyRouteUpdate updatedRoute c b in
  called b'
  = called b ++ ((fun f => (cb_name f, updatedRoute)) <$> onRouteUpdateCallbacks c) /\
  output b'
  = output b ++
    omap (fun f => (fun v => LogError "Error in route update callback:"
                                       (ThrownByCallback v))
                   <$> cb_throws f updatedRoute)
         (onRouteUpdateCallbacks c) /\
  nextHandle b' = nextHandle b /\
  intervals b' = intervals b /\
  requests b' = requests b.
Proof.
  unfold notifyRouteUpdate. cbn zeta.
  generalize (onRouteUpdateCallbacks c) as callbacks. intros callbacks.
  revert b. induction callbacks as [|f callbacks IH]; intros b.
  - cbn. now rewrite !app_nil_r.
  - cbn [fold_left fmap list_fmap omap list_omap].
    match goal with |- context [fold_left _ callbacks ?b1] =>
      destruct (IH b1) as (Hc & Ho & Hn & Hi & Hr) end.
    rewrite Hc, Ho, Hn, Hi, Hr.
    destruct (cb_throws f updatedRoute) as [v|]; cbn;
      rewrite <- ?app_assoc; repeat split.
Qed.

Lemma checkForRouteUpdates_timers (c : Client) (b : Browser) :
  nextHandle (checkForRouteUpdates Number_toString c b) = nextHandle b /\
  intervals (checkForRouteUpdates Number_toString c b) = intervals b.
Proof.
  unfold checkForRouteUpdates. destruct (truthy (activeRouteId c)); cbn; auto.
Qed.

Lemma checkForRouteUpdates_settles_timers (routeId : Value) (f : Fetched)
    (c : Client) (b : Browser) :
  let b' := checkForRouteUpdates_settles Number_toString routeId f c b in
  nextHandle b' = nextHandle b /\ intervals b' = intervals b /\
  requests b' = requests b.
Proof.
  unfold checkForRouteUpdates_settles, getRoute_settles. cbn zeta.
  destruct (parsed Number_toString f) as [error | updatedRoute]; [cbn; auto|].
  destruct (getProp updatedRoute "rerouted") as [rerouted | e]; [|cbn; auto].
  destruct (truthy rerouted); [|auto].
  destruct (notifyRouteUpdate_spec updatedRoute c
              (console_log "Route was rerouted due to new threats!" b))
    as (_ & _ & Hn & Hi & Hr).
  rewrite Hn, Hi, Hr. cbn. auto.
Qed.

(** The timers of a page on which only the client sets timers: the live
    ones are the one the client holds, and handles are never reused. *)
Lemma step_keeps_timers (c : Client) (b : Browser) (ev : Event) :
  intervals b = match routeUpdateTimer c with Some h => {[ h ]} | None => ∅ end ->
  (forall h, h ∈ intervals b -> (h < nextHandle b)%positive) ->
  let '(c', b') := step Number_toString (c, b) ev in
  intervals b' = match routeUpdateTimer c' with Some h => {[ h ]} | None => ∅ end /\
  (forall h, h ∈ intervals b' -> (h < nextHandle b')%positive).
Proof.
  intros Hlive Hfresh.
  assert (Hstart : forall (c0 : Client) (b0 : Browser),
    routeUpdateTimer c0 = routeUpdateTimer c ->
    nextHandle b0 = nextHandle b -> intervals b0 = intervals b ->
    let '(c', b') := startRouteUpdateMonitoring c0 b0 in
    intervals b' = match routeUpdateTimer c' with Some h => {[ h ]} | None => ∅ end /\
    (forall h, h ∈ intervals b' -> (h < nextHandle b')%positive)).
  { intros c0 b0 Ht Hn Hi. unfold startRouteUpdateMonitoring. rewrite Ht.
    destruct (routeUpdateTimer c) as [h0|]; cbn; rewrite Hn, Hi, Hlive.
    - rewrite !difference_diag_L. split; [apply union_empty_r_L|].
      intros h Hh. rewrite union_empty_r_L in Hh.
      apply elem_of_singleton in Hh. subst h. lia.
    - split; [apply union_empty_r_L|].
      intros h Hh. rewrite union_empty_r_L in Hh.
      apply elem_of_singleton in Hh. subst h. lia. }
  assert (Hstop : forall (c0 : Client) (b0 : Browser),
    routeUpdateTimer c0 = routeUpdateTimer c ->
    nextHandle b0 = nextHandle b -> intervals b0 = intervals b ->
    let '(c', b') := stopRouteUpdateMonitoring c0 b0 in
    intervals b' = match routeUpdateTimer c' with Some h => {[ h ]} | None => ∅ end /\
    (forall h, h ∈ intervals b' -> (h < nextHandle b')%positive)).
  { intros c0 b0 Ht Hn Hi. unfold stopRouteUpdateMonitoring. rewrite Ht.
    destruct (routeUpdateTimer c) as [h0|] eqn:Hc; cbn; rewrite ?Hi, ?Hlive, ?Ht, ?Hc.
    - rewrite difference_diag_L. split; [reflexivity|]. intros h Hh.
      now apply elem_of_empty in Hh.
    - split; [reflexivity|]. intros h Hh. now apply elem_of_empty in Hh. }
  destruct ev as [ | f | s e t | f | routeId | routeId f | | f | l t s n | f
                 | routeId rating comments | f | | f | | routeId f | h | | | enabled
                 | callback | updatedRoute ];
    cbn [step].
  - cbn. auto.
  - unfold init_settles, getModelInfo_settles.
    destruct (parsed Number_toString f) as [error | info]; cbn; auto.
  - cbn. auto.
  - unfold calculateRoute_settles.
    destruct (parsed Number_toString f) as [error | routeData]; [cbn; auto|].
    destruct (getProp routeData "id") as [id | e]; [|cbn; auto].
    pose proof (Hstart (withActiveRouteId id c) b eq_refl eq_refl eq_refl) as H.
    destruct (startRouteUpdateMonitoring (withActiveRouteId id c) b) as [c' b'].
    exact H.
  - cbn. auto.
  - unfold getRoute_settles.
    destruct (parsed Number_toString f) as [error | data]; cbn; auto.
  - cbn. auto.
  - unfold getAllRoutes_settles.
    destruct (parsed Number_toString f) as [error | data]; cbn; auto.
  - cbn. auto.
  - unfold reportThreat_settles.
    destruct (parsed Number_toString f) as [error | result]; [cbn; auto|].
    cbn [snd]. destruct (truthy (activeRouteId c)); [|auto].
    destruct (checkForRouteUpdates_timers c b) as [-> ->]. auto.
  - cbn. auto.
  - unfold provideRouteFeedback_settles.
    destruct (parsed Number_toString f) as [error | data]; cbn; auto.
  - cbn. auto.
  - unfold getModelInfo_settles.
    destruct (parsed Number_toString f) as [error | data]; cbn; auto.
  - destruct (checkForRouteUpdates_timers c b) as [-> ->]. auto.
  - destruct (checkForRouteUpdates_settles_timers routeId f c b) as (-> & -> & _).
    auto.
  - unfold intervalFires. destruct (bool_decide (h ∈ intervals b)); [|auto].
    destruct (truthyAny (threatDetectionEnabled c) && truthy (activeRouteId c));
      [|auto].
    destruct (checkForRouteUpdates_timers c b) as [-> ->]. auto.
  - exact (Hstart c b eq_refl eq_refl eq_refl).
  - exact (Hstop c b eq_refl eq_refl eq_refl).
  - unfold setThreatDetectionEnabled. destruct (truthyAny enabled).
    + match goal with |- context [if ?t then _ else _] => destruct t end.
      * apply Hstart; reflexivity.
      * cbn. auto.
    + apply Hstop; reflexivity.
  - destruct callback as [f | a]; cbn; auto.
  - destruct (notifyRouteUpdate_spec updatedRoute c b) as (_ & _ & -> & -> & _).
    auto.
Qed.

(** X12. The client never leaks an interval timer: after any sequence of
    method calls, settled requests and timer ticks on a fresh page, the
    live timers are exactly the one the client holds in [routeUpdateTimer],
    and none when it holds [null]; so at most one timer polls at any time. *)
Theorem monitoring_keeps_one_timer (events : list Event) :
  let '(c, b) := run Number_toString events (newClient, blankPage) in
  intervals b = match routeUpdateTimer c with Some h => {[ h ]} | None => ∅ end /\
  (size (intervals b) <= 1)%nat.
Proof.
  assert (H : forall (s : Client * Browser),
    (intervals (snd s)
     = match routeUpdateTimer (fst s) with Some h => {[ h ]} | None => ∅ end /\
     (forall h, h ∈ intervals (snd s) -> (h < nextHandle (snd s))%positive)) ->
    let '(c, b) := run Number_toString events s in
    intervals b = match routeUpdateTimer c with Some h => {[ h ]} | None => ∅ end /\
    (size (intervals b) <= 1)%nat).
  { induction events as [|ev events IH]; intros [c b] [Hlive Hfresh].
    - cbn in *. split; [exact Hlive|]. rewrite Hlive.
      destruct (routeUpdateTimer c).
      + now rewrite size_singleton.
      + rewrite size_empty. lia.
    - unfold run. cbn [fold_left].
      pose proof (step_keeps_timers c b ev Hlive Hfresh) as Hstep.
      destruct (step Number_toString (c, b) ev) as [c' b'].
      apply (IH (c', b')). exact Hstep. }
  apply H. cbn. split; [reflexivity|]. intros h Hh. now apply elem_of_empty in Hh.
Qed.

Lemma startRouteUpdateMonitoring_keeps (c : Client) (b : Browser) :
  let '(c', b') := startRouteUpdateMonitoring c b in
  activeRouteId c' = activeRouteId c /\
  threatDetectionEnabled c' = threatDetectionEnabled c /\
  onRouteUpdateCallbacks c' = onRouteUpdateCallbacks c /\
  requests b' = requests b /\ called b' = called b.
Proof.
  unfold startRouteUpdateMonitoring. destruct (routeUpdateTimer c); cbn; auto.
Qed.

Lemma stopRouteUpdateMonitoring_keeps (c : Client) (b : Browser) :
  let '(c', b') := stopRouteUpdateMonitoring c b in
  activeRouteId c' = activeRouteId c /\
  threatDetectionEnabled c' = threatDetectionEnabled c /\
  onRouteUpdateCallbacks c' = onRouteUpdateCallbacks c /\
  requests b' = requests b /\ called b' = called b.
Proof.
  unfold stopRouteUpdateMonitoring. destruct (routeUpdateTimer c); cbn; auto.
Qed.

(** What one event can change: the active route only when a route
    calculation succeeds, the detection flag only through its setter, and
    the requests each event adds; a request for one route is added only by
    [getRoute] itself and by the check, which asks for the active route. *)
Lemma step_effects (c : Client) (b : Browser) (ev : Event) :
  let '(c', b') := step Number_toString (c, b) ev in
  (activeRouteId c' = activeRouteId c \/
   exists data, ev = CalculateRouteSettles (Json data) /\
                getProp data "id" = Fulfilled (activeRouteId c')) /\
  (threatDetectionEnabled c' = threatDetectionEnabled c \/
   ev = SetThreatDetectionEnabled (threatDetectionEnabled c')) /\
  exists more, requests b' = requests b ++ more /\
    match ev with
    | GetRoute _ => True
    | ReportThreatSettles _ | CheckForRouteUpdates =>
        more = [] \/ truthy (activeRouteId c) = true
    | IntervalFires _ =>
        more = [] \/
        (truthyAny (threatDetectionEnabled c) = true /\
         truthy (activeRouteId c) = true)
    | _ => Forall (fun r => fetchesRoute r = false) more
    end.
Proof.
  assert (Hcheck : exists more,
    requests (checkForRouteUpdates Number_toString c b) = requests b ++ more /\
    (more = [] \/ truthy (activeRouteId c) = true)).
  { unfold checkForRouteUpdates. destruct (truthy (activeRouteId c)); cbn.
    - eexists. split; [reflexivity | now right].
    - exists []. split; [now rewrite app_nil_r | now left]. }
  assert (Hnil : forall l : list Request, l = l ++ []) by (intros; now rewrite app_nil_r).
  assert (Hquiet : forall b' : Browser, requests b' = requests b ->
            exists more, requests b' = requests b ++ more /\
                         Forall (fun r => fetchesRoute r = false) more).
  { intros b' E. exists []. split; [now rewrite E, app_nil_r | constructor]. }
  destruct ev as [ | f | s e t | f | routeId | routeId f | | f | l t s n | f
                 | routeId rating comments | f | | f | | routeId f | h | | | enabled
                 | callback | updatedRoute ];
    cbn [step].
  - split; [now left|]. split; [now left|]. cbn.
    eexists. split; [reflexivity|]. repeat constructor.
  - split; [now left|]. split; [now left|]. apply Hquiet.
    unfold init_settles, getModelInfo_settles.
    destruct (parsed Number_toString f) as [error | info]; reflexivity.
  - split; [now left|]. split; [now left|]. cbn.
    eexists. split; [reflexivity|]. repeat constructor.
  - unfold calculateRoute_settles.
    destruct f as [message | status | | data]; cbn [parsed];
      try (split; [now left|]; split; [now left|]; apply Hquiet; reflexivity).
    destruct (getProp data "id") as [id | e] eqn:Hid;
      [|split; [now left|]; split; [now left|]; apply Hquiet; reflexivity].
    pose proof (startRouteUpdateMonitoring_keeps (withActiveRouteId id c) b) as H.
    destruct (startRouteUpdateMonitoring (withActiveRouteId id c) b) as [c' b'].
    destruct H as (Ha & Ht & _ & Hr & _). cbn in Ha, Ht.
    split; [right; exists data; split; [reflexivity | now rewrite Ha]|].
    split; [now left|]. now apply Hquiet.
  - split; [now left|]. split; [now left|]. cbn.
    eexists. split; [reflexivity | exact I].
  - split; [now left|]. split; [now left|]. apply Hquiet.
    unfold getRoute_settles.
    destruct (parsed Number_toString f) as [error | data]; reflexivity.
  - split; [now left|]. split; [now left|]. cbn.
    eexists. split; [reflexivity|]. repeat constructor.
  - split; [now left|]. split; [now left|]. apply Hquiet.
    unfold getAllRoutes_settles.
    destruct (parsed Number_toString f) as [error | data]; reflexivity.
  - split; [now left|]. split; [now left|]. cbn.
    eexists. split; [reflexivity|]. repeat constructor.
  - split; [now left|]. split; [now left|]. unfold reportThreat_settles.
    destruct (parsed Number_toString f) as [error | result]; cbn [snd].
    + exists []. split; [cbn; auto | now left].
    + destruct (truthy (activeRouteId c)) eqn:Ha.
      * destruct Hcheck as (more & Hm & _). exists more. split; [exact Hm | now right].
      * exists []. split; [auto | now left].
  - split; [now left|]. split; [now left|]. cbn.
    eexists. split; [reflexivity|]. repeat constructor.
  - split; [now left|]. split; [now left|]. apply Hquiet.
    unfold provideRouteFeedback_settles.
    destruct (parsed Number_toString f) as [error | data]; reflexivity.
  - split; [now left|]. split; [now left|]. cbn.
    eexists. split; [reflexivity|]. repeat constructor.
  - split; [now left|]. split; [now left|]. apply Hquiet.
    unfold getModelInfo_settles.
    destruct (parsed Number_toString f) as [error | data]; reflexivity.
  - split; [now left|]. split; [now left|]. exact Hcheck.
  - split; [now left|]. split; [now left|]. apply Hquiet.
    now destruct (checkForRouteUpdates_settles_timers routeId f c b) as (_ & _ & ->).
  - split; [now left|]. split; [now left|]. unfold intervalFires.
    destruct (bool_decide (h ∈ intervals b)); [|exists []; split; [auto | now left]].
    destruct (truthyAny (threatDetectionEnabled c)) eqn:He; cbn [andb];
      [|exists []; split; [auto | now left]].
    destruct (truthy (activeRouteId c)) eqn:Ha;
      [|exists []; split; [auto | now left]].
    destruct Hcheck as (more & Hm & _). exists more. split; [exact Hm | now right].
  - pose proof (startRouteUpdateMonitoring_keeps c b) as H.
    destruct (startRouteUpdateMonitoring c b) as [c' b'].
    destruct H as (Ha & Ht & _ & Hr & _).
    split; [now left|]. split; [now left|]. now apply Hquiet.
  - pose proof (stopRouteUpdateMonitoring_keeps c b) as H.
    destruct (stopRouteUpdateMonitoring c b) as [c' b'].
    destruct H as (Ha & Ht & _ & Hr & _).
    split; [now left|]. split; [now left|]. now apply Hquiet.
  - unfold setThreatDetectionEnabled. destruct (truthyAny enabled).
    + match goal with |- context [if ?t then _ else _] => destruct t end.
      * match goal with |- context [startRouteUpdateMonitoring ?c1 ?b1] =>
          pose proof (startRouteUpdateMonitoring_keeps c1 b1) as H;
          destruct (startRouteUpdateMonitoring c1 b1) as [c' b'] end.
        destruct H as (Ha & Ht & _ & Hr & _). cbn in Ha, Ht, Hr.
        split; [now left|]. split; [right; now rewrite Ht|]. now apply Hquiet.
      * cbn. split; [now left|]. split; [now right|]. now apply Hquiet.
    + match goal with |- context [stopRouteUpdateMonitoring ?c1 ?b1] =>
        pose proof (stopRouteUpdateMonitoring_keeps c1 b1) as H;
        destruct (stopRouteUpdateMonitoring c1 b1) as [c' b'] end.
      destruct H as (Ha & Ht & _ & Hr & _). cbn in Ha, Ht, Hr.
      split; [now left|]. split; [right; now rewrite Ht|]. now apply Hquiet.
  - destruct callback as [f | a]; cbn; (split; [now left|]; split; [now left|]);
      now apply Hquiet.
  - split; [now left|]. split; [now left|]. apply Hquiet.
    now destruct (notifyRouteUpdate_spec updatedRoute c b) as (_ & _ & _ & _ & ->).
Qed.

(** X13. Before a route has been calculated the client never polls: as long
    as no route calculation has answered with a truthy id and [getRoute] is
    not called from outside, no route is active and no request for a single
    route is made, whatever threats are reported, timers fire, settings
    change, and whichever of the other methods ([init], [getAllRoutes],
    [getModelInfo], [provideRouteFeedback], ...) are called. *)
Theorem no_polling_without_a_route (events : list Event) :
  Forall (fun ev =>
            match ev with
            | CalculateRouteSettles (Json data) =>
                forall id, getProp data "id" = Fulfilled id -> truthy id = false
            | GetRoute _ => False
            | _ => True
            end) events ->
  let '(c, b) := run Number_toString events (newClient, blankPage) in
  truthy (activeRouteId c) = false /\
  Forall (fun r => fetchesRoute r = false) (requests b).
Proof.
  assert (H : forall (s : Client * Browser),
    truthy (activeRouteId (fst s)) = false ->
    Forall (fun r => fetchesRoute r = false) (requests (snd s)) ->
    Forall (fun ev =>
              match ev with
              | CalculateRouteSettles (Json data) =>
                  forall id, getProp data "id" = Fulfilled id -> truthy id = false
              | GetRoute _ => False
              | _ => True
              end) events ->
    let '(c, b) := run Number_toString events s in
    truthy (activeRouteId c) = false /\
    Forall (fun r => fetchesRoute r = false) (requests b)).
  { induction events as [|ev events IH]; intros [c b] Ha Hr Hev.
    - cbn in *. auto.
    - unfold run. cbn [fold_left]. cbn [fst snd] in Ha, Hr.
      apply Forall_cons in Hev as [Hev Hrest].
      pose proof (step_effects c b ev) as Hstep.
      destruct (step Number_toString (c, b) ev) as [c' b'].
      destruct Hstep as (Hid & _ & more & Hm & Hmore).
      apply (IH (c', b')); [| |exact Hrest]; cbn [fst snd].
      + destruct Hid as [-> | (data & -> & Hid)]; [exact Ha|].
        exact (Hev _ Hid).
      + rewrite Hm. apply Forall_app. split; [exact Hr|].
        destruct ev; try exact Hmore; try contradiction;
          try (destruct Hmore as [-> | Hmore]; [constructor | congruence]).
        destruct Hmore as [-> | [_ Hmore]]; [constructor | congruence]. }
  intros Hev. apply (H (newClient, blankPage)); [reflexivity | constructor | exact Hev].
Qed.

(** X14. While threat detection is disabled the timers do not poll: from a
    state whose flag is falsy, any sequence of events without a truthy
    [setThreatDetectionEnabled], a settled [reportThreat], or a call from
    outside of [checkForRouteUpdates] or [getRoute] adds no request for a
    single route, however many routes are calculated (each restarts the
    timer), however often a timer fires, and whichever of the other
    methods are called. *)
Theorem disabled_detection_stops_polling (c : Client) (b : Browser)
    (events : list Event) :
  truthyAny (threatDetectionEnabled c) = false ->
  Forall (fun ev =>
            match ev with
            | SetThreatDetectionEnabled enabled => truthyAny enabled = false
            | ReportThreatSettles _ | CheckForRouteUpdates | GetRoute _ => False
            | _ => True
            end) events ->
  let '(c', b') := run Number_toString events (c, b) in
  truthyAny (threatDetectionEnabled c') = false /\
  exists more, requests b' = requests b ++ more /\
               Forall (fun r => fetchesRoute r = false) more.
Proof.
  revert c b. induction events as [|ev events IH]; intros c b Hoff Hev.
  - cbn. split; [exact Hoff|]. exists []. split; [now rewrite app_nil_r | constructor].
  - unfold run. cbn [fold_left].
    apply Forall_cons in Hev as [Hev Hrest].
    pose proof (step_effects c b ev) as Hstep.
    destruct (step Number_toString (c, b) ev) as [c1 b1].
    destruct Hstep as (_ & Hflag & more1 & Hm1 & Hmore1).
    assert (Hoff1 : truthyAny (threatDetectionEnabled c1) = false).
    { destruct Hflag as [-> | ->]; [exact Hoff | exact Hev]. }
    assert (Hpost : Forall (fun r => fetchesRoute r = false) more1).
    { destruct ev; try contradiction; try exact Hmore1.
      destruct Hmore1 as [-> | [Hon _]]; [constructor | congruence]. }
    specialize (IH c1 b1 Hoff1 Hrest). unfold run in IH.
    destruct (fold_left (step Number_toString) events (c1, b1)) as [c' b'].
    destruct IH as (Hoff' & more & Hm & Hmore).
    split; [exact Hoff'|]. exists (more1 ++ more).
    split; [now rewrite Hm, Hm1, app_assoc|]. apply Forall_app. now split.
Qed.

(** X15. A settled route check never fails and makes no request.  When the
    answer is a route whose [rerouted] is truthy, every registered callback
    is called exactly once with that route, in the order of registration,
    whether or not earlier callbacks throw, and whether or not the route is
    still the active one; in every other case no callback is called. *)
Theorem checkForRouteUpdates_notifies_all (routeId : Value) (f : Fetched)
    (c : Client) (b : Browser) :
  let b' := checkForRouteUpdates_settles Number_toString routeId f c b in
  called b'
  = called b ++
    match f with
    | Json updatedRoute =>
        match getProp updatedRoute "rerouted" with
        | Fulfilled rerouted =>
            if truthy rerouted
            then (fun g => (cb_name g, updatedRoute)) <$> onRouteUpdateCallbacks c
            else []
        | Rejected _ => []
        end
    | _ => []
    end /\
  requests b' = requests b /\
  intervals b' = intervals b.
Proof.
  cbn zeta.
  destruct (checkForRouteUpdates_settles_timers routeId f c b) as (_ & Hi & Hr).
  split; [|split; assumption].
  unfold checkForRouteUpdates_settles, getRoute_settles.
  destruct f as [message | status | | updatedRoute]; cbn [parsed];
    try (cbn; now rewrite app_nil_r).
  destruct (getProp updatedRoute "rerouted") as [rerouted | e];
    [|cbn; now rewrite app_nil_r].
  destruct (truthy rerouted); [|now rewrite app_nil_r].
  destruct (notifyRouteUpdate_spec updatedRoute c
              (console_log "Route was rerouted due to new threats!" b))
    as (Hc & _).
  exact Hc.
Qed.

(** X16. [calculateRoute] rejects exactly when the request fails, the
    response is not ok, its body is not JSON, or the body is [null]; the
    client and the timers are then untouched and one line is logged.
    Otherwise it resolves with the body, the active route becomes the
    body's [id], and a fresh timer is the only one that polls for it. *)
Theorem calculateRoute_settles_outcomes (f : Fetched) (c : Client) (b : Browser) :
  intervals b = match routeUpdateTimer c with Some h => {[ h ]} | None => ∅ end ->
  let '(answer, c', b') := calculateRoute_settles Number_toString f c b in
  match answer with
  | inl error =>
      (forall data, f = Json data -> nullish data = true) /\
      c' = c /\ intervals b' = intervals b /\
      output b' = output b ++ [LogError "Error calculating route:" error]
  | inr routeData =>
      f = Json routeData /\ nullish routeData = false /\
      getProp routeData "id" = Fulfilled (activeRouteId c') /\
      routeUpdateTimer c' = Some (nextHandle b) /\
      intervals b' = {[ nextHandle b ]} /\
      onRouteUpdateCallbacks c' = onRouteUpdateCallbacks c /\
      threatDetectionEnabled c' = threatDetectionEnabled c
  end.
Proof.
  intros Hlive. unfold calculateRoute_settles.
  destruct f as [message | status | | data]; cbn [parsed];
    try (cbn; repeat split; intros; discriminate).
  destruct (nullish data) eqn:Hn.
  - rewrite (getProp_nullish data "id" Hn). cbn. repeat split.
    intros data' E. injection E as <-. exact Hn.
  - destruct (getProp_defined data "id" Hn) as [id Hid]. rewrite Hid.
    unfold startRouteUpdateMonitoring.
    destruct (routeUpdateTimer c) as [h|] eqn:Ht; cbn; rewrite ?Ht; cbn;
      rewrite Hlive, ?difference_diag_L, union_empty_r_L; repeat split; assumption.
Qed.

End ThreatResponsiveRoutingMore.

(** Instances of the three statements about the client that have a
    hypothesis. *)
Lemma no_polling_without_a_route_witness :
  let '(c, b) :=
    ThreatResponsiveRouting.run (fun _ => "0")
      [ ThreatResponsiveRouting.Init;
        ThreatResponsiveRouting.InitSettles
          (ThreatResponsiveRouting.Json (Obj ∅));
        ThreatResponsiveRouting.GetAllRoutes;
        ThreatResponsiveRouting.ReportThreat Examples.here (Prim VUndefined)
          (Prim VUndefined) "2026-01-01T00:00:00.000Z";
        ThreatResponsiveRouting.ReportThreatSettles
          (ThreatResponsiveRouting.Json (Obj ∅));
        ThreatResponsiveRouting.SetThreatDetectionEnabled (Prim (VBool true));
        ThreatResponsiveRouting.IntervalFires 1;
        ThreatResponsiveRouting.CalculateRouteSettles
          (ThreatResponsiveRouting.NotOk (of_Z 500));
        ThreatResponsiveRouting.CheckForRouteUpdates ]
      (ThreatResponsiveRouting.newClient, ThreatResponsiveRouting.blankPage) in
  truthy (ThreatResponsiveRouting.activeRouteId c) = false /\
  Forall (fun r => ThreatResponsiveRouting.fetchesRoute r = false)
         (ThreatResponsiveRouting.requests b).
Proof.
  apply (no_polling_without_a_route (fun _ => "0")). repeat constructor.
Defined.

Lemma disabled_detection_stops_polling_witness :
  let '(c', b') :=
    ThreatResponsiveRouting.run (fun _ => "0")
      [ ThreatResponsiveRouting.Init;
        ThreatResponsiveRouting.CalculateRouteSettles
          (ThreatResponsiveRouting.Json (Obj {[ "id" := VNumber (of_Z 7) ]}));
        ThreatResponsiveRouting.IntervalFires 1;
        ThreatResponsiveRouting.IntervalFires 1 ]
      (ThreatResponsiveRouting.withThreatDetectionEnabled (Prim (VBool false))
         ThreatResponsiveRouting.newClient,
       ThreatResponsiveRouting.blankPage) in
  truthyAny (ThreatResponsiveRouting.threatDetectionEnabled c') = false /\
  exists more,
    ThreatResponsiveRouting.requests b'
    = ThreatResponsiveRouting.requests ThreatResponsiveRouting.blankPage ++ more /\
    Forall (fun r => ThreatResponsiveRouting.fetchesRoute r = false) more.
Proof.
  apply (disabled_detection_stops_polling (fun _ => "0")).
  - reflexivity.
  - repeat constructor.
Defined.

Lemma calculateRoute_settles_outcomes_witness :
  let '(answer, c', b') :=
    ThreatResponsiveRouting.calculateRoute_settles (fun _ => "0")
      (ThreatResponsiveRouting.Json (Obj {[ "id" := VNumber (of_Z 7) ]}))
      ThreatResponsiveRouting.newClient ThreatResponsiveRouting.blankPage in
  match answer with
  | inl error =>
      (forall data,
         ThreatResponsiveRouting.Json (Obj {[ "id" := VNumber (of_Z 7) ]})
         = ThreatResponsiveRouting.Json data -> nullish data = true) /\
      c' = ThreatResponsiveRouting.newClient /\
      ThreatResponsiveRouting.intervals b'
      = ThreatResponsiveRouting.intervals ThreatResponsiveRouting.blankPage /\
      ThreatResponsiveRouting.output b'
      = ThreatResponsiveRouting.output ThreatResponsiveRouting.blankPage ++
        [ThreatResponsiveRouting.LogError "Error calculating route:" error]
  | inr routeData =>
      ThreatResponsiveRouting.Json (Obj {[ "id" := VNumber (of_Z 7) ]})
      = ThreatResponsiveRouting.Json routeData /\
      nullish routeData = false /\
      getProp routeData "id" = Fulfilled (ThreatResponsiveRouting.activeRouteId c') /\
      ThreatResponsiveRouting.routeUpdateTimer c'
      = Some (ThreatResponsiveRouting.nextHandle ThreatResponsiveRouting.blankPage) /\
      ThreatResponsiveRouting.intervals b'
      = {[ ThreatResponsiveRouting.nextHandle ThreatResponsiveRouting.blankPage ]} /\
      ThreatResponsiveRouting.onRouteUpdateCallbacks c'
      = ThreatResponsiveRouting.onRouteUpdateCallbacks ThreatResponsiveRouting.newClient /\
      ThreatResponsiveRouting.threatDetectionEnabled c'
      = ThreatResponsiveRouting.threatDetectionEnabled ThreatResponsiveRouting.newClient
  end.
Proof.
  apply (calculateRoute_settles_outcomes (fun _ => "0")). reflexivity.
Defined.

(** ** components/Dashboard/AiRecommendationsCard.jsx *)

Section AiRecommendationsCardMore.

Import AiRecommendationsCard.

(** X17. The card always has a text to show: whatever [Math.random]
    returns, the index computed from it is 0, 1 or 2, so the text is one of
    the three recommendations and never [undefined]. *)
Theorem randomRecommendation_defined (w : World) :
  is_random_value (entropy w (draws w)) = true ->
  exists text,
    fst (randomRecommendation w) = Some text /\ In text recommendations.
Proof.
  intros Hr. unfold randomRecommendation, Math_random. cbn [fst length recommendations].
  change (Z.of_nat 3) with 3.
  destruct (floor_random_3 _ Hr) as (k & Hk & ->).
  assert (E : k = 0 \/ k = 1 \/ k = 2) by lia.
  destruct E as [-> | [-> | ->]]; vm_compute; eexists; split; try reflexivity; auto.
Qed.

End AiRecommendationsCardMore.

Lemma randomRecommendation_defined_witness :
  exists text,
    fst (AiRecommendationsCard.randomRecommendation Examples.world0) = Some text /\
    In text AiRecommendationsCard.recommendations.
Proof.
  apply randomRecommendation_defined. apply tape_is_random.
Defined.

(** ** utils/aiPredictiveAnalytics.js, third module *)

Section PersonalizedRecommendationsMore.

Import ApiMore PersonalizedRecommendations.

Variable String_toLowerCase : string -> string.

Lemma isSafetyRec_nullish (rec : Any) (keep : bool) :
  isSafetyRec String_toLowerCase rec = Fulfilled keep -> nullish rec = false.
Proof.
  unfold isSafetyRec. destruct (nullish rec) eqn:Hn; [|reflexivity].
  rewrite (getProp_nullish rec "type" Hn). discriminate.
Qed.

Lemma tipOf_defined (rec : Any) :
  nullish rec = false -> exists t, tipOf rec = Fulfilled t.
Proof.
  intros H. unfold tipOf.
  destruct (getProp_defined rec "id" H) as [v1 ->].
  destruct (getProp_defined rec "message" H) as [v2 ->].
  destruct (getProp_defined rec "priority" H) as [v3 ->].
  destruct (getProp_defined rec "type" H) as [v4 ->].
  cbn. eauto.
Qed.

Lemma filter_try_spec (items : list Any) :
  if forallb (fun rec => match isSafetyRec String_toLowerCase rec with
                         | Fulfilled _ => true
                         | Rejected _ => false
                         end) items
  then filter_try (isSafetyRec String_toLowerCase) items
       = Fulfilled (List.filter
                      (fun rec => match isSafetyRec String_toLowerCase rec with
                                  | Fulfilled keep => keep
                                  | Rejected _ => false
                                  end) items)
  else filter_try (isSafetyRec String_toLowerCase) items = Rejected TypeError.
Proof.
  assert (Herr : forall rec e, isSafetyRec String_toLowerCase rec = Rejected e ->
                               e = TypeError).
  { intros rec e. unfold isSafetyRec, mentionsSafety.
    destruct rec as [[| | b | n | s] | o]; cbv [getProp mbind Settled_bind];
      try congruence.
    destruct (get o "type") as [| | b | n | s]; try congruence.
    destruct (includes (String_toLowerCase s) "safety"); cbv [mret Settled_ret];
      try congruence.
    destruct (get o "message") as [| | b' | n' | s']; congruence. }
  induction items as [|rec items IH]; [reflexivity|].
  cbn [forallb filter_try List.filter].
  destruct (isSafetyRec String_toLowerCase rec) as [keep | e] eqn:Hrec.
  - cbn [andb]. destruct (forallb _ items).
    + rewrite IH. cbn. destruct keep; reflexivity.
    + rewrite IH. reflexivity.
  - cbn. now rewrite (Herr rec e Hrec).
Qed.

Lemma mapM_tipOf (recs : list Any) :
  Forall (fun rec => nullish rec = false) recs ->
  exists tips, mapM tipOf recs = Fulfilled tips /\
               Fulfilled <$> tips = tipOf <$> recs.
Proof.
  induction 1 as [|rec recs Hrec Hall (tips & Hm & Hf)].
  - exists []. split; reflexivity.
  - destruct (tipOf_defined rec Hrec) as [t Et].
    exists (t :: tips). cbn [mapM fmap list_fmap]. rewrite Et, Hm. cbn.
    split; [reflexivity|]. f_equal. exact Hf.
Qed.

(** X18. [getPersonalizedSafetyTips] never rejects and, unlike the other
    utilities, draws no random value.  When the server serves an array in
    which every recommendation can be tested (its type is a string, and its
    message too unless the type already mentions safety), the tips are
    built, in order, from exactly the recommendations whose lower-cased type
    or message contains "safety", and nothing is logged; in every other
    case the answer is the fallback tip. *)
Theorem getPersonalizedSafetyTips_outcomes (userContext : Any)
    (response : Settled Objects) (w : World) :
  exists tips w',
    getPersonalizedSafetyTips String_toLowerCase userContext response w
    = (Fulfilled tips, w') /\
    entropy w' = entropy w /\ draws w' = draws w /\
    match response with
    | Fulfilled (ObjectArray items) =>
        if forallb (fun rec => match isSafetyRec String_toLowerCase rec with
                               | Fulfilled _ => true
                               | Rejected _ => false
                               end) items
        then Fulfilled <$> tips
             = tipOf <$> List.filter
                           (fun rec => match isSafetyRec String_toLowerCase rec with
                                       | Fulfilled keep => keep
                                       | Rejected _ => false
                                       end) items /\
             console w' = console w
        else tips = fallbackTips
    | _ => tips = fallbackTips
    end.
Proof.
  unfold getPersonalizedSafetyTips, getRecommendationObjects, request.
  destruct response as [[items | v] | error].
  - pose proof (filter_try_spec items) as Hf.
    destruct (forallb _ items).
    + rewrite Hf. cbn [mbind Settled_bind].
      match goal with |- context [mapM tipOf ?l] =>
        destruct (mapM_tipOf l) as (tips & -> & Hmap) end.
      { apply List.Forall_forall. intros rec Hin. apply filter_In in Hin as [_ Hk].
        destruct (isSafetyRec String_toLowerCase rec) as [keep|] eqn:E; [|discriminate].
        exact (isSafetyRec_nullish rec keep E). }
      eexists. eexists. split; [reflexivity|]. repeat split. exact Hmap.
    + rewrite Hf. cbn. eexists. eexists. split; [reflexivity|]. repeat split.
  - cbn. eexists. eexists. split; [reflexivity|]. repeat split.
  - cbn. eexists. eexists. split; [reflexivity|]. repeat split.
Qed.

End PersonalizedRecommendationsMore.

(** ** binary64: the order of finite Numbers and the sign of a difference *)

Section FiniteNumbers.

Import TimeValue AlertsView.

Lemma pow2_pos (k : Z) : 0 <= k -> 0 < 2 ^ k.
Proof. intros. apply Z.pow_pos_nonneg; lia. Qed.

(** A canonical mantissa has at most 53 digits, and exactly 53 above the
    least exponent. *)
Lemma bounded_mantissa (m : positive) (e : Z) :
  bounded prec emax m e = true ->
  -1074 <= e /\ Zpos m < 2 ^ 53 /\ (-1074 < e -> 2 ^ 52 <= Zpos m).
Proof.
  unfold bounded, canonical_mantissa, fexp, SpecFloat.emin, prec, emax.
  intros H. apply andb_prop in H as [H _]. apply Z.eqb_eq in H.
  pose proof (digits2_pos_bounds m) as [Hlo Hhi].
  set (d := Zpos (digits2_pos m)) in *.
  assert (Hd : 0 < d) by (unfold d; lia).
  split; [lia|]. split.
  - assert (d <= 53) by lia.
    eapply Z.lt_le_trans; [exact Hhi|]. apply Z.pow_le_mono_r; lia.
  - intros He. assert (d = 53) by lia.
    replace 52 with (d - 1) by lia. exact Hlo.
Qed.

Lemma scaled_lt (m1 m2 : positive) (e1 e2 : Z) :
  bounded prec emax m1 e1 = true -> bounded prec emax m2 e2 = true ->
  e1 < e2 ->
  Zpos m1 * 2 ^ (e1 + 1074) < Zpos m2 * 2 ^ (e2 + 1074).
Proof.
  intros H1 H2 He.
  destruct (bounded_mantissa m1 e1 H1) as (Hmin1 & Hhi1 & _).
  destruct (bounded_mantissa m2 e2 H2) as (_ & _ & Hlo2).
  specialize (Hlo2 ltac:(lia)).
  assert (Hp1 : 0 < 2 ^ (e1 + 1074)) by (apply pow2_pos; lia).
  assert (Hle : 2 * 2 ^ (e1 + 1074) <= 2 ^ (e2 + 1074)).
  { replace (2 * 2 ^ (e1 + 1074)) with (2 ^ (e1 + 1074 + 1))
      by (rewrite Z.pow_add_r by lia; change (2 ^ 1) with 2; lia).
    apply Z.pow_le_mono_r; lia. }
  change (2 ^ 53) with (2 * 2 ^ 52) in Hhi1.
  set (a := 2 ^ (e1 + 1074)) in *. set (b := 2 ^ (e2 + 1074)) in *.
  set (h := 2 ^ 52) in *.
  assert (Hh : 0 < h) by (unfold h; apply pow2_pos; lia).
  assert (S1 : Zpos m1 * a < 2 * h * a) by (apply Z.mul_lt_mono_pos_r; lia).
  assert (S2 : h * (2 * a) <= h * b) by (apply Z.mul_le_mono_nonneg_l; lia).
  assert (S3 : h * b <= Zpos m2 * b) by (apply Z.mul_le_mono_nonneg_r; lia).
  lia.
Qed.

Lemma mul_compare_pos (a b p : Z) : 0 < p -> (a * p ?= b * p) = (a ?= b).
Proof.
  intros Hp. destruct (Z.compare_spec a b) as [-> | Hlt | Hgt].
  - apply Z.compare_refl.
  - apply Z.compare_lt_iff. nia.
  - apply Z.compare_gt_iff. nia.
Qed.

(** On finite Numbers [SFcompare] is the order of the values. *)
Lemma SFcompare_scaled (x y : number) :
  Number_isFinite x = true -> Number_isFinite y = true ->
  SFcompare x y = Some (scaled x ?= scaled y).
Proof.
  destruct x as [sx | sx | | sx mx ex], y as [sy | sy | | sy my ey];
    cbn [Number_isFinite]; intros Hx Hy; try discriminate.
  - reflexivity.
  - cbn [SFcompare scaled].
    destruct (bounded_mantissa my ey Hy) as (Hmin & _).
    pose proof (pow2_pos (ey + 1074) ltac:(lia)).
    destruct sy; cbn [cond_Zopp]; f_equal; symmetry;
      [apply Z.compare_gt_iff | apply Z.compare_lt_iff]; nia.
  - cbn [SFcompare scaled].
    destruct (bounded_mantissa mx ex Hx) as (Hmin & _).
    pose proof (pow2_pos (ex + 1074) ltac:(lia)).
    destruct sx; cbn [cond_Zopp]; f_equal; symmetry;
      [apply Z.compare_lt_iff | apply Z.compare_gt_iff]; nia.
  - cbn [SFcompare scaled].
    destruct (bounded_mantissa mx ex Hx) as (Hminx & _).
    destruct (bounded_mantissa my ey Hy) as (Hminy & _).
    pose proof (pow2_pos (ex + 1074) ltac:(lia)) as Hpx.
    pose proof (pow2_pos (ey + 1074) ltac:(lia)) as Hpy.
    assert (Hposx : 0 < Zpos mx * 2 ^ (ex + 1074)) by nia.
    assert (Hposy : 0 < Zpos my * 2 ^ (ey + 1074)) by nia.
    assert (Hcases : match ex ?= ey with
                     | Eq => ex = ey
                     | Lt => Zpos mx * 2 ^ (ex + 1074) < Zpos my * 2 ^ (ey + 1074)
                     | Gt => Zpos my * 2 ^ (ey + 1074) < Zpos mx * 2 ^ (ex + 1074)
                     end).
    { destruct (Z.compare_spec ex ey) as [E | L | G];
        [exact E | now apply scaled_lt | now apply scaled_lt]. }
    change (PosDef.Pos.compare_cont Eq mx my) with (Pos.compare mx my).
    destruct sx, sy; cbn [cond_Zopp]; f_equal; symmetry.
    + destruct (ex ?= ey).
      * subst ey. rewrite Z.compare_opp, (mul_compare_pos _ _ _ Hpx).
        cbn [Z.compare]. apply Pos.compare_antisym.
      * apply Z.compare_gt_iff. lia.
      * apply Z.compare_lt_iff. lia.
    + apply Z.compare_lt_iff. lia.
    + apply Z.compare_gt_iff. lia.
    + destruct (ex ?= ey).
      * subst ey. rewrite (mul_compare_pos _ _ _ Hpx). reflexivity.
      * apply Z.compare_lt_iff. lia.
      * apply Z.compare_gt_iff. lia.
Qed.

(** A shift of [binary_round_aux] never loses a whole mantissa: above the
    least exponent the mantissa keeps 53 digits. *)
Lemma shr_fexp_pos (m e : Z) :
  0 < m -> -1074 <= e ->
  let '(mrs, e') := shr_fexp prec emax m e loc_Exact in
  0 < shr_m mrs /\
  0 < round_nearest_even (shr_m mrs) (loc_of_shr_record mrs) /\ -1074 <= e'.
Proof.
  intros Hm He. destruct m as [|p|p]; try lia.
  unfold shr_fexp, fexp, SpecFloat.emin, prec, emax.
  cbn [Zdigits2 shr_record_of_loc].
  pose proof (digits2_pos_bounds p) as [Hlo _].
  set (d := Zpos (digits2_pos p)) in *.
  destruct (Z.max (d + e - 53) (3 - 1024 - 53) - e) as [|q|q] eqn:Hn; cbn [shr].
  - cbn. lia.
  - assert (Hq : Zpos q = d - 53) by lia.
    pose proof (iter_shr_1 (Zpos p) q ltac:(lia)) as H. cbn zeta in H.
    destruct (SpecFloat.iter_pos shr_1 q (Build_shr_record (Zpos p) false false))
      as [m1 r st].
    cbn [shr_m shr_r shr_s] in *.
    destruct H as [Hm1 (t & Ht & Heq & _)].
    rewrite Z.pow_add_r in Heq by lia. change (2 ^ 1) with 2 in Heq.
    assert (Hp : 0 < 2 ^ Zpos q) by (apply pow2_pos; lia).
    assert (Hge : 2 ^ Zpos q <= Zpos p).
    { eapply Z.le_trans; [|exact Hlo]. apply Z.pow_le_mono_r; lia. }
    assert (H1 : 0 < m1).
    { destruct (Z.eq_dec m1 0) as [-> | Hne]; [|lia].
      destruct r; cbn [Z.b2z] in Heq; lia. }
    split; [exact H1|]. split; [|lia].
    destruct r, st; cbn [loc_of_shr_record round_nearest_even];
      try destruct (Z.even m1); lia.
  - cbn. lia.
Qed.

(** Rounding a non-zero integer multiple of a power of two above the least
    exponent keeps its sign and does not give a zero. *)
Lemma binary_round_sign (s : bool) (p : positive) (e : Z) :
  -1074 <= e ->
  (exists m' e', binary_round prec emax s p e = S754_finite s m' e') \/
  binary_round prec emax s p e = S754_infinity s.
Proof.
  intros He. unfold binary_round.
  destruct (shl_align p e (fexp prec emax (Zpos (digits2_pos p) + e)))
    as [mz ez] eqn:Hal.
  assert (Hez : -1074 <= ez).
  { unfold shl_align, fexp, SpecFloat.emin, prec, emax in Hal.
    destruct (Z.max (Zpos (digits2_pos p) + e - 53) (3 - 1024 - 53) - e) eqn:Hd;
      injection Hal as _ <-; lia. }
  unfold binary_round_aux.
  pose proof (shr_fexp_pos (Zpos mz) ez ltac:(lia) Hez) as H1.
  destruct (shr_fexp prec emax (Zpos mz) ez loc_Exact) as [mrs' e'].
  destruct H1 as (_ & Hr1 & He').
  pose proof (shr_fexp_pos _ e' Hr1 He') as H2.
  destruct (shr_fexp prec emax
              (round_nearest_even (shr_m mrs') (loc_of_shr_record mrs')) e' loc_Exact)
    as [mrs'' e''].
  destruct H2 as [Hpos _].
  destruct (shr_m mrs'') as [|m2|m2]; try lia.
  destruct (e'' <=? emax - prec); [left; eauto | now right].
Qed.

Lemma goesBehind_normalize (D e : Z) :
  -1074 <= e ->
  goesBehind (binary_normalize prec emax D e false) = (0 <? D).
Proof.
  intros He. unfold goesBehind. change (of_Z 0) with (S754_zero false).
  destruct D as [|p|p]; cbn [binary_normalize].
  - reflexivity.
  - destruct (binary_round_sign false p e He) as [(m' & e' & ->) | ->]; reflexivity.
  - destruct (binary_round_sign true p e He) as [(m' & e' & ->) | ->]; reflexivity.
Qed.

Lemma shl_align_value (m : positive) (e ez : Z) :
  ez <= e -> Zpos (fst (shl_align m e ez)) = Zpos m * 2 ^ (e - ez).
Proof.
  intros Hle. unfold shl_align.
  destruct (ez - e) as [|d|d] eqn:Hd; cbn [fst].
  - replace (e - ez) with 0 by lia. lia.
  - lia.
  - change (PosDef.Pos.iter xO m d) with (shift_pos d m).
    rewrite shift_pos_correct, Z.pow_pos_fold.
    replace (e - ez) with (Zpos d) by lia. lia.
Qed.

(** The sign of a difference of finite Numbers is the sign of the exact
    difference: rounding does not turn it around or cancel it. *)
Lemma goesBehind_sub (x y : number) :
  Number_isFinite x = true -> Number_isFinite y = true ->
  goesBehind (sub y x) = (scaled x <? scaled y).
Proof.
  destruct x as [sx | sx | | sx mx ex], y as [sy | sy | | sy my ey];
    cbn [Number_isFinite]; intros Hx Hy; try discriminate.
  - destruct sx, sy; reflexivity.
  - destruct (bounded_mantissa my ey Hy) as (Hmin & _).
    pose proof (pow2_pos (ey + 1074) ltac:(lia)).
    cbn [sub SFsub scaled]. unfold goesBehind. change (of_Z 0) with (S754_zero false).
    destruct sy; cbn [SFltb SFcompare cond_Zopp]; symmetry;
      [apply Z.ltb_ge | apply Z.ltb_lt]; nia.
  - destruct (bounded_mantissa mx ex Hx) as (Hmin & _).
    pose proof (pow2_pos (ex + 1074) ltac:(lia)).
    cbn [sub SFsub scaled]. unfold goesBehind. change (of_Z 0) with (S754_zero false).
    destruct sx; cbn [SFltb SFcompare negb cond_Zopp]; symmetry;
      [apply Z.ltb_lt | apply Z.ltb_ge]; nia.
  - destruct (bounded_mantissa mx ex Hx) as (Hminx & _).
    destruct (bounded_mantissa my ey Hy) as (Hminy & _).
    unfold sub. cbn [SFsub]. cbv zeta.
    set (ez := Z.min ey ex).
    assert (Hez : -1074 <= ez) by (unfold ez; lia).
    rewrite (goesBehind_normalize _ ez Hez).
    rewrite (shl_align_value my ey ez) by (unfold ez; lia).
    rewrite (shl_align_value mx ex ez) by (unfold ez; lia).
    cbn [scaled].
    assert (Ex : 2 ^ (ex + 1074) = 2 ^ (ex - ez) * 2 ^ (ez + 1074)).
    { rewrite <- Z.pow_add_r by (unfold ez; lia). f_equal. lia. }
    assert (Ey : 2 ^ (ey + 1074) = 2 ^ (ey - ez) * 2 ^ (ez + 1074)).
    { rewrite <- Z.pow_add_r by (unfold ez; lia). f_equal. lia. }
    rewrite Ex, Ey.
    pose proof (pow2_pos (ez + 1074) ltac:(lia)) as HK.
    set (K := 2 ^ (ez + 1074)) in *.
    set (a := Zpos mx * 2 ^ (ex - ez)). set (b := Zpos my * 2 ^ (ey - ez)).
    replace (Zpos mx * (2 ^ (ex - ez) * K)) with (a * K) by (unfold a; lia).
    replace (Zpos my * (2 ^ (ey - ez) * K)) with (b * K) by (unfold b; lia).
    destruct sx, sy; cbn [cond_Zopp];
      destruct (Z.ltb_spec 0 (- b - - a)), (Z.ltb_spec 0 (- b - a)),
               (Z.ltb_spec 0 (b - - a)), (Z.ltb_spec 0 (b - a));
      symmetry; (apply Z.ltb_lt || apply Z.ltb_ge); nia.
Qed.

End FiniteNumbers.

(** ** components/AlertsPage.jsx: the order by time *)

Section AlertsByTime.

Import AlertsPage AlertsView TimeValue.

Variable Date_value : Value -> number.

Lemma StronglySorted_impl_in {A : Type} (R R' : A -> A -> Prop) (l : list A) :
  (forall a b, In a l -> In b l -> R a b -> R' a b) ->
  StronglySorted R l -> StronglySorted R' l.
Proof.
  intros Himp Hs. induction Hs as [|x l Hs IH Hx]; constructor.
  - apply IH. intros a b Ha Hb. apply Himp; now right.
  - rewrite List.Forall_forall in *. intros b Hb.
    apply Himp; [now left | now right | now apply Hx].
Qed.

(** X19. With the sort setting "Time" (the initial one) and alerts whose
    timestamps are valid dates, no displayed alert is followed by a strictly
    newer one, and alerts with the same time value keep the order they have
    in the state: the rounding of the subtraction in the comparator never
    changes the sign of a difference. *)
Theorem filteredAndSortedAlerts_by_time (st : State) :
  sortBy st = "Time" ->
  Forall (fun alert => Number_isFinite (Date_value (get alert "timestamp")) = true)
         (alerts st) ->
  StronglySorted
    (fun a b => SFltb (Date_value (get a "timestamp"))
                      (Date_value (get b "timestamp")) = false)
    (filteredAndSortedAlerts Date_value st) /\
  forall t : number, Number_isFinite t = true ->
    List.filter (fun a => SFeqb (Date_value (get a "timestamp")) t)
      (filteredAndSortedAlerts Date_value st)
    = List.filter (fun a => SFeqb (Date_value (get a "timestamp")) t)
        (List.filter (passes (filterType st)) (alerts st)).
Proof.
  intros Hsort Hvalid. unfold filteredAndSortedAlerts.
  set (level := fun a : Object => scaled (Date_value (get a "timestamp"))).
  set (P := fun a : Object =>
              Number_isFinite (Date_value (get a "timestamp")) = true).
  set (shown := List.filter (passes (filterType st)) (alerts st)).
  assert (Hcmp : forall x y : Object, P x -> P y ->
            goesBehind (compareAlerts Date_value (sortBy st) x y)
            = (level x <? level y)).
  { intros x y Hx Hy. unfold compareAlerts. rewrite Hsort, String.eqb_refl.
    now apply goesBehind_sub. }
  assert (Hshown : Forall P shown).
  { apply List.Forall_forall. intros x Hx. apply filter_In in Hx as [Hx _].
    rewrite List.Forall_forall in Hvalid. now apply Hvalid. }
  assert (Hsorted : forall x, In x (sort (compareAlerts Date_value (sortBy st)) shown) ->
                              P x).
  { intros x Hx. rewrite List.Forall_forall in Hshown. apply Hshown.
    eapply Permutation_in; [apply sort_perm | exact Hx]. }
  split.
  - eapply StronglySorted_impl_in;
      [|exact (sort_sorted _ level P Hcmp shown Hshown)].
    intros a b Ha Hb Hle. cbn beta in Hle.
    unfold SFltb. rewrite (SFcompare_scaled _ _ (Hsorted a Ha) (Hsorted b Hb)).
    fold (level a) (level b).
    destruct (Z.compare_spec (level a) (level b)); try reflexivity. lia.
  - intros t Ht.
    assert (Heq : forall a, P a ->
              SFeqb (Date_value (get a "timestamp")) t = (level a =? scaled t)).
    { intros a Ha. unfold SFeqb. rewrite (SFcompare_scaled _ _ Ha Ht).
      fold (level a).
      destruct (Z.compare_spec (level a) (scaled t));
        symmetry; [apply Z.eqb_eq | apply Z.eqb_neq | apply Z.eqb_neq]; lia. }
    rewrite (filter_ext_in _ (fun a => level a =? scaled t)
               (sort (compareAlerts Date_value (sortBy st)) shown))
      by (intros a Ha; apply Heq, Hsorted, Ha).
    rewrite (filter_ext_in _ (fun a => level a =? scaled t) shown)
      by (intros a Ha; apply Heq; rewrite List.Forall_forall in Hshown;
          now apply Hshown).
    exact (sort_stable _ level P Hcmp (scaled t) shown Hshown).
Qed.

End AlertsByTime.

(** An instance: the sample alerts, stamped 3, 2 and 1, with the middle one
    made the newest; the display starts with it. *)
Lemma filteredAndSortedAlerts_by_time_witness :
  let Date_value := fun v : Value =>
    if strict_equal v (VString "b") then of_Z 9
    else if strict_equal v (VString "a") then of_Z 3 else of_Z 1 in
  let st := {| AlertsPage.alerts := AlertsPage.sampleAlerts "a" "b" "c";
               AlertsPage.filterType := "All"; AlertsPage.sortBy := "Time" |} in
  StronglySorted
    (fun a b => SFltb (Date_value (get a "timestamp"))
                      (Date_value (get b "timestamp")) = false)
    (AlertsView.filteredAndSortedAlerts Date_value st) /\
  (fun a => get a "id") <$> AlertsView.filteredAndSortedAlerts Date_value st
    = [VNumber (of_Z 2); VNumber (of_Z 1); VNumber (of_Z 3)].
Proof.
  cbn zeta. split; [|vm_compute; reflexivity].
  refine (proj1 (filteredAndSortedAlerts_by_time _ _ _ _)).
  - reflexivity.
  - repeat constructor.
Defined.
